(** * A shallow embedding of the chess engine (move generator, position
      keys, repetition tracker and negamax search driver) *)

From Stdlib Require Import ZArith Bool String Ascii List Lia.
From Stdlib Require Import Sorting.Permutation Sorting.Sorted.
Import ListNotations.
Open Scope Z_scope.

(** ** Data model (types.ts) *)

(** [PieceType] is the string union 'p' | 'n' | 'b' | 'r' | 'q' | 'k'. *)
Inductive PieceType : Set := Pawn | Knight | Bishop | Rook | Queen | King.

Inductive PieceColor : Set := White | Black.

Record Piece : Set := mkPiece { type : PieceType; color : PieceColor }.

Record Position : Set := mkPos { row : Z; col : Z }.

(** The optional fields [isCastling] and [isEnPassant] are only ever tested
    for truthiness, so [undefined] is [false]. *)
Record Move : Set := mkMove {
  from : Position;
  to : Position;
  piece : Piece;
  captured : option Piece;
  promotion : option PieceType;
  isCastling : bool;
  isEnPassant : bool
}.

(** [(Piece | null)[][]] *)
Definition Board : Set := list (list (option Piece)).

Record CastlingRights : Set := mkRights {
  whiteKingSide : bool;
  whiteQueenSide : bool;
  blackKingSide : bool;
  blackQueenSide : bool
}.

Definition PieceType_eqb (x y : PieceType) : bool :=
  match x, y with
  | Pawn, Pawn | Knight, Knight | Bishop, Bishop
  | Rook, Rook | Queen, Queen | King, King => true
  | _, _ => false
  end.

Definition PieceColor_eqb (x y : PieceColor) : bool :=
  match x, y with
  | White, White | Black, Black => true
  | _, _ => false
  end.

(** [color === 'white' ? 'black' : 'white'] *)
Definition opposite (c : PieceColor) : PieceColor :=
  match c with White => Black | Black => White end.

(** ** Board access

    [cell board row col] is the read [board[row][col]].  Every read of the
    source is guarded by [isValidPosition] or uses constant indices below 8,
    so on an 8x8 board no read is out of range; outside the board the model
    answers [None] (an empty square). *)
Definition cell (board : Board) (row col : Z) : option Piece :=
  if (0 <=? row) && (0 <=? col) then
    match nth_error board (Z.to_nat row) with
    | Some line =>
        match nth_error line (Z.to_nat col) with
        | Some sq => sq
        | None => None
        end
    | None => None
    end
  else None.

Fixpoint setNth {A : Type} (i : nat) (v : A) (l : list A) : list A :=
  match l, i with
  | [], _ => []
  | _ :: tl, O => v :: tl
  | x :: tl, S j => x :: setNth j v tl
  end.

(** [setCell board row col v] is the write [board[row][col] = v] on a copy of
    the board.  The source only writes inside the 8x8 grid; outside of it the
    model leaves the board unchanged. *)
Definition setCell (board : Board) (row col : Z) (v : option Piece) : Board :=
  if (0 <=? row) && (0 <=? col) then
    match nth_error board (Z.to_nat row) with
    | Some line =>
        if (Z.to_nat col <? length line)%nat
        then setNth (Z.to_nat row) (setNth (Z.to_nat col) v line) board
        else board
    | None => board
    end
  else board.

Definition wfBoard (board : Board) : Prop :=
  length board = 8%nat /\ Forall (fun line => length line = 8%nat) board.

(** ** Move validation (moveValidation.ts) *)

Definition isValidPosition (pos : Position) : bool :=
  (row pos >=? 0) && (row pos <? 8) && (col pos >=? 0) && (col pos <? 8).

Definition isPositionEqual (a b : Position) : bool :=
  (row a =? row b) && (col a =? col b).

Definition getPawnMoves (board : Board) (from : Position) (color0 : PieceColor)
  : list Position :=
  let direction := match color0 with White => 1 | Black => -1 end in
  let startRow := match color0 with White => 1 | Black => 6 end in
  let oneForward := mkPos (row from + direction) (col from) in
  let forward :=
    if isValidPosition oneForward then
      match cell board (row oneForward) (col oneForward) with
      | None =>
          oneForward ::
          (if row from =? startRow then
             let twoForward := mkPos (row from + 2 * direction) (col from) in
             if isValidPosition twoForward then
               match cell board (row twoForward) (col twoForward) with
               | None => [twoForward]
               | Some _ => []
               end
             else []
           else [])
      | Some _ => []
      end
    else [] in
  let captureLeft := mkPos (row from + direction) (col from - 1) in
  let captureRight := mkPos (row from + direction) (col from + 1) in
  forward ++
  flat_map (fun pos =>
      if isValidPosition pos then
        match cell board (row pos) (col pos) with
        | Some target =>
            if negb (PieceColor_eqb (color target) color0) then [pos] else []
        | None => []
        end
      else [])
    [captureLeft; captureRight].

(** The body shared by [getKnightMoves] and [getKingMoves]: one step by each
    offset, kept when the square is on the board and is empty or holds an
    enemy piece. *)
Definition offsetMoves (offsets : list (Z * Z)) (board : Board)
  (from : Position) (color0 : PieceColor) : list Position :=
  flat_map (fun off =>
      let pos := mkPos (row from + fst off) (col from + snd off) in
      if isValidPosition pos then
        match cell board (row pos) (col pos) with
        | None => [pos]
        | Some target =>
            if negb (PieceColor_eqb (color target) color0) then [pos] else []
        end
      else [])
    offsets.

Definition getKnightMoves : Board -> Position -> PieceColor -> list Position :=
  offsetMoves [(-2, -1); (-2, 1); (-1, -2); (-1, 2);
               (1, -2); (1, 2); (2, -1); (2, 1)].

(** The [while (isValidPosition({row, col}))] loop of [getLinearMoves].  A ray
    crosses at most eight squares of the board, so nine rounds always reach
    the loop's exit. *)
Fixpoint ray (rounds : nat) (board : Board) (color0 : PieceColor)
  (row0 col0 rowDir colDir : Z) : list Position :=
  match rounds with
  | O => []
  | S rounds' =>
      if isValidPosition (mkPos row0 col0) then
        match cell board row0 col0 with
        | None =>
            mkPos row0 col0 ::
            ray rounds' board color0 (row0 + rowDir) (col0 + colDir) rowDir colDir
        | Some target =>
            if negb (PieceColor_eqb (color target) color0)
            then [mkPos row0 col0] else []
        end
      else []
  end.

Definition getLinearMoves (board : Board) (from : Position)
  (color0 : PieceColor) (directions : list (Z * Z)) : list Position :=
  flat_map (fun dir =>
      ray 9 board color0 (row from + fst dir) (col from + snd dir)
          (fst dir) (snd dir))
    directions.

Definition getBishopMoves (board : Board) (from : Position) (color0 : PieceColor) :=
  getLinearMoves board from color0 [(-1, -1); (-1, 1); (1, -1); (1, 1)].

Definition getRookMoves (board : Board) (from : Position) (color0 : PieceColor) :=
  getLinearMoves board from color0 [(-1, 0); (1, 0); (0, -1); (0, 1)].

Definition getQueenMoves (board : Board) (from : Position) (color0 : PieceColor) :=
  getLinearMoves board from color0
    [(-1, -1); (-1, 0); (-1, 1); (0, -1); (0, 1); (1, -1); (1, 0); (1, 1)].

Definition getKingMoves : Board -> Position -> PieceColor -> list Position :=
  offsetMoves [(-1, -1); (-1, 0); (-1, 1); (0, -1); (0, 1);
               (1, -1); (1, 0); (1, 1)].

(** [getValidMoves] has three parameters; the search engine calls it with a
    fourth argument ([lastMove]), which JavaScript discards. *)
Definition getValidMoves (board : Board) (from : Position) (piece0 : Piece)
  : list Position :=
  match type piece0 with
  | Pawn => getPawnMoves board from (color piece0)
  | Knight => getKnightMoves board from (color piece0)
  | Bishop => getBishopMoves board from (color piece0)
  | Rook => getRookMoves board from (color piece0)
  | Queen => getQueenMoves board from (color piece0)
  | King => getKingMoves board from (color piece0)
  end.

(** The 64 squares in the order of the nested [for] loops
    ([row] outer, [col] inner). *)
Definition eight : list Z := [0; 1; 2; 3; 4; 5; 6; 7].

Definition squares : list Position :=
  flat_map (fun r => map (fun c => mkPos r c) eight) eight.

Definition isPieceOf (t : PieceType) (c : PieceColor) (sq : option Piece) : bool :=
  match sq with
  | Some pc => PieceType_eqb (type pc) t && PieceColor_eqb (color pc) c
  | None => false
  end.

Definition findKing (board : Board) (color0 : PieceColor) : option Position :=
  find (fun pos => isPieceOf King color0 (cell board (row pos) (col pos))) squares.

Definition isPositionUnderAttack (board : Board) (position : Position)
  (byColor : PieceColor) : bool :=
  existsb (fun sq =>
      match cell board (row sq) (col sq) with
      | Some pc =>
          PieceColor_eqb (color pc) byColor &&
          existsb (fun move => isPositionEqual move position)
                  (getValidMoves board sq pc)
      | None => false
      end)
    squares.

Definition isKingInCheck (board : Board) (kingColor : PieceColor) : bool :=
  match findKing board kingColor with
  | None => false
  | Some kingPos => isPositionUnderAttack board kingPos (opposite kingColor)
  end.

Definition wouldMoveResultInCheck (board : Board) (from to : Position)
  (playerColor : PieceColor) : bool :=
  let piece0 := cell board (row from) (col from) in
  let tempBoard := setCell board (row to) (col to) piece0 in
  let tempBoard := setCell tempBoard (row from) (col from) None in
  isKingInCheck tempBoard playerColor.

(** The rights of one side, as [getValidMovesForColor] hands them over. *)
Record SideRights : Set := mkSideRights { kingSide : bool; queenSide : bool }.

Definition getCastlingMoves (board : Board) (from : Position)
  (color0 : PieceColor) (castlingRights : SideRights) (isInCheck : bool)
  : list Position :=
  let row0 := match color0 with White => 0 | Black => 7 end in
  let enemyColor := opposite color0 in
  if negb (row from =? row0) || negb (col from =? 3) then []
  else if isInCheck then []
  else
    let side (rookCol : Z) (squaresBetween : list Z) (target : Z) :=
      let rook := cell board row0 rookCol in
      let allClear :=
        forallb (fun c => match cell board row0 c with None => true | Some _ => false end)
                squaresBetween in
      let notUnderAttack :=
        forallb (fun c => negb (isPositionUnderAttack board (mkPos row0 c) enemyColor))
                squaresBetween in
      if isPieceOf Rook color0 rook && allClear && notUnderAttack
      then [mkPos row0 target] else [] in
    (if kingSide castlingRights then side 7 [4; 5] 5 else []) ++
    (if queenSide castlingRights then side 0 [1; 2] 1 else []).

(** ** initialBoard.ts *)

Definition createInitialBoard : Board :=
  let backRow c :=
    map (fun t => Some (mkPiece t c))
        [Rook; Knight; Bishop; King; Queen; Bishop; Knight; Rook] in
  let pawns c := repeat (Some (mkPiece Pawn c)) 8 in
  let empty := repeat (@None Piece) 8 in
  [backRow White; pawns White; empty; empty; empty; empty; pawns Black; backRow Black].

(** ** Helper functions of the search engine (negamax.ts) *)

(** A list with the index of each element, as the counting [for] loops over
    [board.length] and [board[row].length] see it. *)
Fixpoint indexedFrom {A : Type} (i : Z) (l : list A) : list (Z * A) :=
  match l with
  | [] => []
  | x :: tl => (i, x) :: indexedFrom (i + 1) tl
  end.

Definition sideRights (color0 : PieceColor) (castlingRights : CastlingRights)
  : SideRights :=
  match color0 with
  | White => mkSideRights (whiteKingSide castlingRights) (whiteQueenSide castlingRights)
  | Black => mkSideRights (blackKingSide castlingRights) (blackQueenSide castlingRights)
  end.

(** The moves [getValidMovesForColor] pushes for the piece on one square. *)
Definition movesOfPiece (board : Board) (color0 : PieceColor)
  (castlingRights : option CastlingRights) (from : Position) (piece0 : Piece)
  : list Move :=
  let possibleMoves := getValidMoves board from piece0 in
  let legalMoves :=
    filter (fun to => negb (wouldMoveResultInCheck board from to (color piece0)))
           possibleMoves in
  map (fun to => mkMove from to piece0 (cell board (row to) (col to)) None false false)
      legalMoves ++
  match type piece0, castlingRights with
  | King, Some rights =>
      let inCheck := isKingInCheck board color0 in
      map (fun to => mkMove from to piece0 None None true false)
          (getCastlingMoves board from color0 (sideRights color0 rights) inCheck)
  | _, _ => []
  end.

Definition getValidMovesForColor (board : Board) (color0 : PieceColor)
  (castlingRights : option CastlingRights) (lastMove : option Move) : list Move :=
  flat_map (fun '(r, line) =>
      flat_map (fun '(c, sq) =>
          match sq with
          | Some piece0 =>
              if PieceColor_eqb (color piece0) color0
              then movesOfPiece board color0 castlingRights (mkPos r c) piece0
              else []
          | None => []
          end)
        (indexedFrom 0 line))
    (indexedFrom 0 board).

Definition applyMove (board : Board) (move : Move) : Board :=
  match cell board (row (from move)) (col (from move)) with
  | None => board
  | Some piece0 =>
      let newBoard := setCell board (row (to move)) (col (to move)) (Some piece0) in
      let newBoard := setCell newBoard (row (from move)) (col (from move)) None in
      let newBoard :=
        if isCastling move && PieceType_eqb (type piece0) King then
          if col (to move) =? 5 then
            let rook := cell newBoard (row (from move)) 7 in
            let newBoard := setCell newBoard (row (from move)) 4 rook in
            setCell newBoard (row (from move)) 7 None
          else if col (to move) =? 1 then
            let rook := cell newBoard (row (from move)) 0 in
            let newBoard := setCell newBoard (row (from move)) 2 rook in
            setCell newBoard (row (from move)) 0 None
          else newBoard
        else newBoard in
      let newBoard :=
        if isEnPassant move && PieceType_eqb (type piece0) Pawn
        then setCell newBoard (row (from move)) (col (to move)) None
        else newBoard in
      if PieceType_eqb (type piece0) Pawn then
        let promotionRow := match color piece0 with White => 7 | Black => 0 end in
        if row (to move) =? promotionRow
        then setCell newBoard (row (to move)) (col (to move))
                     (Some (mkPiece Queen (color piece0)))
        else newBoard
      else newBoard
  end.

Definition updateCastlingRights (rights : option CastlingRights) (move : Move)
  (board : Board) : option CastlingRights :=
  match rights with
  | None => None
  | Some rights0 =>
      match cell board (row (from move)) (col (from move)) with
      | None => Some rights0
      | Some piece0 =>
          let newRights :=
            if PieceType_eqb (type piece0) King then
              match color piece0 with
              | White => mkRights false false (blackKingSide rights0) (blackQueenSide rights0)
              | Black => mkRights (whiteKingSide rights0) (whiteQueenSide rights0) false false
              end
            else rights0 in
          let newRights :=
            if PieceType_eqb (type piece0) Rook then
              match color piece0 with
              | White =>
                  if row (from move) =? 0 then
                    let r1 := if col (from move) =? 0
                              then mkRights (whiteKingSide newRights) false
                                     (blackKingSide newRights) (blackQueenSide newRights)
                              else newRights in
                    if col (from move) =? 7
                    then mkRights false (whiteQueenSide r1)
                           (blackKingSide r1) (blackQueenSide r1)
                    else r1
                  else newRights
              | Black =>
                  if row (from move) =? 7 then
                    let r1 := if col (from move) =? 0
                              then mkRights (whiteKingSide newRights) (whiteQueenSide newRights)
                                     (blackKingSide newRights) false
                              else newRights in
                    if col (from move) =? 7
                    then mkRights (whiteKingSide r1) (whiteQueenSide r1)
                           false (blackQueenSide r1)
                    else r1
                  else newRights
              end
            else newRights in
          Some newRights
      end
  end.

Definition fullRights : CastlingRights := mkRights true true true true.


(** ** Numbers

    Scores are JavaScript numbers.  The engine starts its windows at
    [-Infinity] and [Infinity] and otherwise adds, negates and compares
    integers, so a score is an integer or one of the two infinities. *)
Inductive Num : Set := NegInf | Fin (z : Z) | PosInf.

Definition Num_neg (x : Num) : Num :=
  match x with NegInf => PosInf | Fin z => Fin (- z) | PosInf => NegInf end.

Definition Num_plus (x : Num) (d : Z) : Num :=
  match x with Fin z => Fin (z + d) | _ => x end.

(** [sign * x] for a sign [1] or [-1]. *)
Definition Num_times (sign : Z) (x : Num) : Num :=
  match x with
  | Fin z => Fin (sign * z)
  | _ => if sign <? 0 then Num_neg x else x
  end.

Definition Num_ltb (x y : Num) : bool :=
  match x, y with
  | NegInf, NegInf => false
  | NegInf, _ => true
  | Fin _, NegInf => false
  | Fin a, Fin b => a <? b
  | Fin _, PosInf => true
  | PosInf, _ => false
  end.

(** [x <= y], also written [y >= x] in the source. *)
Definition Num_leb (x y : Num) : bool := negb (Num_ltb y x).

Definition Num_max (x y : Num) : Num := if Num_ltb x y then y else x.
Definition Num_min (x y : Num) : Num := if Num_ltb y x then y else x.

Definition Num_abs (x : Num) : Num :=
  match x with NegInf => PosInf | Fin z => Fin (Z.abs z) | PosInf => PosInf end.

(** ** Position keys: [hashPosition] is [JSON.stringify] of
    [{b: board, s: sideToMove, c: castlingRights}] *)

Definition dquote : string := String (ascii_of_nat 34) EmptyString.

Definition jsonString (s : string) : string := (dquote ++ s ++ dquote)%string.

Definition typeName (t : PieceType) : string :=
  match t with
  | Pawn => "p" | Knight => "n" | Bishop => "b"
  | Rook => "r" | Queen => "q" | King => "k"
  end.

Definition colorName (c : PieceColor) : string :=
  match c with White => "white" | Black => "black" end.

Definition jsonBool (x : bool) : string := if x then "true" else "false".

Definition jsonPiece (pc : Piece) : string :=
  ("{" ++ jsonString "type" ++ ":" ++ jsonString (typeName (type pc)) ++ ","
       ++ jsonString "color" ++ ":" ++ jsonString (colorName (color pc)) ++ "}")%string.

Definition jsonSquare (sq : option Piece) : string :=
  match sq with None => "null" | Some pc => jsonPiece pc end.

Fixpoint jsonJoin (items : list string) : string :=
  match items with
  | [] => EmptyString
  | [x] => x
  | x :: tl => (x ++ "," ++ jsonJoin tl)%string
  end.

Definition jsonArray (items : list string) : string :=
  ("[" ++ jsonJoin items ++ "]")%string.

Definition jsonBoard (board : Board) : string :=
  jsonArray (map (fun line => jsonArray (map jsonSquare line)) board).

Definition jsonRights (c : CastlingRights) : string :=
  ("{" ++ jsonString "whiteKingSide" ++ ":" ++ jsonBool (whiteKingSide c) ++ ","
       ++ jsonString "whiteQueenSide" ++ ":" ++ jsonBool (whiteQueenSide c) ++ ","
       ++ jsonString "blackKingSide" ++ ":" ++ jsonBool (blackKingSide c) ++ ","
       ++ jsonString "blackQueenSide" ++ ":" ++ jsonBool (blackQueenSide c) ++ "}")%string.

(** A property whose value is [undefined] is left out by [JSON.stringify]. *)
Definition hashPosition (board : Board) (sideToMove : PieceColor)
  (castlingRights : option CastlingRights) : string :=
  ("{" ++ jsonString "b" ++ ":" ++ jsonBoard board ++ ","
       ++ jsonString "s" ++ ":" ++ jsonString (colorName sideToMove)
       ++ match castlingRights with
          | None => EmptyString
          | Some c => "," ++ jsonString "c" ++ ":" ++ jsonRights c
          end
       ++ "}")%string.

(** ** Repetition detection *)

Fixpoint isThirdRepetitionFrom (count : Z) (key : string) (history : list string)
  : bool :=
  match history with
  | [] => false
  | h :: rest =>
      if String.eqb h key then
        if count + 1 >=? 2 then true
        else isThirdRepetitionFrom (count + 1) key rest
      else isThirdRepetitionFrom count key rest
  end.

Definition isThirdRepetition (key : string) (history : list string) : bool :=
  isThirdRepetitionFrom 0 key history.

(** ** Transposition table, killer moves and history table

    These are module-level variables of the engine: they live on between two
    calls of [myMinimaxMove]. *)

Definition PIECE_VALUES (t : PieceType) : Z :=
  match t with
  | Pawn => 100 | Knight => 320 | Bishop => 330
  | Rook => 500 | Queen => 900 | King => 20000
  end.

Inductive TTFlag : Set := exact | flagAlpha | flagBeta.

Record TTEntry : Set := mkTTEntry {
  entryDepth : Z;
  score : Num;
  flag : TTFlag;
  bestMove : option Move;
  age : Z
}.

Definition MAX_TT_SIZE : Z := 1000000.

(** A [Map<string, TTEntry>] keeps its keys in insertion order, which the
    eviction loop of [storeTT] walks through. *)
Definition TT : Set := list (string * TTEntry).

Fixpoint ttGet (hash : string) (table : TT) : option TTEntry :=
  match table with
  | [] => None
  | (key, entry) :: rest => if String.eqb key hash then Some entry else ttGet hash rest
  end.

Fixpoint ttSet (hash : string) (entry : TTEntry) (table : TT) : TT :=
  match table with
  | [] => [(hash, entry)]
  | (key, old) :: rest =>
      if String.eqb key hash then (key, entry) :: rest
      else (key, old) :: ttSet hash entry rest
  end.

(** The eviction of [storeTT]: the keys of stale entries are collected in
    table order until more than [MAX_TT_SIZE / 10] of them are found, and are
    deleted after the loop.  Keys are unique, so deleting the collected keys
    is dropping the entries that were collected. *)
Fixpoint ttEvict (collected : Z) (currentAge0 : Z) (table : TT) : TT :=
  match table with
  | [] => []
  | (key, entry) :: rest =>
      let stale := age entry <? currentAge0 - 2 in
      let collected' := if stale then collected + 1 else collected in
      let rest' := if collected' >? MAX_TT_SIZE / 10 then rest
                   else ttEvict collected' currentAge0 rest in
      if stale then rest' else (key, entry) :: rest'
  end.

Record Tables : Set := mkTables {
  transpositionTable : TT;
  currentAge : Z;
  killerMoves : list (list Move);
  historyTable : list (list (list (list Z)))
}.

Definition initialTables : Tables :=
  mkTables [] 0 (repeat [] 100) (repeat (repeat (repeat (repeat 0 8) 8) 8) 8).

Definition sameSquares (a b : Move) : bool :=
  (row (from a) =? row (from b)) && (col (from a) =? col (from b)) &&
  (row (to a) =? row (to b)) && (col (to a) =? col (to b)).

Definition storeTT (hash : string) (depth : Z) (score0 : Num) (flag0 : TTFlag)
  (bestMove0 : option Move) (t : Tables) : Tables :=
  let table := transpositionTable t in
  let table :=
    if Z.of_nat (length table) >=? MAX_TT_SIZE
    then ttEvict 0 (currentAge t) table else table in
  mkTables (ttSet hash (mkTTEntry depth score0 flag0 bestMove0 (currentAge t)) table)
           (currentAge t) (killerMoves t) (historyTable t).

Definition clearKillers (t : Tables) : Tables :=
  mkTables (transpositionTable t) (currentAge t)
           (map (fun _ => []) (killerMoves t)) (historyTable t).

Definition isSome {A : Type} (x : option A) : bool :=
  match x with Some _ => true | None => false end.

Definition storeKiller (move : Move) (ply : Z) (t : Tables) : Tables :=
  if ply >=? Z.of_nat (length (killerMoves t)) then t
  else if isSome (captured move) then t
  else
    let killers := nth (Z.to_nat ply) (killerMoves t) [] in
    if existsb (fun k0 => sameSquares k0 move) killers then t
    else
      let killers := move :: killers in
      let killers := if (2 <? length killers)%nat then removelast killers else killers in
      mkTables (transpositionTable t) (currentAge t)
               (setNth (Z.to_nat ply) killers (killerMoves t)) (historyTable t).

Definition historyGet (h : list (list (list (list Z)))) (move : Move) : Z :=
  nth (Z.to_nat (col (to move)))
    (nth (Z.to_nat (row (to move)))
       (nth (Z.to_nat (col (from move)))
          (nth (Z.to_nat (row (from move))) h []) []) []) 0.

Definition historyAdd (h : list (list (list (list Z)))) (move : Move) (bonus : Z)
  : list (list (list (list Z))) :=
  let a := Z.to_nat (row (from move)) in
  let b := Z.to_nat (col (from move)) in
  let c := Z.to_nat (row (to move)) in
  let d := Z.to_nat (col (to move)) in
  let ha := nth a h [] in
  let hb := nth b ha [] in
  let hc := nth c hb [] in
  setNth a (setNth b (setNth c (setNth d (nth d hc 0 + bonus) hc) hb) ha) h.

Definition updateHistory (move : Move) (depth : Z) (t : Tables) : Tables :=
  let bonus := depth * depth in
  mkTables (transpositionTable t) (currentAge t) (killerMoves t)
           (historyAdd (historyTable t) move bonus).

(** ** Move ordering *)

Fixpoint findIndexFrom {A : Type} (i : Z) (f : A -> bool) (l : list A) : Z :=
  match l with
  | [] => -1
  | x :: rest => if f x then i else findIndexFrom (i + 1) f rest
  end.

Definition scoreMove (t : Tables) (move : Move) (ply : Z) (ttBestMove : option Move)
  : Z :=
  if match ttBestMove with Some best => sameSquares best move | None => false end
  then 1000000
  else
    match captured move with
    | Some victim =>
        100000 + (PIECE_VALUES (type victim) * 10 - PIECE_VALUES (type (piece move)))
    | None =>
        match promotion move with
        | Some promo => 90000 + PIECE_VALUES promo
        | None =>
            let idx :=
              if ply <? Z.of_nat (length (killerMoves t))
              then findIndexFrom 0 (fun k0 => sameSquares k0 move)
                     (nth (Z.to_nat ply) (killerMoves t) [])
              else -1 in
            if idx =? 0 then 80000
            else if idx =? 1 then 70000
            else historyGet (historyTable t) move
        end
    end.

(** [Array.prototype.sort] is stable; with the comparator
    [(a, b) => score(b) - score(a)] it sorts by falling score and keeps the
    order of moves of equal score. *)
Fixpoint insertByScore {A : Type} (score0 : A -> Z) (x : A) (l : list A) : list A :=
  match l with
  | [] => [x]
  | y :: rest =>
      if score0 y <=? score0 x then x :: l else y :: insertByScore score0 x rest
  end.

Definition sortByScore {A : Type} (score0 : A -> Z) (l : list A) : list A :=
  fold_right (insertByScore score0) [] l.

Definition orderMoves (t : Tables) (moves : list Move) (ply : Z)
  (ttBestMove : option Move) : list Move :=
  sortByScore (fun m => scoreMove t m ply ttBestMove) moves.

(** ** The search state and its monad

    Besides the tables, one call of [myMinimaxMove] owns the local variables
    [timeExpired] and [bestMoveAtRoot].  [clockReads] counts how often
    [Date.now()] has been compared with the budget.  A computation may run out
    of recursion fuel, which is [None]. *)
Record SearchState : Set := mkState {
  tables : Tables;
  timeExpired : bool;
  clockReads : nat;
  bestMoveAtRoot : option Move
}.

Definition M (A : Type) : Type := SearchState -> option (A * SearchState).

Definition ret {A : Type} (a : A) : M A := fun s => Some (a, s).

Definition bind {A B : Type} (m : M A) (f : A -> M B) : M B :=
  fun s => match m s with Some (a, s') => f a s' | None => None end.

Definition outOfFuel {A : Type} : M A := fun _ => None.

Definition gets {A : Type} (f : SearchState -> A) : M A := fun s => Some (f s, s).

Definition modifyTables (f : Tables -> Tables) : M unit :=
  fun s => Some (tt, mkState (f (tables s)) (timeExpired s) (clockReads s)
                             (bestMoveAtRoot s)).

Definition setBestMoveAtRoot (m : option Move) : M unit :=
  fun s => Some (tt, mkState (tables s) (timeExpired s) (clockReads s) m).

Notation "x <- m ;; f" := (bind m (fun x => f))
  (at level 61, m at next level, right associativity).
Notation "m ;;; f" := (bind m (fun _ => f))
  (at level 61, right associativity).

(** The three ways a round of a [for] loop ends: go on with the next element,
    [break], or [return] from the enclosing function. *)
Inductive Step (L R : Type) : Type :=
| Continue (l : L)
| Break (l : L)
| Return (r : R).
Arguments Continue {L R} l.
Arguments Break {L R} l.
Arguments Return {L R} r.

(** [for (const x of xs) body]: the loop variables are [l]; the result is the
    loop variables at the loop's end, or the value returned from inside. *)
Fixpoint forEach {X L R : Type} (body : X -> L -> M (Step L R)) (xs : list X) (l : L)
  : M (L + R) :=
  match xs with
  | [] => ret (inl l)
  | x :: rest =>
      step <- body x l ;;
      match step with
      | Continue l' => forEach body rest l'
      | Break l' => ret (inl l')
      | Return r0 => ret (inr r0)
      end
  end.

(** ** The search engine: [myMinimaxMove] and its inner functions *)

Section Search.

(** The evaluation strategy.  Its scores are integers or, as the terminal
    scores of [simpleEvaluate], infinite; fractional scores are left out. *)
Variable evaluate : Board -> PieceColor -> Num.

(** [budget] is [None] when [maxTime] is [undefined]; otherwise [budget n]
    tells whether the [n]-th comparison [Date.now() - startTime > maxTime] of
    this call holds. *)
Variable budget : option (nat -> bool).

Variable rootColor : PieceColor.

Definition isTimeExpired : M bool :=
  fun s =>
    if timeExpired s then Some (true, s)
    else
      match budget with
      | None => Some (false, s)
      | Some over =>
          if over (clockReads s)
          then Some (true, mkState (tables s) true (S (clockReads s)) (bestMoveAtRoot s))
          else Some (false, mkState (tables s) false (S (clockReads s)) (bestMoveAtRoot s))
      end.

Definition captureScore (m : Move) : Z :=
  match captured m with
  | Some victim => PIECE_VALUES (type victim) * 10 - PIECE_VALUES (type (piece m))
  | None => 0
  end.

Definition signOf (sideToMove : PieceColor) : Z :=
  if PieceColor_eqb sideToMove rootColor then 1 else -1.

(** One round of the capture loop of [quiescence]; [search] is the recursive
    call. *)
Definition quiescenceRound
  (search : Board -> PieceColor -> Num -> Num -> option CastlingRights -> M Num)
  (board : Board) (sideToMove : PieceColor) (beta : Num)
  (currentCastlingRights : option CastlingRights)
  (move : Move) (alpha : Num) : M (Step Num Num) :=
  expired <- isTimeExpired ;;
  if expired then ret (Break alpha)
  else
    let newBoard := applyMove board move in
    let newRights := updateCastlingRights currentCastlingRights move board in
    v <- search newBoard (opposite sideToMove) (Num_neg beta) (Num_neg alpha) newRights ;;
    let score0 := Num_neg v in
    if Num_leb beta score0 then ret (Return beta)
    else ret (Continue (if Num_ltb alpha score0 then score0 else alpha)).

Fixpoint quiescence (fuel : nat) (board : Board) (sideToMove : PieceColor)
  (alpha beta : Num) (currentCastlingRights : option CastlingRights) : M Num :=
  match fuel with
  | O => outOfFuel
  | S fuel' =>
      expired <- isTimeExpired ;;
      if expired then ret (Fin 0)
      else
        let standPatRoot := evaluate board rootColor in
        let standPat := Num_times (signOf sideToMove) standPatRoot in
        if Num_leb beta standPat then ret beta
        else
          let alpha := if Num_ltb alpha standPat then standPat else alpha in
          let moves := getValidMovesForColor board sideToMove currentCastlingRights None in
          let captures := filter (fun m => isSome (captured m)) moves in
          let captures := sortByScore captureScore captures in
          r <- forEach (quiescenceRound (quiescence fuel') board sideToMove beta
                          currentCastlingRights)
                       captures alpha ;;
          match r with
          | inl alpha' => ret alpha'
          | inr v => ret v
          end
  end.

(** The score given to a move that repeats a position for the third time. *)
Definition repetitionScore (newBoard : Board) (sideToMove : PieceColor) : Num :=
  let evalFromRoot := evaluate newBoard rootColor in
  let evalFromSide := Num_times (signOf sideToMove) evalFromRoot in
  if Num_ltb (Fin 200) evalFromSide then Fin (-150)
  else if Num_ltb evalFromSide (Fin (-200)) then Fin 150
  else Fin 0.

Definition mateValue : Z := 100000.

(** The transposition probe of [negamax]. *)
Definition ttCutoff (ttEntry : option TTEntry) (depth : Z) (alpha beta : Num)
  : option Num :=
  match ttEntry with
  | Some e =>
      if entryDepth e >=? depth then
        match flag e with
        | exact => Some (score e)
        | flagAlpha => if Num_leb (score e) alpha then Some (score e) else None
        | flagBeta => if Num_leb beta (score e) then Some (score e) else None
        end
      else None
  | None => None
  end.

(** The loop variables of the move loop of [negamax]. *)
Record NodeVars : Set := mkNodeVars {
  nodeBestScore : Num;
  nodeBestMove : option Move;
  movesSearched : Z;
  nodeAlpha : Num
}.

Definition negamaxRound
  (search : Board -> PieceColor -> Z -> Num -> Num -> option CastlingRights ->
            Z -> bool -> list string -> M Num)
  (board : Board) (sideToMove : PieceColor) (depth : Z) (beta : Num)
  (currentCastlingRights : option CastlingRights) (ply : Z) (inCheck : bool)
  (history : list string) (move : Move) (vars : NodeVars) : M (Step NodeVars Num) :=
  expired <- isTimeExpired ;;
  if expired then ret (Break vars)
  else
    let alpha := nodeAlpha vars in
    let nextColor := opposite sideToMove in
    let newBoard := applyMove board move in
    let newRights := updateCastlingRights currentCastlingRights move board in
    let newHash := hashPosition newBoard nextColor newRights in
    score0 <-
      (if isThirdRepetition newHash history
       then ret (repetitionScore newBoard sideToMove)
       else
         let newHistory := history ++ [newHash] in
         let isLateMove :=
           (movesSearched vars >=? 4) && (depth >=? 3) && negb inCheck &&
           negb (isSome (captured move)) && negb (isSome (promotion move)) in
         let reduction := if isLateMove then 1 else 0 in
         if movesSearched vars =? 0 then
           v <- search newBoard nextColor (depth - 1) (Num_neg beta) (Num_neg alpha)
                       newRights (ply + 1) true newHistory ;;
           ret (Num_neg v)
         else
           v <- search newBoard nextColor (depth - 1 - reduction) (Num_neg beta)
                       (Num_neg alpha) newRights (ply + 1) true newHistory ;;
           if (reduction >? 0) && Num_ltb alpha (Num_neg v) then
             w <- search newBoard nextColor (depth - 1) (Num_neg beta) (Num_neg alpha)
                         newRights (ply + 1) true newHistory ;;
             ret (Num_neg w)
           else ret (Num_neg v)) ;;
    let searched := movesSearched vars + 1 in
    let improved := Num_ltb (nodeBestScore vars) score0 in
    let bestScore := if improved then score0 else nodeBestScore vars in
    let bestMoveLocal := if improved then Some move else nodeBestMove vars in
    let raised := Num_ltb alpha bestScore in
    let alpha' := if raised then bestScore else alpha in
    (if raised && negb (isSome (captured move))
     then modifyTables (fun t => updateHistory move depth (storeKiller move ply t))
     else ret tt) ;;;
    let vars' := mkNodeVars bestScore bestMoveLocal searched alpha' in
    if Num_leb beta alpha' then ret (Break vars') else ret (Continue vars').

Fixpoint negamax (fuel : nat) (board : Board) (sideToMove : PieceColor) (depth : Z)
  (alpha beta : Num) (currentCastlingRights : option CastlingRights) (ply : Z)
  (allowNull : bool) (history : list string) : M Num :=
  match fuel with
  | O => outOfFuel
  | S fuel' =>
      expired <- isTimeExpired ;;
      if expired then ret (Fin 0)
      else
        let hash := hashPosition board sideToMove currentCastlingRights in
        let alphaOrig := alpha in
        ttEntry <- gets (fun s => ttGet hash (transpositionTable (tables s))) ;;
        let alpha := Num_max alpha (Fin (- mateValue + ply)) in
        let beta := Num_min beta (Fin (mateValue - ply - 1)) in
        if Num_leb beta alpha then ret alpha
        else
          match ttCutoff ttEntry depth alpha beta with
          | Some stored => ret stored
          | None =>
              if depth <=? 0
              then quiescence fuel' board sideToMove alpha beta currentCastlingRights
              else
                let moves :=
                  getValidMovesForColor board sideToMove currentCastlingRights None in
                let inCheck := isKingInCheck board sideToMove in
                match moves with
                | [] => ret (if inCheck then Fin (- mateValue + ply) else Fin 0)
                | _ :: _ =>
                    nullCut <-
                      (if allowNull && negb inCheck && (depth >=? 3) then
                         v <- negamax fuel' board (opposite sideToMove) (depth - 1 - 2)
                                (Num_neg beta) (Num_plus (Num_neg beta) 1)
                                currentCastlingRights (ply + 1) false history ;;
                         ret (Num_leb beta (Num_neg v))
                       else ret false) ;;
                    if nullCut then ret beta
                    else
                      ordered <- gets (fun s =>
                        orderMoves (tables s) moves ply
                          (match ttEntry with Some e => bestMove e | None => None end)) ;;
                      r <- forEach (negamaxRound (negamax fuel') board sideToMove depth
                                      beta currentCastlingRights ply inCheck history)
                                   ordered (mkNodeVars NegInf None 0 alpha) ;;
                      match r with
                      | inr v => ret v
                      | inl vars =>
                          let bestScore := nodeBestScore vars in
                          expired' <- isTimeExpired ;;
                          (if expired' then ret tt
                           else
                             let flag0 :=
                               if Num_leb bestScore alphaOrig then flagAlpha
                               else if Num_leb beta bestScore then flagBeta
                               else exact in
                             modifyTables
                               (storeTT hash depth bestScore flag0 (nodeBestMove vars))) ;;;
                          ret bestScore
                      end
                end
          end
  end.

(** The loop variables of the move loop of [searchRoot]; [bestMoveAtRoot] is
    in the search state. *)
Record RootVars : Set := mkRootVars { rootBestScore : Num; rootAlpha : Num }.

Definition searchRootRound (fuel : nat) (board : Board) (color0 : PieceColor)
  (castlingRights : option CastlingRights) (depth : Z) (beta : Num)
  (history : list string) (move : Move) (vars : RootVars) : M (Step RootVars unit) :=
  expired <- isTimeExpired ;;
  if expired then ret (Break vars)
  else
    let alpha := rootAlpha vars in
    let nextColor := opposite color0 in
    let newBoard := applyMove board move in
    let newRights := updateCastlingRights castlingRights move board in
    let newHash := hashPosition newBoard nextColor newRights in
    score0 <-
      (if isThirdRepetition newHash history
       then ret (repetitionScore newBoard color0)
       else
         let newHistory := history ++ [newHash] in
         v <- negamax fuel newBoard nextColor (depth - 1) (Num_neg beta) (Num_neg alpha)
                      newRights 1 true newHistory ;;
         let score1 := Num_neg v in
         if (Num_leb score1 alpha || Num_leb beta score1) && (depth >? 3) then
           w <- negamax fuel newBoard nextColor (depth - 1) NegInf PosInf
                        newRights 1 true newHistory ;;
           ret (Num_neg w)
         else ret score1) ;;
    let improved := Num_ltb (rootBestScore vars) score0 in
    let bestScore := if improved then score0 else rootBestScore vars in
    (if improved then setBestMoveAtRoot (Some move) else ret tt) ;;;
    let alpha' := if Num_ltb alpha bestScore then bestScore else alpha in
    let vars' := mkRootVars bestScore alpha' in
    if Num_leb beta alpha' then ret (Break vars') else ret (Continue vars').

Definition searchRoot (fuel : nat) (board : Board) (color0 : PieceColor)
  (castlingRights : option CastlingRights) (depth : Z) (history : list string)
  : M (option Move) :=
  expired <- isTimeExpired ;;
  if expired then gets bestMoveAtRoot
  else
    let moves := getValidMovesForColor board color0 castlingRights None in
    match moves with
    | [] => ret None
    | _ :: _ =>
        ttRoot <- gets (fun s =>
          ttGet (hashPosition board color0 castlingRights)
                (transpositionTable (tables s))) ;;
        ordered <- gets (fun s =>
          orderMoves (tables s) moves 0
            (match ttRoot with Some e => bestMove e | None => None end)) ;;
        best <- gets bestMoveAtRoot ;;
        let aspiration := (depth >? 3) && isSome best in
        let previousScore := evaluate board rootColor in
        let alpha := if aspiration then Num_plus previousScore (-50) else NegInf in
        let beta := if aspiration then Num_plus previousScore 50 else PosInf in
        forEach (searchRootRound fuel board color0 castlingRights depth beta history)
                ordered (mkRootVars NegInf alpha) ;;;
        gets bestMoveAtRoot
    end.

(** The iterative-deepening loop of [myMinimaxMove], from [currentDepth]
    on, with [remaining] rounds to go. *)
Fixpoint deepen (fuel : nat) (board : Board) (color0 : PieceColor)
  (castlingRights : option CastlingRights) (baseHistory : list string)
  (remaining : nat) (currentDepth : Z) : M unit :=
  match remaining with
  | O => ret tt
  | S remaining' =>
      expired <- isTimeExpired ;;
      if expired then ret tt
      else
        previousBest <- gets bestMoveAtRoot ;;
        searchRoot fuel board color0 castlingRights currentDepth baseHistory ;;;
        expired' <- isTimeExpired ;;
        if expired' && (currentDepth >? 1) then setBestMoveAtRoot previousBest
        else
          best <- gets bestMoveAtRoot ;;
          entry <- gets (fun s =>
            ttGet (hashPosition board color0 castlingRights)
                  (transpositionTable (tables s))) ;;
          let mateFound :=
            isSome best &&
            match entry with
            | Some e => Num_ltb (Fin 99000) (Num_abs (score e))
            | None => false
            end in
          if mateFound then ret tt
          else deepen fuel board color0 castlingRights baseHistory remaining'
                      (currentDepth + 1)
  end.

End Search.

(** [myMinimaxMove] works on the module-level tables [t] and gives back the
    chosen move and the tables it leaves behind.  [rootColor] is [color]. *)
Definition myMinimaxMove (fuel : nat) (t : Tables) (board : Board)
  (color0 : PieceColor) (depth : Z) (evaluate : Board -> PieceColor -> Num)
  (budget : option (nat -> bool)) (castlingRights : option CastlingRights)
  (positionHistory : option (list string)) : option (option Move * Tables) :=
  let t := mkTables (transpositionTable t) (currentAge t + 1) (killerMoves t)
                    (historyTable t) in
  let t := clearKillers t in
  let baseHistory :=
    match positionHistory with Some h => h | None => [] end ++
    [hashPosition board color0 castlingRights] in
  let allMoves := getValidMovesForColor board color0 castlingRights None in
  let start := mkState t false O (hd_error allMoves) in
  let depth := if depth =? 0 then 1000 else depth in
  match deepen evaluate budget color0 fuel board color0 castlingRights baseHistory
               (Z.to_nat depth) 1 start with
  | Some (_, s) => Some (bestMoveAtRoot s, tables s)
  | None => None
  end.

(** ** Positions used in the examples *)

Definition emptyBoard : Board := repeat (repeat None 8) 8.

Definition place (board : Board) (r c : Z) (t : PieceType) (cl : PieceColor) : Board :=
  setCell board r c (Some (mkPiece t cl)).

(** The castling move towards column 7, as the generator builds it. *)
Definition castleKingSide (c : PieceColor) : Move :=
  let r := match c with White => 0 | Black => 7 end in
  mkMove (mkPos r 3) (mkPos r 5) (mkPiece King c) None None true false.

(** The two-square advance of the black pawn from (6,4). *)
Definition doubleAdvance : Move :=
  mkMove (mkPos 6 4) (mkPos 4 4) (mkPiece Pawn Black) None None false false.

(** Replaying a game from a position: every step, given by its squares, has
    to be one of the moves the generator returns for the side to move; the
    result is the position reached and the rights that are left. *)
Fixpoint replay (board : Board) (side : PieceColor)
  (rights : option CastlingRights) (steps : list (Position * Position))
  : option (Board * option CastlingRights) :=
  match steps with
  | [] => Some (board, rights)
  | (a, b) :: rest =>
      match find (fun m => isPositionEqual (from m) a && isPositionEqual (to m) b)
                 (getValidMovesForColor board side rights None) with
      | Some m =>
          replay (applyMove board m) (opposite side)
                 (updateCastlingRights rights m board) rest
      | None => None
      end
  end.

(** From the initial position white brings out queen and bishop, the knight
    stays on (0,6); meanwhile the black pawn of column 7 walks down to
    (2,7). *)
Definition developingGame : list (Position * Position) :=
  [(mkPos 1 4, mkPos 3 4); (mkPos 6 7, mkPos 4 7);
   (mkPos 0 4, mkPos 2 4); (mkPos 4 7, mkPos 3 7);
   (mkPos 0 5, mkPos 1 4); (mkPos 3 7, mkPos 2 7)].

(** The same game, then a white pawn move, and the black pawn takes on
    (1,6). *)
Definition pawnRaidGame : list (Position * Position) :=
  developingGame ++ [(mkPos 1 0, mkPos 2 0); (mkPos 2 7, mkPos 1 6)].

(** From the initial position a white pawn goes to (4,3); then the black
    pawn of the next column advances two squares, to (4,4). *)
Definition doubleAdvanceGame : list (Position * Position) :=
  [(mkPos 1 3, mkPos 3 3); (mkPos 6 0, mkPos 5 0);
   (mkPos 3 3, mkPos 4 3); (mkPos 6 4, mkPos 4 4)].

(** The board with nothing but the black king. *)
Definition loneBlackKing : Board := place emptyBoard 7 3 King Black.

(** A white pawn and the two kings. *)
Definition pawnEnding : Board :=
  place (place (place emptyBoard 1 0 Pawn White) 1 7 King White) 7 3 King Black.

(** Material balance in centipawns, from the side of [c]: a noise-free
    evaluation strategy. *)
Definition material (board : Board) (c : PieceColor) : Num :=
  Fin (fold_right Z.add 0
         (map (fun sq =>
                 match sq with
                 | None => 0
                 | Some pc =>
                     if PieceColor_eqb (color pc) c
                     then PIECE_VALUES (type pc) else - PIECE_VALUES (type pc)
                 end)
              (concat board))).

(** ** Measures and specifications used in the proofs *)

Definition occ (sq : option Piece) : nat := if isSome sq then 1 else 0.

Definition rowCount (line : list (option Piece)) : nat :=
  fold_right (fun sq acc => (occ sq + acc)%nat) 0%nat line.

(** The number of pieces on the board. *)
Definition countPieces (board : Board) : nat :=
  fold_right (fun line acc => (rowCount line + acc)%nat) 0%nat board.

(** The number of squares of the board. *)
Definition cells (board : Board) : nat :=
  fold_right (fun line acc => (length line + acc)%nat) 0%nat board.

(** The fuel that a search of [depth] plies on [board] never uses up: one
    unit per ply, one per capture of the quiescence search, and two to
    spare. *)
Definition fuelFor (depth : Z) (board : Board) : nat :=
  (Z.to_nat depth + cells board + 2)%nat.

(** The fuel that [myMinimaxMove] never uses up; [depth = 0] stands for 1000
    plies. *)
Definition enoughFuel (board : Board) (depth : Z) : nat :=
  fuelFor (if depth =? 0 then 1000 else depth) board.

(** [total m s Q]: started in state [s], the computation [m] does not run out
    of fuel, and its result and final state satisfy [Q]. *)
Definition total {A : Type} (m : M A) (s : SearchState)
  (Q : A -> SearchState -> Prop) : Prop :=
  exists a s', m s = Some (a, s') /\ Q a s'.

(** [neverExpires budget]: there is no time limit, or none of the
    comparisons of the clock with the limit holds. *)
Definition neverExpires (budget : option (nat -> bool)) : Prop :=
  forall over, budget = Some over -> forall n, over n = false.

(** [frame budget s s']: what every part of the search below the root leaves
    alone on the way from [s] to [s']: the best move at the root (only
    [searchRoot] assigns it), and [timeExpired], which is never reset once it
    is set and stays [false] when the time never expires. *)
Definition frame (budget : option (nat -> bool)) (s s' : SearchState) : Prop :=
  bestMoveAtRoot s' = bestMoveAtRoot s /\
  (timeExpired s' = false -> timeExpired s = false) /\
  (neverExpires budget -> timeExpired s = false -> timeExpired s' = false).

(** [okBest legal best]: [best] is one of the legal moves, or there is no
    legal move and [best] is [null]. *)
Definition okBest (legal : list Move) (best : option Move) : Prop :=
  match best with
  | None => legal = []
  | Some m => In m legal
  end.

Definition rootInv (legal : list Move) (s : SearchState) : Prop :=
  okBest legal (bestMoveAtRoot s).

(** The standing-pat evaluation of [quiescence], from the side to move. *)
Definition standPatOf (evaluate : Board -> PieceColor -> Num) (rootColor : PieceColor)
  (board : Board) (sideToMove : PieceColor) : Num :=
  Num_times (signOf rootColor sideToMove) (evaluate board rootColor).

(** An encoding is self-delimiting when an encoded value can be read off the
    front of any text in one way only. *)
Definition selfDelimiting {A : Type} (enc : A -> string) : Prop :=
  forall (x y : A) (k1 k2 : string),
    (enc x ++ k1)%string = (enc y ++ k2)%string -> x = y /\ k1 = k2.

(** The first character of an encoding is never the closing bracket. *)
Definition opensValue {A : Type} (enc : A -> string) : Prop :=
  forall (x : A) (k1 k2 : string), ("]" ++ k1)%string <> (enc x ++ k2)%string.

(** The back rank of a side. *)
Definition homeRow (c : PieceColor) : Z := match c with White => 0 | Black => 7 end.

(** Two boards with pieces of the same colour on the same squares. *)
Definition sameColors (b1 b2 : Board) : Prop :=
  forall r c, option_map color (cell b1 r c) = option_map color (cell b2 r c).

(** The number of squares a ray still has before it, starting on
    [(row0, col0)] and going by [(rowDir, colDir)]. *)
Definition ahead (row0 col0 rowDir colDir : Z) : Z :=
  if rowDir =? 1 then 8 - row0
  else if rowDir =? -1 then row0 + 1
  else if colDir =? 1 then 8 - col0
  else col0 + 1.

(** ** Searches used in the examples *)

Definition startState : SearchState := mkState initialTables false 0 None.

(** A search of three plies on [pawnEnding] with fresh tables, and the same
    search again on the tables the first one leaves behind. *)
Definition firstSearch : option (option Move * Tables) :=
  myMinimaxMove 80 initialTables pawnEnding White 3 material None None None.

Definition secondSearch : option (option Move * Tables) :=
  match firstSearch with
  | Some (_, leftOver) =>
      myMinimaxMove 80 leftOver pawnEnding White 3 material None None None
  | None => None
  end.

(** Fresh tables, but for killer moves in every slot. *)
Definition staleKillers : Tables :=
  mkTables [] 0 (repeat [doubleAdvance] 100) (historyTable initialTables).

(** The transposition table that a search of four plies on [pawnEnding]
    leaves behind. *)
Definition leftOverTable : TT :=
  match myMinimaxMove 80 initialTables pawnEnding White 4 material None None None with
  | Some (_, leftOver) => transpositionTable leftOver
  | None => []
  end.

(** Tables that are fresh but for the transposition table. *)
Definition withTable (table : TT) : Tables :=
  mkTables table 1 (killerMoves initialTables) (historyTable initialTables).

(** ** Further functions of the repository *)

(** [hasAnyLegalMove] of evaluate.ts, which [checkForLegalMoves] of
    useChessGame.ts repeats word for word: is there a piece of the colour
    with a pseudo-legal move that passes the legality filter? *)
Definition hasAnyLegalMove (board : Board) (color0 : PieceColor) : bool :=
  existsb (fun '(r, line) =>
      existsb (fun '(c, sq) =>
          match sq with
          | Some piece0 =>
              PieceColor_eqb (color piece0) color0 &&
              match filter (fun to =>
                              negb (wouldMoveResultInCheck board (mkPos r c) to color0))
                           (getValidMoves board (mkPos r c) piece0) with
              | [] => false
              | _ :: _ => true
              end
          | None => false
          end)
        (indexedFrom 0 line))
    (indexedFrom 0 board).

(** The direction in which the pawns of a side walk, and the row they start
    on, as [getPawnMoves] has them. *)
Definition pawnDirection (c : PieceColor) : Z := match c with White => 1 | Black => -1 end.
Definition pawnStartRow (c : PieceColor) : Z := match c with White => 1 | Black => 6 end.

(** [free board pos c]: the square is empty or holds a piece of the other
    colour, which is what every generator asks of a target. *)
Definition freeFor (board : Board) (pos : Position) (c : PieceColor) : Prop :=
  forall t, cell board (row pos) (col pos) = Some t -> color t <> c.

(** The position after [developingGame]. *)
Definition developedPosition : Board * option CastlingRights :=
  match replay createInitialBoard White (Some fullRights) developingGame with
  | Some p => p
  | None => (createInitialBoard, None)
  end.

(** ** Invariants of the tables *)

(** A [Map] holds a key once. *)
Definition keysUnique (table : TT) : Prop := NoDup (map fst table).

(** A slot of [killerMoves] in order: at most two moves, none of them a
    capture, no two of them between the same squares. *)
Definition killerSlotOk (killers : list Move) : Prop :=
  (length killers <= 2)%nat /\
  Forall (fun k0 => captured k0 = None) killers /\
  ForallOrdPairs (fun a b => sameSquares a b = false) killers.

Definition killersOk (t : Tables) : Prop := Forall killerSlotOk (killerMoves t).

(** The history table as it is allocated: 8 x 8 x 8 x 8 counters. *)
Definition wfHistory (h : list (list (list (list Z)))) : Prop :=
  length h = 8%nat /\
  Forall (fun a => length a = 8%nat /\
    Forall (fun b => length b = 8%nat /\
      Forall (fun c => length c = 8%nat) b) a) h.

(** The tables in order, at age [age0] and with [slots] killer slots: the
    keys of the transposition table are unique, no entry is younger than the
    age or of a depth below 1, the killer slots and the history table have
    their shape. *)
Definition tablesInOrder (age0 : Z) (slots : nat) (t : Tables) : Prop :=
  currentAge t = age0 /\ length (killerMoves t) = slots /\
  keysUnique (transpositionTable t) /\
  Forall (fun ke => age (snd ke) <= age0 /\ 1 <= entryDepth (snd ke))
         (transpositionTable t) /\
  killersOk t /\ wfHistory (historyTable t).

(** [keepsTables J m]: whenever the computation [m] returns, it has kept the
    property [J] of the tables. *)
Definition keepsTables (J : Tables -> Prop) {A : Type} (m : M A) : Prop :=
  forall s a s', J (tables s) -> m s = Some (a, s') -> J (tables s').


(** [Number.MAX_SAFE_INTEGER]: up to it the sums and products of integers the
    source computes in floating point are exact, so that the integers of the
    model are the numbers of the source. *)
Definition MAX_SAFE_INTEGER : Z := 9007199254740991.

(** * Repetition tracker *)

Lemma isThirdRepetitionFrom_spec (key : string) (history : list string) :
  forall count, count < 2 ->
    isThirdRepetitionFrom count key history = true <->
    2 <= count + Z.of_nat (count_occ string_dec history key).
Proof.
  induction history as [|h rest IH]; intros count Hc; simpl.
  - split; [discriminate | lia].
  - destruct (String.eqb_spec h key) as [Heq | Hne].
    + destruct (string_dec h key) as [_ | Hn]; [| contradiction].
      destruct (count + 1 >=? 2) eqn:Hge.
      * apply Z.geb_le in Hge. split; [lia | reflexivity].
      * rewrite Z.geb_leb in Hge. apply Z.leb_gt in Hge.
        rewrite IH by lia. lia.
    + destruct (string_dec h key) as [He | _]; [contradiction |].
      apply IH; assumption.
Qed.

(** C6: [isThirdRepetition] answers [true] exactly when the candidate key
    already occurs at least twice in the history, so a position is reported
    when playing it would be its third occurrence and not before. *)
Theorem isThirdRepetition_iff_two_occurrences (key : string) (history : list string) :
  isThirdRepetition key history = true <->
  (2 <= count_occ string_dec history key)%nat.
Proof.
  unfold isThirdRepetition.
  rewrite isThirdRepetitionFrom_spec by lia. lia.
Qed.

(** * Position keys are exact *)

Section Keys.

Local Open Scope string_scope.

Lemma append_assoc_r (a b c : string) : (a ++ b) ++ c = a ++ (b ++ c).
Proof. induction a as [|x a IH]; simpl; [reflexivity | rewrite IH; reflexivity]. Qed.

Lemma append_cancel_l (p a b : string) : p ++ a = p ++ b -> a = b.
Proof.
  induction p as [|x p IH]; simpl; intros H; [exact H |].
  injection H as H. auto.
Qed.

Lemma typeName_selfDelimiting : selfDelimiting typeName.
Proof.
  intros x y k1 k2. destruct x, y; simpl; intros H;
    first [discriminate H | injection H as H; split; [reflexivity | exact H]].
Qed.

Lemma colorName_selfDelimiting : selfDelimiting colorName.
Proof.
  intros x y k1 k2. destruct x, y; simpl; intros H;
    first [discriminate H | injection H as H; split; [reflexivity | exact H]].
Qed.

Lemma jsonBool_selfDelimiting : selfDelimiting jsonBool.
Proof.
  intros x y k1 k2. destruct x, y; simpl; intros H;
    first [discriminate H | injection H as H; split; [reflexivity | exact H]].
Qed.

Lemma jsonPiece_selfDelimiting : selfDelimiting jsonPiece.
Proof.
  intros [t1 c1] [t2 c2] k1 k2. unfold jsonPiece, jsonString; simpl type; simpl color.
  repeat rewrite append_assoc_r. intros H.
  repeat (apply append_cancel_l in H).
  apply typeName_selfDelimiting in H. destruct H as [-> H].
  repeat (apply append_cancel_l in H).
  apply colorName_selfDelimiting in H. destruct H as [-> H].
  repeat (apply append_cancel_l in H).
  split; [reflexivity | exact H].
Qed.

Lemma jsonSquare_selfDelimiting : selfDelimiting jsonSquare.
Proof.
  intros [p1|] [p2|] k1 k2; simpl.
  - intros H. apply jsonPiece_selfDelimiting in H. destruct H as [-> H]. auto.
  - unfold jsonPiece. simpl. discriminate.
  - unfold jsonPiece. simpl. discriminate.
  - intros H. apply (append_cancel_l "null") in H. auto.
Qed.

Lemma jsonSquare_opensValue : opensValue jsonSquare.
Proof. intros [pc|] k1 k2; unfold jsonSquare, jsonPiece; simpl; discriminate. Qed.

(** The text after the first element of an array: the closing bracket, or a
    comma and the other elements. *)
Lemma jsonJoin_cons {A : Type} (enc : A -> string) (x : A) (l : list A) (k : string) :
  jsonJoin (map enc (x :: l)) ++ "]" ++ k
  = enc x ++ match l with
             | [] => "]" ++ k
             | _ :: _ => "," ++ jsonJoin (map enc l) ++ "]" ++ k
             end.
Proof.
  destruct l as [|y l]; [reflexivity |].
  change (jsonJoin (map enc (x :: y :: l)))
    with (enc x ++ "," ++ jsonJoin (map enc (y :: l))).
  repeat rewrite append_assoc_r. reflexivity.
Qed.

Lemma jsonJoin_inj {A : Type} (enc : A -> string) :
  selfDelimiting enc -> opensValue enc ->
  forall (l1 l2 : list A) (k1 k2 : string),
    jsonJoin (map enc l1) ++ "]" ++ k1 = jsonJoin (map enc l2) ++ "]" ++ k2 ->
    l1 = l2 /\ k1 = k2.
Proof.
  intros Hsd Hopen. induction l1 as [|x l1 IH]; intros [|y l2] k1 k2 H.
  - simpl in H. injection H as H. auto.
  - rewrite jsonJoin_cons in H. exfalso. exact (Hopen _ _ _ H).
  - rewrite jsonJoin_cons in H. exfalso. symmetry in H. exact (Hopen _ _ _ H).
  - rewrite !jsonJoin_cons in H. apply Hsd in H. destruct H as [-> H].
    destruct l1 as [|x1 l1], l2 as [|y2 l2].
    + injection H as H. auto.
    + discriminate H.
    + discriminate H.
    + apply (append_cancel_l ",") in H. apply IH in H.
      destruct H as [-> ->]. auto.
Qed.

Lemma jsonArray_selfDelimiting {A : Type} (enc : A -> string) :
  selfDelimiting enc -> opensValue enc ->
  selfDelimiting (fun l => jsonArray (map enc l)).
Proof.
  intros Hsd Hopen l1 l2 k1 k2. unfold jsonArray.
  repeat rewrite append_assoc_r. intros H.
  apply (append_cancel_l "[") in H.
  eapply jsonJoin_inj; eassumption.
Qed.

Lemma jsonArray_opensValue {A : Type} (enc : A -> string) :
  opensValue (fun l => jsonArray (map enc l)).
Proof. intros l k1 k2. unfold jsonArray. simpl. discriminate. Qed.

Lemma jsonBoard_selfDelimiting : selfDelimiting jsonBoard.
Proof.
  unfold jsonBoard.
  apply (jsonArray_selfDelimiting (fun line => jsonArray (map jsonSquare line))).
  - apply jsonArray_selfDelimiting;
      [apply jsonSquare_selfDelimiting | apply jsonSquare_opensValue].
  - apply jsonArray_opensValue.
Qed.

Lemma jsonRights_selfDelimiting : selfDelimiting jsonRights.
Proof.
  intros [a1 b1 c1 d1] [a2 b2 c2 d2] k1 k2. unfold jsonRights, jsonString.
  cbn [whiteKingSide whiteQueenSide blackKingSide blackQueenSide].
  repeat rewrite append_assoc_r. intros H.
  repeat (apply append_cancel_l in H).
  apply jsonBool_selfDelimiting in H. destruct H as [-> H].
  repeat (apply append_cancel_l in H).
  apply jsonBool_selfDelimiting in H. destruct H as [-> H].
  repeat (apply append_cancel_l in H).
  apply jsonBool_selfDelimiting in H. destruct H as [-> H].
  repeat (apply append_cancel_l in H).
  apply jsonBool_selfDelimiting in H. destruct H as [-> H].
  repeat (apply append_cancel_l in H).
  split; [reflexivity | exact H].
Qed.

(** C5: two positions have the same key exactly when they agree on the
    board, the side to move and the castling rights; in particular positions
    that differ only in their castling rights have different keys. *)
Theorem hashPosition_exact (board1 board2 : Board) (side1 side2 : PieceColor)
  (rights1 rights2 : option CastlingRights) :
  hashPosition board1 side1 rights1 = hashPosition board2 side2 rights2 <->
  board1 = board2 /\ side1 = side2 /\ rights1 = rights2.
Proof.
  split; [| intros [-> [-> ->]]; reflexivity].
  unfold hashPosition, jsonString. repeat rewrite append_assoc_r. intros H.
  repeat (apply append_cancel_l in H).
  apply jsonBoard_selfDelimiting in H. destruct H as [-> H].
  repeat (apply append_cancel_l in H).
  apply colorName_selfDelimiting in H. destruct H as [-> H].
  repeat (apply append_cancel_l in H).
  split; [reflexivity | split; [reflexivity |]].
  destruct rights1 as [r1|], rights2 as [r2|].
  - repeat rewrite append_assoc_r in H.
    repeat (apply append_cancel_l in H).
    apply jsonRights_selfDelimiting in H. destruct H as [-> _]. reflexivity.
  - discriminate H.
  - discriminate H.
  - reflexivity.
Qed.

End Keys.

(** * Boards: reading, writing and counting *)

Lemma length_setNth {A : Type} (i : nat) (v : A) (l : list A) :
  length (setNth i v l) = length l.
Proof.
  revert i; induction l as [|x tl IH]; intros [|i]; simpl; auto.
Qed.

Lemma nth_error_setNth_same {A : Type} (i : nat) (v : A) (l : list A) :
  (i < length l)%nat -> nth_error (setNth i v l) i = Some v.
Proof.
  revert i; induction l as [|x tl IH]; intros [|i] H; simpl in *;
    try lia; auto. apply IH; lia.
Qed.

Lemma nth_error_setNth_other {A : Type} (i j : nat) (v : A) (l : list A) :
  i <> j -> nth_error (setNth i v l) j = nth_error l j.
Proof.
  revert i j; induction l as [|x tl IH]; intros [|i] [|j] H; simpl;
    try reflexivity; try contradiction. apply IH; congruence.
Qed.

Lemma rowCount_le (line : list (option Piece)) : (rowCount line <= length line)%nat.
Proof.
  induction line as [|sq tl IH]; simpl; [lia |].
  unfold occ; destruct (isSome sq); lia.
Qed.

Lemma countPieces_le_cells (board : Board) : (countPieces board <= cells board)%nat.
Proof.
  induction board as [|line tl IH]; simpl; [lia |].
  pose proof (rowCount_le line). lia.
Qed.

Lemma rowCount_setNth (j : nat) (v old : option Piece) (line : list (option Piece)) :
  nth_error line j = Some old ->
  (rowCount (setNth j v line) + occ old = rowCount line + occ v)%nat.
Proof.
  revert j; induction line as [|sq tl IH]; intros [|j] H; simpl in *;
    try discriminate.
  - injection H as ->. lia.
  - specialize (IH _ H). lia.
Qed.

Lemma countPieces_setNth (i : nat) (line line' : list (option Piece)) (board : Board) :
  nth_error board i = Some line ->
  (countPieces (setNth i line' board) + rowCount line
   = countPieces board + rowCount line')%nat.
Proof.
  revert i; induction board as [|l tl IH]; intros [|i] H; simpl in *;
    try discriminate.
  - injection H as ->. lia.
  - specialize (IH _ H). lia.
Qed.

Lemma cells_setNth (i : nat) (line line' : list (option Piece)) (board : Board) :
  nth_error board i = Some line -> length line' = length line ->
  cells (setNth i line' board) = cells board.
Proof.
  revert i; induction board as [|l tl IH]; intros [|i] H Hl; simpl in *;
    try discriminate.
  - injection H as ->. lia.
  - rewrite (IH _ H Hl). reflexivity.
Qed.

Lemma cells_setCell (board : Board) (r c : Z) (v : option Piece) :
  cells (setCell board r c v) = cells board.
Proof.
  unfold setCell.
  destruct ((0 <=? r) && (0 <=? c)); [| reflexivity].
  destruct (nth_error board (Z.to_nat r)) as [line|] eqn:Hr; [| reflexivity].
  destruct (Z.to_nat c <? length line)%nat; [| reflexivity].
  eapply cells_setNth; [eassumption | apply length_setNth].
Qed.

(** Writing a square that holds a piece changes the count by what is
    written. *)
Lemma countPieces_setCell (board : Board) (r c : Z) (v : option Piece) (old : Piece) :
  cell board r c = Some old ->
  (countPieces (setCell board r c v) + 1 = countPieces board + occ v)%nat.
Proof.
  unfold cell, setCell.
  destruct ((0 <=? r) && (0 <=? c)); [| discriminate].
  destruct (nth_error board (Z.to_nat r)) as [line|] eqn:Hr; [| discriminate].
  destruct (nth_error line (Z.to_nat c)) as [sq|] eqn:Hc; [| discriminate].
  intros ->.
  assert (Hlt : (Z.to_nat c < length line)%nat)
    by (apply nth_error_Some; congruence).
  apply Nat.ltb_lt in Hlt. rewrite Hlt.
  pose proof (countPieces_setNth _ _ (setNth (Z.to_nat c) v line) _ Hr) as H1.
  pose proof (rowCount_setNth _ v _ _ Hc) as H2.
  change (occ (Some old)) with 1%nat in H2. lia.
Qed.

(** Reading the square that was just written, provided it is on the board. *)
Lemma cell_setCell_same (board : Board) (r c : Z) (v : option Piece) (old : Piece) :
  cell board r c = Some old -> cell (setCell board r c v) r c = v.
Proof.
  unfold cell, setCell.
  destruct ((0 <=? r) && (0 <=? c)) eqn:Hrc; [| discriminate].
  destruct (nth_error board (Z.to_nat r)) as [line|] eqn:Hr; [| discriminate].
  destruct (nth_error line (Z.to_nat c)) as [sq|] eqn:Hc; [| discriminate].
  intros _.
  assert (Hlt : (Z.to_nat c < length line)%nat)
    by (apply nth_error_Some; congruence).
  assert (Hlr : (Z.to_nat r < length board)%nat)
    by (apply nth_error_Some; congruence).
  pose proof Hlt as Hlt'. apply Nat.ltb_lt in Hlt'. rewrite Hlt'.
  rewrite nth_error_setNth_same by assumption.
  rewrite nth_error_setNth_same by assumption. reflexivity.
Qed.

Lemma cell_setCell_other (board : Board) (r c r' c' : Z) (v : option Piece) :
  (r, c) <> (r', c') -> 0 <= r' -> 0 <= c' ->
  cell (setCell board r c v) r' c' = cell board r' c'.
Proof.
  intros Hne Hr' Hc'. unfold cell, setCell.
  destruct ((0 <=? r) && (0 <=? c)) eqn:Hrc; [| reflexivity].
  apply andb_true_iff in Hrc. destruct Hrc as [Hr0 Hc0].
  apply Z.leb_le in Hr0. apply Z.leb_le in Hc0.
  destruct (nth_error board (Z.to_nat r)) as [line|] eqn:Hr; [| reflexivity].
  destruct (Z.to_nat c <? length line)%nat eqn:Hlt; [| reflexivity].
  destruct ((0 <=? r') && (0 <=? c')); [| reflexivity].
  destruct (Z.eq_dec r r') as [-> | Hrr].
  - assert (Hlr : (Z.to_nat r' < length board)%nat)
      by (apply nth_error_Some; congruence).
    rewrite nth_error_setNth_same by assumption. rewrite Hr.
    rewrite nth_error_setNth_other; [reflexivity |].
    intros Heq. apply Hne. f_equal. lia.
  - rewrite nth_error_setNth_other; [reflexivity |]. lia.
Qed.

(** * Well-formed boards *)

Lemma nth_error_wf (board : Board) (r : Z) :
  wfBoard board -> 0 <= r < 8 ->
  exists line, nth_error board (Z.to_nat r) = Some line /\ length line = 8%nat.
Proof.
  intros [Hlen Hrows] Hr.
  destruct (nth_error board (Z.to_nat r)) as [line|] eqn:E.
  - exists line. split; [reflexivity |].
    rewrite Forall_forall in Hrows. apply Hrows. eapply nth_error_In; eassumption.
  - apply nth_error_None in E. lia.
Qed.

Lemma wfBoard_setCell (board : Board) (r c : Z) (v : option Piece) :
  wfBoard board -> wfBoard (setCell board r c v).
Proof.
  intros [Hlen Hrows]. unfold setCell.
  destruct ((0 <=? r) && (0 <=? c)); [| split; assumption].
  destruct (nth_error board (Z.to_nat r)) as [line|] eqn:Hr; [| split; assumption].
  destruct (Z.to_nat c <? length line)%nat; [| split; assumption].
  split; [rewrite length_setNth; exact Hlen |].
  assert (Hline : length line = 8%nat).
  { rewrite Forall_forall in Hrows. apply Hrows. eapply nth_error_In; eassumption. }
  clear Hlen Hr. revert Hrows. generalize (Z.to_nat r) as i.
  induction board as [|l tl IH]; intros [|i] Hrows; simpl; auto.
  - inversion Hrows; subst. constructor; [rewrite length_setNth; exact Hline | assumption].
  - inversion Hrows; subst. constructor; auto.
Qed.

Lemma isValidPosition_bounds (r c : Z) :
  isValidPosition (mkPos r c) = true <-> 0 <= r < 8 /\ 0 <= c < 8.
Proof.
  unfold isValidPosition; simpl.
  rewrite !andb_true_iff, !Z.geb_le, !Z.ltb_lt. lia.
Qed.

(** Reading after writing, on a well-formed board. *)
Lemma cell_setCell (board : Board) (r c r' c' : Z) (v : option Piece) :
  wfBoard board -> 0 <= r < 8 -> 0 <= c < 8 -> 0 <= r' -> 0 <= c' ->
  cell (setCell board r c v) r' c'
  = if (r =? r') && (c =? c') then v else cell board r' c'.
Proof.
  intros Hwf Hr Hc Hr' Hc'.
  destruct (nth_error_wf board r Hwf Hr) as [line [Hline Hlen]].
  destruct ((r =? r') && (c =? c')) eqn:E.
  - apply andb_true_iff in E. destruct E as [E1 E2].
    apply Z.eqb_eq in E1, E2. subst r' c'.
    unfold cell, setCell.
    replace ((0 <=? r) && (0 <=? c)) with true
      by (symmetry; apply andb_true_iff; split; apply Z.leb_le; lia).
    rewrite Hline.
    replace (Z.to_nat c <? length line)%nat with true
      by (symmetry; apply Nat.ltb_lt; lia).
    rewrite nth_error_setNth_same by (destruct Hwf; lia).
    rewrite nth_error_setNth_same by lia. reflexivity.
  - apply cell_setCell_other; [| assumption | assumption].
    intros H. injection H as -> ->. rewrite !Z.eqb_refl in E. discriminate.
Qed.

Lemma cell_Some_bounds (board : Board) (r c : Z) (pc : Piece) :
  wfBoard board -> cell board r c = Some pc -> 0 <= r < 8 /\ 0 <= c < 8.
Proof.
  intros [Hlen Hrows]. unfold cell.
  destruct ((0 <=? r) && (0 <=? c)) eqn:E; [| discriminate].
  apply andb_true_iff in E. destruct E as [E1 E2]. apply Z.leb_le in E1, E2.
  destruct (nth_error board (Z.to_nat r)) as [line|] eqn:Hr; [| discriminate].
  destruct (nth_error line (Z.to_nat c)) as [sq|] eqn:Hc; [| discriminate].
  intros _.
  assert (Hline : length line = 8%nat).
  { rewrite Forall_forall in Hrows. apply Hrows. eapply nth_error_In; eassumption. }
  assert ((Z.to_nat r < length board)%nat) by (apply nth_error_Some; congruence).
  assert ((Z.to_nat c < length line)%nat) by (apply nth_error_Some; congruence).
  lia.
Qed.

Lemma wfBoard_loneBlackKing : wfBoard loneBlackKing.
Proof. split; [reflexivity | repeat constructor]. Qed.

Lemma wfBoard_pawnEnding : wfBoard pawnEnding.
Proof. split; [reflexivity | repeat constructor]. Qed.

(** * The loops of the model are long enough *)

(** More rounds than squares ahead do not change a ray: the [while] loop of
    [getLinearMoves] has ended by then. *)
Lemma ray_rounds_suffice (board : Board) (c0 : PieceColor) (rowDir colDir : Z) :
  (rowDir = 1 \/ rowDir = -1 \/ (rowDir = 0 /\ (colDir = 1 \/ colDir = -1))) ->
  forall (rounds extra : nat) (row0 col0 : Z),
    (isValidPosition (mkPos row0 col0) = true ->
     ahead row0 col0 rowDir colDir <= Z.of_nat rounds) ->
    ray (rounds + extra) board c0 row0 col0 rowDir colDir
    = ray rounds board c0 row0 col0 rowDir colDir.
Proof.
  intros Hdir. induction rounds as [|rounds IH]; intros extra row0 col0 Hahead.
  - destruct (isValidPosition (mkPos row0 col0)) eqn:V.
    + specialize (Hahead eq_refl). apply isValidPosition_bounds in V.
      unfold ahead in Hahead.
      destruct (rowDir =? 1), (rowDir =? -1), (colDir =? 1); lia.
    + destruct extra; simpl; [reflexivity | rewrite V; reflexivity].
  - simpl. destruct (isValidPosition (mkPos row0 col0)) eqn:V; [| reflexivity].
    destruct (cell board row0 col0); [reflexivity |]. f_equal.
    apply IH. intros V'. specialize (Hahead eq_refl).
    apply isValidPosition_bounds in V, V'.
    rewrite Nat2Z.inj_succ in Hahead. unfold ahead in *.
    destruct Hdir as [-> | [-> | [-> [-> | ->]]]];
      cbn [Z.eqb Pos.eqb] in *; lia.
Qed.

(** Nine rounds are enough for every ray that [getLinearMoves] casts. *)
Lemma ray_nine_rounds (board : Board) (c0 : PieceColor) (rowDir colDir : Z)
  (extra : nat) (row0 col0 : Z) :
  (rowDir = 1 \/ rowDir = -1 \/ (rowDir = 0 /\ (colDir = 1 \/ colDir = -1))) ->
  ray (9 + extra) board c0 row0 col0 rowDir colDir
  = ray 9 board c0 row0 col0 rowDir colDir.
Proof.
  intros Hdir. apply ray_rounds_suffice; [exact Hdir |].
  intros V. apply isValidPosition_bounds in V. unfold ahead.
  destruct (rowDir =? 1), (rowDir =? -1), (colDir =? 1); lia.
Qed.

(** * The model of [Array.prototype.sort] *)

Lemma insertByScore_In {A : Type} (score0 : A -> Z) (x y : A) (l : list A) :
  In y (insertByScore score0 x l) <-> y = x \/ In y l.
Proof.
  induction l as [|z tl IH]; simpl.
  - intuition auto.
  - destruct (score0 z <=? score0 x); simpl; [intuition auto |].
    rewrite IH. intuition auto.
Qed.

Lemma sortByScore_In {A : Type} (score0 : A -> Z) (y : A) (l : list A) :
  In y (sortByScore score0 l) <-> In y l.
Proof.
  unfold sortByScore. induction l as [|x tl IH]; simpl; [tauto |].
  rewrite insertByScore_In, IH. intuition auto.
Qed.

Lemma insertByScore_Permutation {A : Type} (score0 : A -> Z) (x : A) (l : list A) :
  Permutation (x :: l) (insertByScore score0 x l).
Proof.
  induction l as [|y tl IH]; simpl; [reflexivity |].
  destruct (score0 y <=? score0 x); [reflexivity |].
  rewrite perm_swap. constructor. exact IH.
Qed.

(** Sorting rearranges the moves and loses none. *)
Lemma sortByScore_Permutation {A : Type} (score0 : A -> Z) (l : list A) :
  Permutation l (sortByScore score0 l).
Proof.
  unfold sortByScore. induction l as [|x tl IH]; simpl; [constructor |].
  rewrite <- insertByScore_Permutation. constructor. exact IH.
Qed.

Lemma insertByScore_sorted {A : Type} (score0 : A -> Z) (x : A) (l : list A) :
  LocallySorted (fun a b => score0 b <= score0 a) l ->
  LocallySorted (fun a b => score0 b <= score0 a) (insertByScore score0 x l).
Proof.
  induction 1 as [| y | y z tl Hs IH Hyz]; simpl.
  - constructor.
  - destruct (score0 y <=? score0 x) eqn:E.
    + constructor; [constructor |]. apply Z.leb_le. exact E.
    + constructor; [constructor |]. apply Z.leb_gt in E. lia.
  - destruct (score0 y <=? score0 x) eqn:E.
    + constructor; [constructor; assumption |]. apply Z.leb_le. exact E.
    + simpl in IH. destruct (score0 z <=? score0 x) eqn:E2.
      * constructor; [exact IH |]. apply Z.leb_gt in E. lia.
      * constructor; [exact IH | exact Hyz].
Qed.

(** The sorted list has falling scores. *)
Lemma sortByScore_sorted {A : Type} (score0 : A -> Z) (l : list A) :
  LocallySorted (fun a b => score0 b <= score0 a) (sortByScore score0 l).
Proof.
  unfold sortByScore. induction l as [|x tl IH]; simpl; [constructor |].
  apply insertByScore_sorted. exact IH.
Qed.

(** * What the generator returns *)

Lemma indexedFrom_In {A : Type} (l : list A) :
  forall (k i : Z) (x : A),
    In (i, x) (indexedFrom k l) ->
    k <= i /\ nth_error l (Z.to_nat (i - k)) = Some x.
Proof.
  induction l as [|y tl IH]; intros k i x H; simpl in H; [contradiction |].
  destruct H as [H | H].
  - injection H as <- <-. rewrite Z.sub_diag. split; [lia | reflexivity].
  - apply IH in H. destruct H as [Hle Hn]. split; [lia |].
    replace (Z.to_nat (i - k)) with (S (Z.to_nat (i - (k + 1)))) by lia.
    exact Hn.
Qed.

Lemma PieceColor_eqb_eq (x y : PieceColor) : PieceColor_eqb x y = true <-> x = y.
Proof. destruct x, y; simpl; split; congruence. Qed.

Lemma PieceType_eqb_eq (x y : PieceType) : PieceType_eqb x y = true <-> x = y.
Proof. destruct x, y; simpl; split; congruence. Qed.

(** Every generated move starts on a square that holds a piece of the side
    to move, and is among the moves generated for that piece. *)
Lemma generated_move_origin (board : Board) (c : PieceColor)
  (rights : option CastlingRights) (lastMove : option Move) (m : Move) :
  In m (getValidMovesForColor board c rights lastMove) ->
  exists from0 pc,
    cell board (row from0) (col from0) = Some pc /\ color pc = c /\
    In m (movesOfPiece board c rights from0 pc).
Proof.
  unfold getValidMovesForColor. intros H.
  apply in_flat_map in H. destruct H as [[r line] [Hr H]].
  apply in_flat_map in H. destruct H as [[c0 sq] [Hc H]].
  destruct sq as [pc|]; [| contradiction].
  destruct (PieceColor_eqb (color pc) c) eqn:Hcol; [| contradiction].
  apply indexedFrom_In in Hr. apply indexedFrom_In in Hc.
  destruct Hr as [Hr0 Hr]. destruct Hc as [Hc0 Hc].
  rewrite Z.sub_0_r in Hr, Hc.
  exists (mkPos r c0), pc. split; [| split].
  - unfold cell; simpl.
    replace (0 <=? r) with true by (symmetry; apply Z.leb_le; lia).
    replace (0 <=? c0) with true by (symmetry; apply Z.leb_le; lia).
    simpl. rewrite Hr, Hc. reflexivity.
  - apply PieceColor_eqb_eq. exact Hcol.
  - exact H.
Qed.

(** A generated move is an ordinary move to a square that passed the legality
    filter, or a castling move. *)
Lemma movesOfPiece_cases (board : Board) (c : PieceColor)
  (rights : option CastlingRights) (from0 : Position) (pc : Piece) (m : Move) :
  In m (movesOfPiece board c rights from0 pc) ->
  (exists to0,
      m = mkMove from0 to0 pc (cell board (row to0) (col to0)) None false false /\
      In to0 (getValidMoves board from0 pc) /\
      wouldMoveResultInCheck board from0 to0 (color pc) = false) \/
  (exists to0 r0,
      m = mkMove from0 to0 pc None None true false /\
      type pc = King /\ rights = Some r0 /\
      In to0 (getCastlingMoves board from0 c (sideRights c r0)
                               (isKingInCheck board c))).
Proof.
  unfold movesOfPiece. intros H. apply in_app_or in H. destruct H as [H | H].
  - left. apply in_map_iff in H. destruct H as [to0 [<- H]].
    apply filter_In in H. destruct H as [Hin Hf].
    exists to0. split; [reflexivity | split; [exact Hin |]].
    apply negb_true_iff. exact Hf.
  - right. destruct (type pc) eqn:Ht; try contradiction.
    destruct rights as [r0|]; [| contradiction].
    apply in_map_iff in H. destruct H as [to0 [<- H]].
    exists to0, r0. auto.
Qed.

Lemma getPawnMoves_changes_row (board : Board) (from0 to0 : Position) (c : PieceColor) :
  In to0 (getPawnMoves board from0 c) -> row to0 <> row from0.
Proof.
  unfold getPawnMoves. intros H. apply in_app_or in H. destruct H as [H | H].
  - destruct (isValidPosition _); [| contradiction].
    destruct (cell board _ _); [contradiction |].
    destruct H as [<- | H]; [destruct c; simpl; lia |].
    destruct (row from0 =? _); [| contradiction].
    destruct (isValidPosition _); [| contradiction].
    destruct (cell board _ _); [contradiction |].
    destruct H as [<- | []]. destruct c; simpl; lia.
  - apply in_flat_map in H. destruct H as [pos [Hpos H]].
    destruct (isValidPosition pos); [| contradiction].
    destruct (cell board _ _) as [t|]; [| contradiction].
    destruct (negb _); [| contradiction].
    destruct H as [<- | []].
    destruct Hpos as [<- | [<- | []]]; destruct c; simpl; lia.
Qed.

Lemma getPawnMoves_valid (board : Board) (from0 to0 : Position) (c : PieceColor) :
  In to0 (getPawnMoves board from0 c) -> isValidPosition to0 = true.
Proof.
  unfold getPawnMoves. intros H. apply in_app_or in H. destruct H as [H | H].
  - destruct (isValidPosition _) eqn:V1; [| contradiction].
    destruct (cell board _ _); [contradiction |].
    destruct H as [<- | H]; [exact V1 |]. clear V1.
    destruct (row from0 =? _); [| contradiction].
    destruct (isValidPosition _) eqn:V2; [| contradiction].
    destruct (cell board _ _); [contradiction |].
    destruct H as [<- | []]. exact V2.
  - apply in_flat_map in H. destruct H as [pos [_ H]].
    destruct (isValidPosition pos) eqn:V; [| contradiction].
    destruct (cell board _ _) as [t|]; [| contradiction].
    destruct (negb _); [| contradiction].
    destruct H as [<- | []]. exact V.
Qed.

(** C7: the initial position, white to move with all castling rights, has
    exactly 20 legal moves. *)
Theorem initial_position_has_20_moves :
  length (getValidMovesForColor createInitialBoard White (Some fullRights) None) = 20%nat.
Proof. vm_compute. reflexivity. Qed.

(** * En passant *)

(** The generator never marks a move as an en-passant capture. *)
Lemma generator_never_en_passant (board : Board) (c : PieceColor)
  (rights : option CastlingRights) (lastMove : option Move) (m : Move) :
  In m (getValidMovesForColor board c rights lastMove) -> isEnPassant m = false.
Proof.
  unfold getValidMovesForColor. intros H.
  apply in_flat_map in H. destruct H as [[r line] [_ H]].
  apply in_flat_map in H. destruct H as [[c0 sq] [_ H]].
  destruct sq as [pc|]; [| contradiction].
  destruct (PieceColor_eqb (color pc) c); [| contradiction].
  unfold movesOfPiece in H. apply in_app_or in H. destruct H as [H | H].
  - apply in_map_iff in H. destruct H as [to0 [<- _]]. reflexivity.
  - destruct (type pc); try contradiction.
    destruct rights; [| contradiction].
    apply in_map_iff in H. destruct H as [to0 [<- _]]. reflexivity.
Qed.

(** C2 (failing input): in a position reached from the initial one by
    generated moves, the black pawn has just advanced two squares to (4,4),
    next to the white pawn on (4,3), and (5,4) is empty; the generator, told
    of that last move, gives white no move from (4,3) to (5,4) and no
    en-passant move at all. *)
Theorem no_en_passant_after_double_advance :
  exists board rights,
    replay createInitialBoard White (Some fullRights) doubleAdvanceGame
    = Some (board, rights) /\
    cell board 4 3 = Some (mkPiece Pawn White) /\
    cell board 4 4 = Some (mkPiece Pawn Black) /\
    cell board 6 4 = None /\ cell board 5 4 = None /\
    forall m,
      In m (getValidMovesForColor board White rights (Some doubleAdvance)) ->
      isEnPassant m = false /\ ~ (from m = mkPos 4 3 /\ to m = mkPos 5 4).
Proof.
  destruct (replay createInitialBoard White (Some fullRights) doubleAdvanceGame)
    as [[board rights]|] eqn:E; [| vm_compute in E; discriminate].
  exists board, rights. split; [reflexivity |].
  vm_compute in E. injection E as <- <-.
  do 4 (split; [vm_compute; reflexivity |]).
  intros m H. split; [eapply generator_never_en_passant; eassumption |].
  vm_compute in H. intros [Hfrom Hto].
  repeat (destruct H as [<- | H]; [discriminate |]). contradiction.
Qed.

(** What [applyMove] does with a move that a caller marks as an en-passant
    capture: the passed pawn is taken off its square. *)
Example applyMove_en_passant :
  exists board rights,
    replay createInitialBoard White (Some fullRights) doubleAdvanceGame
    = Some (board, rights) /\
    let capture := mkMove (mkPos 4 3) (mkPos 5 4) (mkPiece Pawn White)
                          (Some (mkPiece Pawn Black)) None false true in
    let after := applyMove board capture in
    cell after 5 4 = Some (mkPiece Pawn White) /\
    cell after 4 4 = None /\ cell after 4 3 = None.
Proof.
  destruct (replay createInitialBoard White (Some fullRights) doubleAdvanceGame)
    as [[board rights]|] eqn:E; [| vm_compute in E; discriminate].
  exists board, rights. split; [reflexivity |].
  vm_compute in E. injection E as <- <-.
  vm_compute. repeat split.
Qed.

(** * Castling *)

Lemma isEmpty_true (sq : option Piece) :
  match sq with None => true | Some _ => false end = true -> sq = None.
Proof. destruct sq; [discriminate | reflexivity]. Qed.

(** A castling square is offered only from the king's home square, out of
    check, with the right still held, the rook in its corner, and the two
    squares next to the king empty and not attacked (as far as
    [isPositionUnderAttack] sees). *)
Lemma getCastlingMoves_checks (board : Board) (from0 : Position) (c : PieceColor)
  (sr : SideRights) (inCheck : bool) (to0 : Position) :
  In to0 (getCastlingMoves board from0 c sr inCheck) ->
  from0 = mkPos (homeRow c) 3 /\ inCheck = false /\
  ((to0 = mkPos (homeRow c) 5 /\ kingSide sr = true /\
    isPieceOf Rook c (cell board (homeRow c) 7) = true /\
    cell board (homeRow c) 4 = None /\ cell board (homeRow c) 5 = None /\
    isPositionUnderAttack board (mkPos (homeRow c) 4) (opposite c) = false /\
    isPositionUnderAttack board (mkPos (homeRow c) 5) (opposite c) = false) \/
   (to0 = mkPos (homeRow c) 1 /\ queenSide sr = true /\
    isPieceOf Rook c (cell board (homeRow c) 0) = true /\
    cell board (homeRow c) 1 = None /\ cell board (homeRow c) 2 = None /\
    isPositionUnderAttack board (mkPos (homeRow c) 1) (opposite c) = false /\
    isPositionUnderAttack board (mkPos (homeRow c) 2) (opposite c) = false)).
Proof.
  unfold getCastlingMoves. fold (homeRow c).
  destruct (negb (row from0 =? homeRow c) || negb (col from0 =? 3)) eqn:Hhome;
    [contradiction |].
  apply orb_false_iff in Hhome. destruct Hhome as [Hr Hc].
  apply negb_false_iff in Hr, Hc. apply Z.eqb_eq in Hr, Hc.
  destruct inCheck; [contradiction |].
  intros H. split; [destruct from0; simpl in *; congruence | split; [reflexivity |]].
  apply in_app_or in H. destruct H as [H | H].
  - left. destruct (kingSide sr); [| contradiction].
    destruct (_ && _ && _) eqn:Hcond in H; [| contradiction].
    destruct H as [<- | []].
    apply andb_true_iff in Hcond. destruct Hcond as [Hcond Hatt].
    apply andb_true_iff in Hcond. destruct Hcond as [Hrook Hclear].
    simpl in Hclear, Hatt.
    rewrite !andb_true_iff in Hclear, Hatt.
    destruct Hclear as [H4 [H5 _]]. destruct Hatt as [A4 [A5 _]].
    apply negb_true_iff in A4, A5. apply isEmpty_true in H4, H5.
    repeat split; assumption.
  - right. destruct (queenSide sr); [| contradiction].
    destruct (_ && _ && _) eqn:Hcond in H; [| contradiction].
    destruct H as [<- | []].
    apply andb_true_iff in Hcond. destruct Hcond as [Hcond Hatt].
    apply andb_true_iff in Hcond. destruct Hcond as [Hrook Hclear].
    simpl in Hclear, Hatt.
    rewrite !andb_true_iff in Hclear, Hatt.
    destruct Hclear as [H1 [H2 _]]. destruct Hatt as [A1 [A2 _]].
    apply negb_true_iff in A1, A2. apply isEmpty_true in H1, H2.
    repeat split; assumption.
Qed.

Lemma homeRow_bounds (c : PieceColor) : 0 <= homeRow c < 8.
Proof. destruct c; simpl; lia. Qed.

(** Castling towards column 7 puts the king on column 5 and the rook of
    column 7 on column 4; castling towards column 0 puts the king on column 1
    and the rook of column 0 on column 2. *)
Lemma applyMove_castling (board : Board) (c : PieceColor) (king : Piece) :
  wfBoard board ->
  cell board (homeRow c) 3 = Some king -> type king = King ->
  (let after := applyMove board (mkMove (mkPos (homeRow c) 3) (mkPos (homeRow c) 5)
                                        king None None true false) in
   cell after (homeRow c) 5 = Some king /\
   cell after (homeRow c) 4 = cell board (homeRow c) 7 /\
   cell after (homeRow c) 3 = None /\ cell after (homeRow c) 7 = None) /\
  (let after := applyMove board (mkMove (mkPos (homeRow c) 3) (mkPos (homeRow c) 1)
                                        king None None true false) in
   cell after (homeRow c) 1 = Some king /\
   cell after (homeRow c) 2 = cell board (homeRow c) 0 /\
   cell after (homeRow c) 3 = None /\ cell after (homeRow c) 0 = None).
Proof.
  intros Hwf Hking Htype.
  pose proof (homeRow_bounds c) as Hrow.
  assert (Hnp : PieceType_eqb (type king) Pawn = false) by (rewrite Htype; reflexivity).
  assert (Hk : PieceType_eqb (type king) King = true) by (rewrite Htype; reflexivity).
  split; unfold applyMove; cbn [from to isCastling isEnPassant row col];
    rewrite Hking, Hk, Hnp; cbn [andb]; simpl (_ =? _);
    repeat split;
    repeat (rewrite cell_setCell;
            [| repeat apply wfBoard_setCell; exact Hwf | lia | lia | lia | lia]);
    rewrite ?Z.eqb_refl; simpl; reflexivity.
Qed.

(** Every castling move that the generator returns passed the checks of
    [getCastlingMoves], for the rights of the side to move. *)
Lemma generated_castling_checked (board : Board) (c : PieceColor)
  (rights : option CastlingRights) (lastMove : option Move) (m : Move) :
  In m (getValidMovesForColor board c rights lastMove) ->
  isCastling m = true ->
  exists r0,
    rights = Some r0 /\ type (piece m) = King /\
    cell board (row (from m)) (col (from m)) = Some (piece m) /\
    In (to m) (getCastlingMoves board (from m) c (sideRights c r0)
                                (isKingInCheck board c)).
Proof.
  intros Hin Hcastle.
  apply generated_move_origin in Hin. destruct Hin as [from0 [pc [Hfrom [_ Hin]]]].
  apply movesOfPiece_cases in Hin.
  destruct Hin as [[to0 [-> _]] | [to0 [r0 [-> [Ht [-> Hin]]]]]]; [discriminate |].
  exists r0. simpl. auto.
Qed.

(** C4 (failing input): in a position reached from the initial one by
    generated moves, with the white knight still on (0,6), between king and
    rook, the generator offers the castling move to (0,5); the rook then
    goes from (0,7) over the knight to (0,4). *)
Theorem castling_over_knight :
  exists board rights,
    replay createInitialBoard White (Some fullRights) developingGame
    = Some (board, rights) /\
    cell board 0 3 = Some (mkPiece King White) /\
    cell board 0 6 = Some (mkPiece Knight White) /\
    cell board 0 7 = Some (mkPiece Rook White) /\
    In (castleKingSide White) (getValidMovesForColor board White rights None) /\
    cell (applyMove board (castleKingSide White)) 0 4 = Some (mkPiece Rook White).
Proof.
  destruct (replay createInitialBoard White (Some fullRights) developingGame)
    as [[board rights]|] eqn:E; [| vm_compute in E; discriminate].
  exists board, rights. split; [reflexivity |].
  vm_compute in E. injection E as <- <-.
  do 3 (split; [vm_compute; reflexivity |]).
  split; [| vm_compute; reflexivity].
  vm_compute. tauto.
Qed.

(** * The legality filter *)

(** Attack detection only looks at the colours of the pieces in the way. *)

Lemma flat_map_pointwise {A B : Type} (f g : A -> list B) (l : list A) :
  (forall x, f x = g x) -> flat_map f l = flat_map g l.
Proof.
  intros H. induction l as [|x tl IH]; simpl; [reflexivity |].
  rewrite H, IH. reflexivity.
Qed.

(** The test every generator makes on a target square. *)
Lemma target_test_sameColors {A : Type} (b1 b2 : Board) (r c : Z)
  (c0 : PieceColor) (free enemy own : A) :
  sameColors b1 b2 ->
  match cell b1 r c with
  | None => free
  | Some target => if negb (PieceColor_eqb (color target) c0) then enemy else own
  end
  = match cell b2 r c with
    | None => free
    | Some target => if negb (PieceColor_eqb (color target) c0) then enemy else own
    end.
Proof.
  intros H. specialize (H r c).
  destruct (cell b1 r c) as [t1|], (cell b2 r c) as [t2|]; simpl in H;
    try discriminate; [| reflexivity].
  injection H as ->. reflexivity.
Qed.

Lemma empty_test_sameColors {A : Type} (b1 b2 : Board) (r c : Z) (free taken : A) :
  sameColors b1 b2 ->
  match cell b1 r c with None => free | Some _ => taken end
  = match cell b2 r c with None => free | Some _ => taken end.
Proof.
  intros H. specialize (H r c).
  destruct (cell b1 r c), (cell b2 r c); simpl in H; try discriminate; reflexivity.
Qed.

Lemma offsetMoves_sameColors (offsets : list (Z * Z)) (b1 b2 : Board)
  (from0 : Position) (c0 : PieceColor) :
  sameColors b1 b2 ->
  offsetMoves offsets b1 from0 c0 = offsetMoves offsets b2 from0 c0.
Proof.
  intros H. unfold offsetMoves. apply flat_map_pointwise. intros off.
  cbv zeta. destruct (isValidPosition _); [| reflexivity].
  apply target_test_sameColors. exact H.
Qed.

Lemma ray_sameColors (rounds : nat) (b1 b2 : Board) (c0 : PieceColor) (dr dc : Z) :
  sameColors b1 b2 ->
  forall r c, ray rounds b1 c0 r c dr dc = ray rounds b2 c0 r c dr dc.
Proof.
  intros H. induction rounds as [|rounds IH]; intros r c; simpl; [reflexivity |].
  destruct (isValidPosition _); [| reflexivity].
  rewrite IH. apply target_test_sameColors. exact H.
Qed.

Lemma getLinearMoves_sameColors (b1 b2 : Board) (from0 : Position)
  (c0 : PieceColor) (directions : list (Z * Z)) :
  sameColors b1 b2 ->
  getLinearMoves b1 from0 c0 directions = getLinearMoves b2 from0 c0 directions.
Proof.
  intros H. unfold getLinearMoves. apply flat_map_pointwise. intros dir.
  apply ray_sameColors. exact H.
Qed.

Lemma getPawnMoves_sameColors (b1 b2 : Board) (from0 : Position) (c0 : PieceColor) :
  sameColors b1 b2 -> getPawnMoves b1 from0 c0 = getPawnMoves b2 from0 c0.
Proof.
  intros H. unfold getPawnMoves. cbv zeta. f_equal.
  - destruct (isValidPosition _); [| reflexivity].
    rewrite (empty_test_sameColors b1 b2 _ _ _ _ H).
    destruct (cell b2 _ _); [reflexivity |]. f_equal.
    destruct (row from0 =? _); [| reflexivity].
    destruct (isValidPosition _); [| reflexivity].
    apply empty_test_sameColors. exact H.
  - apply flat_map_pointwise. intros pos.
    destruct (isValidPosition pos); [| reflexivity].
    specialize (H (row pos) (col pos)).
    destruct (cell b1 _ _) as [t1|], (cell b2 _ _) as [t2|]; simpl in H;
      try discriminate; [| reflexivity].
    injection H as ->. reflexivity.
Qed.

Lemma getValidMoves_sameColors (b1 b2 : Board) (from0 : Position) (pc : Piece) :
  sameColors b1 b2 -> getValidMoves b1 from0 pc = getValidMoves b2 from0 pc.
Proof.
  intros H. unfold getValidMoves.
  destruct (type pc);
    [ apply getPawnMoves_sameColors
    | apply offsetMoves_sameColors
    | apply getLinearMoves_sameColors
    | apply getLinearMoves_sameColors
    | apply getLinearMoves_sameColors
    | apply offsetMoves_sameColors ]; exact H.
Qed.

Lemma In_squares (pos : Position) :
  In pos squares -> 0 <= row pos < 8 /\ 0 <= col pos < 8.
Proof.
  unfold squares. intros H. apply in_flat_map in H. destruct H as [r [Hr H]].
  apply in_map_iff in H. destruct H as [c [<- Hc]]. simpl.
  unfold eight in *. simpl in Hr, Hc. lia.
Qed.

Lemma find_pointwise {A : Type} (f g : A -> bool) (l : list A) :
  (forall x, In x l -> f x = g x) -> find f l = find g l.
Proof.
  induction l as [|x tl IH]; intros H; simpl; [reflexivity |].
  rewrite <- (H x) by (left; reflexivity).
  destruct (f x); [reflexivity |]. apply IH. intros y Hy. apply H. right. exact Hy.
Qed.

Lemma existsb_pointwise {A : Type} (f g : A -> bool) (l : list A) :
  (forall x, In x l -> f x = g x) -> existsb f l = existsb g l.
Proof.
  induction l as [|x tl IH]; intros H; simpl; [reflexivity |].
  rewrite (H x) by (left; reflexivity).
  rewrite IH; [reflexivity |]. intros y Hy. apply H. right. exact Hy.
Qed.

(** Replacing a piece of one side that is not its king by another such piece
    of the same side does not change whether that side's king is in check. *)
Lemma isKingInCheck_replace (board : Board) (r c : Z) (old new : Piece)
  (side : PieceColor) :
  wfBoard board -> 0 <= r < 8 -> 0 <= c < 8 ->
  cell board r c = Some old ->
  color old = side -> color new = side ->
  type old <> King -> type new <> King ->
  isKingInCheck (setCell board r c (Some new)) side = isKingInCheck board side.
Proof.
  intros Hwf Hr Hc Hold Hco Hcn Hto Htn.
  set (after := setCell board r c (Some new)).
  assert (Hcell : forall r' c', 0 <= r' -> 0 <= c' ->
            cell after r' c' = if (r =? r') && (c =? c') then Some new
                               else cell board r' c').
  { intros r' c' Hr' Hc'. apply cell_setCell; assumption. }
  assert (Hsame : sameColors after board).
  { intros r' c'.
    destruct (Z_lt_le_dec r' 0) as [Hn | Hr'];
      [unfold cell; replace (0 <=? r') with false
         by (symmetry; apply Z.leb_gt; lia); reflexivity |].
    destruct (Z_lt_le_dec c' 0) as [Hn | Hc'];
      [unfold cell; replace (0 <=? c') with false
         by (symmetry; apply Z.leb_gt; lia); rewrite andb_false_r; reflexivity |].
    rewrite Hcell by assumption.
    destruct ((r =? r') && (c =? c')) eqn:E; [| reflexivity].
    apply andb_true_iff in E. destruct E as [E1 E2].
    apply Z.eqb_eq in E1, E2. subst r' c'. rewrite Hold. simpl. congruence. }
  assert (Hnotking : forall t, t = old \/ t = new ->
            PieceType_eqb (type t) King = false).
  { intros t [-> | ->]; [destruct (type old) | destruct (type new)];
      try reflexivity; contradiction. }
  unfold isKingInCheck.
  assert (Hfind : findKing after side = findKing board side).
  { unfold findKing. apply find_pointwise. intros pos Hpos.
    apply In_squares in Hpos. destruct Hpos as [Hpr Hpc].
    rewrite Hcell by lia.
    destruct ((r =? row pos) && (c =? col pos)) eqn:E; [| reflexivity].
    apply andb_true_iff in E. destruct E as [E1 E2].
    apply Z.eqb_eq in E1, E2. rewrite <- E1, <- E2, Hold. simpl.
    rewrite !Hnotking by auto. reflexivity. }
  rewrite Hfind. destruct (findKing board side) as [kingPos|]; [| reflexivity].
  unfold isPositionUnderAttack. apply existsb_pointwise. intros pos Hpos.
  apply In_squares in Hpos. destruct Hpos as [Hpr Hpc].
  rewrite Hcell by lia.
  destruct ((r =? row pos) && (c =? col pos)) eqn:E.
  - apply andb_true_iff in E. destruct E as [E1 E2].
    apply Z.eqb_eq in E1, E2. rewrite <- E1, <- E2, Hold.
    rewrite Hco, Hcn. destruct side; reflexivity.
  - destruct (cell board (row pos) (col pos)) as [pc|]; [| reflexivity].
    rewrite (getValidMoves_sameColors after board pos pc Hsame). reflexivity.
Qed.

(** Every move of the generator that is not a castling move leaves the
    mover's king unattacked on the board that [applyMove] produces. *)
Lemma ordinary_move_keeps_king_safe (board : Board) (c : PieceColor)
  (rights : option CastlingRights) (lastMove : option Move) (m : Move) :
  wfBoard board ->
  In m (getValidMovesForColor board c rights lastMove) ->
  isCastling m = false ->
  isKingInCheck (applyMove board m) c = false.
Proof.
  intros Hwf Hin Hcastle.
  apply generated_move_origin in Hin. destruct Hin as [from0 [pc [Hfrom [Hcol Hin]]]].
  apply movesOfPiece_cases in Hin.
  destruct Hin as [[to0 [-> [Hto Hsafe]]] | [to0 [r0 [-> _]]]]; [| discriminate].
  unfold wouldMoveResultInCheck in Hsafe. cbv zeta in Hsafe.
  rewrite Hfrom, Hcol in Hsafe.
  unfold applyMove. cbn [from to isCastling isEnPassant andb]. rewrite Hfrom.
  set (temp := setCell (setCell board (row to0) (col to0) (Some pc))
                       (row from0) (col from0) None) in *.
  destruct (PieceType_eqb (type pc) Pawn) eqn:Hpawn; [| exact Hsafe].
  destruct (row to0 =? _); [| exact Hsafe].
  apply PieceType_eqb_eq in Hpawn.
  unfold getValidMoves in Hto. rewrite Hpawn in Hto.
  pose proof (getPawnMoves_changes_row _ _ _ _ Hto) as Hrow.
  apply getPawnMoves_valid in Hto.
  destruct to0 as [tr tc]. apply isValidPosition_bounds in Hto. simpl in *.
  destruct (cell_Some_bounds _ _ _ _ Hwf Hfrom) as [Hfr Hfc].
  rewrite <- Hsafe.
  apply isKingInCheck_replace with (old := pc);
    try assumption; try lia; try reflexivity.
  - subst temp. repeat apply wfBoard_setCell. exact Hwf.
  - subst temp.
    rewrite cell_setCell; [| apply wfBoard_setCell; exact Hwf | lia | lia | lia | lia].
    replace (row from0 =? tr) with false by (symmetry; apply Z.eqb_neq; lia).
    simpl. rewrite cell_setCell; [| exact Hwf | lia | lia | lia | lia].
    rewrite !Z.eqb_refl. reflexivity.
  - rewrite Hpawn. discriminate.
  - simpl. discriminate.
Qed.

(** C1 (failing input): in a position reached from the initial one by
    generated moves, with a black pawn on (1,6), the generator offers white
    the castling move to (0,5), although the king is not in check before it
    and is attacked by that pawn after it. *)
Theorem castling_into_pawn_attack :
  exists board rights,
    replay createInitialBoard White (Some fullRights) pawnRaidGame
    = Some (board, rights) /\
    cell board 1 6 = Some (mkPiece Pawn Black) /\
    isKingInCheck board White = false /\
    In (castleKingSide White) (getValidMovesForColor board White rights None) /\
    isKingInCheck (applyMove board (castleKingSide White)) White = true.
Proof.
  destruct (replay createInitialBoard White (Some fullRights) pawnRaidGame)
    as [[board rights]|] eqn:E; [| vm_compute in E; discriminate].
  exists board, rights. split; [reflexivity |].
  vm_compute in E. injection E as <- <-.
  split; [vm_compute; reflexivity |].
  split; [vm_compute; reflexivity |].
  split; [| vm_compute; reflexivity].
  vm_compute. tauto.
Qed.

(** * What [applyMove] does to the number of pieces and squares *)

Lemma cells_applyMove (board : Board) (m : Move) :
  cells (applyMove board m) = cells board.
Proof.
  unfold applyMove.
  destruct (cell board _ _) as [pc|]; [| reflexivity].
  repeat match goal with
         | |- context [if ?b then _ else _] => destruct b
         end;
    repeat rewrite cells_setCell; reflexivity.
Qed.

(** A generated capture takes one piece off the board. *)
Lemma capture_takes_a_piece (board : Board) (c : PieceColor)
  (rights : option CastlingRights) (lastMove : option Move) (m : Move) :
  In m (getValidMovesForColor board c rights lastMove) ->
  isSome (captured m) = true ->
  (countPieces (applyMove board m) < countPieces board)%nat.
Proof.
  intros Hin Hcap.
  apply generated_move_origin in Hin. destruct Hin as [from0 [pc [Hfrom [_ Hin]]]].
  apply movesOfPiece_cases in Hin.
  destruct Hin as [[to0 [-> [Hto _]]] | [to0 [r0 [-> _]]]]; [| discriminate].
  simpl in Hcap. destruct (cell board (row to0) (col to0)) as [victim|] eqn:Hvictim;
    [| discriminate].
  unfold applyMove. cbn [from to isCastling isEnPassant andb].
  rewrite Hfrom.
  set (b1 := setCell board (row to0) (col to0) (Some pc)).
  set (b2 := setCell b1 (row from0) (col from0) None).
  assert (H1 : countPieces b1 = countPieces board).
  { pose proof (countPieces_setCell board _ _ (Some pc) _ Hvictim) as H.
    change (occ (Some pc)) with 1%nat in H. subst b1. lia. }
  assert (Hf1 : cell b1 (row from0) (col from0) = Some pc).
  { subst b1. destruct (Z.eq_dec (row to0) (row from0)) as [Hr | Hr];
      [destruct (Z.eq_dec (col to0) (col from0)) as [Hc | Hc] |].
    - rewrite <- Hr, <- Hc. eapply cell_setCell_same; eassumption.
    - rewrite cell_setCell_other; [exact Hfrom | congruence | |];
        unfold cell in Hfrom;
        destruct (0 <=? row from0) eqn:E1; destruct (0 <=? col from0) eqn:E2;
        try discriminate; apply Z.leb_le; assumption.
    - rewrite cell_setCell_other; [exact Hfrom | congruence | |];
        unfold cell in Hfrom;
        destruct (0 <=? row from0) eqn:E1; destruct (0 <=? col from0) eqn:E2;
        try discriminate; apply Z.leb_le; assumption. }
  assert (H2 : (countPieces b2 + 1 = countPieces board)%nat).
  { pose proof (countPieces_setCell b1 _ _ None _ Hf1) as H.
    change (occ None) with 0%nat in H. subst b2. lia. }
  destruct (PieceType_eqb (type pc) Pawn) eqn:Hpawn; [| lia].
  destruct (row to0 =? _); [| lia].
  apply PieceType_eqb_eq in Hpawn.
  unfold getValidMoves in Hto. rewrite Hpawn in Hto.
  apply getPawnMoves_changes_row in Hto.
  assert (Ht2 : cell b2 (row to0) (col to0) = Some pc).
  { subst b2. rewrite cell_setCell_other.
    - subst b1. eapply cell_setCell_same; eassumption.
    - congruence.
    - unfold cell in Hvictim. destruct (0 <=? row to0) eqn:E1; [| discriminate].
      apply Z.leb_le; assumption.
    - unfold cell in Hvictim. destruct (0 <=? row to0) eqn:E1;
        destruct (0 <=? col to0) eqn:E2; try discriminate.
      apply Z.leb_le; assumption. }
  pose proof (countPieces_setCell b2 _ _ (Some (mkPiece Queen (color pc))) _ Ht2) as H3.
  change (occ (Some _)) with 1%nat in H3. lia.
Qed.

(** * Reasoning about computations of the search monad *)

Lemma total_ret {A : Type} (a : A) (s : SearchState) (Q : A -> SearchState -> Prop) :
  Q a s -> total (ret a) s Q.
Proof. intros H. exists a, s. split; [reflexivity | exact H]. Qed.

Lemma total_bind {A B : Type} (m : M A) (f : A -> M B) (s : SearchState)
  (Q : B -> SearchState -> Prop) :
  total m s (fun a s' => total (f a) s' Q) -> total (bind m f) s Q.
Proof.
  intros [a [s' [Hm [b [s'' [Hf HQ]]]]]].
  exists b, s''. unfold bind. rewrite Hm. split; assumption.
Qed.

Lemma total_mono {A : Type} (m : M A) (s : SearchState)
  (Q Q' : A -> SearchState -> Prop) :
  total m s Q -> (forall a s', Q a s' -> Q' a s') -> total m s Q'.
Proof.
  intros [a [s' [Hm HQ]]] Himp. exists a, s'. split; [exact Hm | auto].
Qed.

Lemma total_gets {A : Type} (f : SearchState -> A) (s : SearchState)
  (Q : A -> SearchState -> Prop) :
  Q (f s) s -> total (gets f) s Q.
Proof. intros H. exists (f s), s. split; [reflexivity | exact H]. Qed.

(** The rule of the [for] loop: [I] holds of the loop variables and the state
    before each round, [QL] when the loop is left at its end or by [break],
    [QR] when the function returns from inside the loop. *)
Lemma total_forEach {X L R : Type} (body : X -> L -> M (Step L R))
  (I QL : L -> SearchState -> Prop) (QR : R -> SearchState -> Prop) (xs : list X) :
  (forall x l s, In x xs -> I l s ->
     total (body x l) s (fun step s' =>
       match step with
       | Continue l' => I l' s'
       | Break l' => QL l' s'
       | Return r0 => QR r0 s'
       end)) ->
  (forall l s, I l s -> QL l s) ->
  forall l s, I l s ->
    total (forEach body xs l) s (fun res s' =>
      match res with inl l' => QL l' s' | inr r0 => QR r0 s' end).
Proof.
  intros Hbody Hexit. induction xs as [|x rest IH]; intros l s HI; simpl.
  - apply total_ret. auto.
  - apply total_bind.
    eapply total_mono; [apply Hbody; [left; reflexivity | exact HI] |].
    intros [l' | l' | r0] s' H; simpl in H.
    + apply IH; [| exact H].
      intros x0 l0 s0 Hin. apply Hbody. right. exact Hin.
    + apply total_ret. exact H.
    + apply total_ret. exact H.
Qed.

Section SearchFacts.

Variable evaluate : Board -> PieceColor -> Num.
Variable budget : option (nat -> bool).
Variable rootColor : PieceColor.

Lemma frame_refl (s : SearchState) : frame budget s s.
Proof. repeat split; auto. Qed.

Lemma frame_trans (s1 s2 s3 : SearchState) :
  frame budget s1 s2 -> frame budget s2 s3 -> frame budget s1 s3.
Proof.
  intros [H1 [H2 H3]] [H4 [H5 H6]]. split; [congruence | split; auto].
Qed.

(** [isTimeExpired] answers with the flag [timeExpired] as it leaves it. *)
Lemma total_isTimeExpired (s : SearchState) :
  total (isTimeExpired budget) s (fun expired s' =>
    frame budget s s' /\ tables s' = tables s /\
    expired = timeExpired s').
Proof.
  unfold total, isTimeExpired, frame, neverExpires.
  destruct (timeExpired s) eqn:Hexp.
  - exists true, s. repeat split; auto; congruence.
  - destruct budget as [over|].
    + destruct (over (clockReads s)) eqn:Hover; eexists; eexists;
        (split; [reflexivity |]); simpl; repeat split; auto.
      intros Hcalm _. rewrite (Hcalm over eq_refl) in Hover. discriminate.
    + exists false, s. repeat split; auto.
Qed.

Lemma total_modifyTables (f : Tables -> Tables) (s : SearchState) :
  total (modifyTables f) s (fun _ s' => frame budget s s').
Proof.
  eexists; eexists. split; [reflexivity |]. repeat split; simpl; auto.
Qed.

End SearchFacts.

(** * Comparisons of scores *)

Ltac num_crush :=
  unfold Num_leb, Num_min, Num_max in *;
  repeat match goal with x : Num |- _ => destruct x end;
  simpl in *;
  repeat match goal with
         | H : context [?a <? ?b] |- _ =>
             let E := fresh "E" in
             destruct (a <? b) eqn:E;
             [apply Z.ltb_lt in E | apply Z.ltb_ge in E]; simpl in H
         | |- context [?a <? ?b] =>
             let E := fresh "E" in
             destruct (a <? b) eqn:E;
             [apply Z.ltb_lt in E | apply Z.ltb_ge in E]; simpl
         end;
  try discriminate; try reflexivity; try congruence; try lia.

Lemma Num_ltb_false_leb (x y : Num) : Num_ltb x y = false -> Num_leb y x = true.
Proof. unfold Num_leb. intros ->. reflexivity. Qed.

Lemma Num_leb_false_ltb (x y : Num) : Num_leb x y = false -> Num_ltb y x = true.
Proof. unfold Num_leb. intros H. apply negb_false_iff in H. exact H. Qed.

(** * Quiescence search *)

Section QuiescenceFacts.

Variable evaluate : Board -> PieceColor -> Num.
Variable budget : option (nat -> bool).
Variable rootColor : PieceColor.

(** With more fuel than pieces on the board, [quiescence] returns.  When
    the time has not expired by the end of the call, its result lies between
    the smaller of the standing-pat evaluation and [beta], and [beta]. *)
Lemma quiescence_total (fuel : nat) :
  forall (board : Board) (sideToMove : PieceColor) (alpha beta : Num)
         (rights : option CastlingRights) (s : SearchState),
    (countPieces board < fuel)%nat ->
    total (quiescence evaluate budget rootColor fuel board sideToMove alpha beta rights)
      s (fun v s' =>
           frame budget s s' /\
           (timeExpired s' = false -> Num_ltb alpha beta = true ->
            Num_leb (Num_min (standPatOf evaluate rootColor board sideToMove) beta) v = true /\
            Num_leb v beta = true)).
Proof.
  induction fuel as [|fuel IH]; intros board sideToMove alpha beta rights s Hfuel;
    [lia |].
  cbn [quiescence]. apply total_bind.
  eapply total_mono; [apply total_isTimeExpired |].
  intros expired s1 [Hf1 [_ Hflag1]]. cbv beta.
  destruct expired.
  { apply total_ret. split; [exact Hf1 |].
    intros He. congruence. }
  fold (standPatOf evaluate rootColor board sideToMove).
  set (standPat := standPatOf evaluate rootColor board sideToMove).
  destruct (Num_leb beta standPat) eqn:Hsp.
  { apply total_ret. split; [exact Hf1 |]. intros _ _.
    clear - Hsp. split; num_crush. }
  apply total_bind.
  set (alpha1 := if Num_ltb alpha standPat then standPat else alpha).
  eapply total_mono.
  { eapply (total_forEach _
              (fun a s' => frame budget s s' /\
                 (Num_ltb alpha beta = true ->
                  Num_leb standPat a = true /\ Num_ltb a beta = true))
              (fun a s' => frame budget s s' /\
                 (timeExpired s' = false -> Num_ltb alpha beta = true ->
                  Num_leb standPat a = true /\ Num_ltb a beta = true))
              (fun v s' => frame budget s s' /\ v = beta)).
    - intros move a s2 Hin [Hf2 Hinv].
      unfold quiescenceRound. apply total_bind.
      eapply total_mono; [apply total_isTimeExpired |].
      intros expired s3 [Hf3 [_ Hflag3]]. cbv beta.
      assert (Hf13 : frame budget s s3) by (eapply frame_trans; eassumption).
      destruct expired.
      { apply total_ret. split; [exact Hf13 |]. intros He. congruence. }
      apply total_bind.
      eapply total_mono.
      { apply IH.
        apply sortByScore_In in Hin. apply filter_In in Hin.
        destruct Hin as [Hgen Hcap].
        pose proof (capture_takes_a_piece _ _ _ _ _ Hgen Hcap). lia. }
      intros v s4 [Hf4 _]. cbv beta.
      assert (Hf14 : frame budget s s4) by (eapply frame_trans; eassumption).
      destruct (Num_leb beta (Num_neg v)) eqn:Hcut.
      { apply total_ret. split; [exact Hf14 | reflexivity]. }
      apply total_ret. split; [exact Hf14 |].
      intros Hab. specialize (Hinv Hab). destruct Hinv as [Hlo Hhi].
      apply Num_leb_false_ltb in Hcut.
      destruct (Num_ltb a (Num_neg v)) eqn:Hup.
      + split; [| exact Hcut].
        clear - Hlo Hup. generalize dependent (Num_neg v). intros w Hup. num_crush.
      + split; assumption.
    - intros a s2 [Hf2 Hinv]. split; [exact Hf2 |]. intros _. exact Hinv.
    - split; [exact Hf1 |]. intros Hab.
      apply Num_leb_false_ltb in Hsp. subst alpha1.
      clear - Hsp Hab. destruct (Num_ltb alpha standPat) eqn:E.
      + split; [num_crush | exact Hsp].
      + split; [apply Num_ltb_false_leb; exact E | exact Hab]. }
  intros [a | v] s2; cbv beta.
  - intros [Hf2 Hinv]. apply total_ret. split; [exact Hf2 |].
    intros He Hab. specialize (Hinv He Hab). destruct Hinv as [Hlo Hhi].
    clear - Hlo Hhi. split; num_crush.
  - intros [Hf2 ->]. apply total_ret. split; [exact Hf2 |].
    intros _ _. clear. split; num_crush.
Qed.

End QuiescenceFacts.

(** C9 (counterexample): white is a pawn up (standing pat is 100) and has no
    capture; with the window (0, 10) and no time limit the quiescence search
    returns 10, which is below the standing-pat evaluation. *)
Lemma quiescence_below_standing_pat :
  standPatOf material White pawnEnding White = Fin 100 /\
  filter (fun m => isSome (captured m))
         (getValidMovesForColor pawnEnding White None None) = [] /\
  quiescence material None White 4 pawnEnding White (Fin 0) (Fin 10) None startState
  = Some (Fin 10, startState) /\
  Num_ltb (Fin 10) (standPatOf material White pawnEnding White) = true.
Proof. repeat split; vm_compute; reflexivity. Qed.

(** C9 (amended): with [alpha < beta] and for every clock, the quiescence
    search returns, and when the time has not expired by the end of the call
    ([timeExpired] is still [false]), as it is whenever there is no time
    limit or the limit is never reached, the value returned is not below the
    smaller of the standing-pat evaluation and [beta], and not above
    [beta]. *)
Theorem quiescence_not_below_standing_pat_or_beta
  (evaluate : Board -> PieceColor -> Num) (budget : option (nat -> bool))
  (rootColor : PieceColor) (fuel : nat)
  (board : Board) (sideToMove : PieceColor) (alpha beta : Num)
  (rights : option CastlingRights) (s : SearchState) :
  wfBoard board ->
  (countPieces board < fuel)%nat ->
  timeExpired s = false ->
  Num_ltb alpha beta = true ->
  exists v s',
    quiescence evaluate budget rootColor fuel board sideToMove alpha beta rights s
    = Some (v, s') /\
    (neverExpires budget -> timeExpired s' = false) /\
    (timeExpired s' = false ->
     Num_leb (Num_min (Num_times (signOf rootColor sideToMove)
                                 (evaluate board rootColor)) beta)
             v = true /\
     Num_leb v beta = true).
Proof.
  intros _ Hfuel Hexp Hab.
  destruct (quiescence_total evaluate budget rootColor fuel board sideToMove alpha beta
              rights s Hfuel) as [v [s' [Hrun [[_ [_ Hcalm]] Hval]]]].
  exists v, s'. split; [exact Hrun |]. split.
  - intros Hnever. apply Hcalm; assumption.
  - intros He. apply Hval; assumption.
Qed.

Lemma quiescence_not_below_standing_pat_or_beta_witness :
  exists v s',
    quiescence material (Some (fun _ => false)) White 4 pawnEnding White
               (Fin 0) (Fin 500) None startState
    = Some (v, s') /\
    (neverExpires (Some (fun _ : nat => false)) -> timeExpired s' = false) /\
    (timeExpired s' = false ->
     Num_leb (Num_min (Num_times (signOf White White) (material pawnEnding White))
                      (Fin 500))
             v = true /\
     Num_leb v (Fin 500) = true).
Proof.
  apply quiescence_not_below_standing_pat_or_beta;
    [exact wfBoard_pawnEnding | vm_compute; lia | reflexivity | reflexivity].
Defined.

(** * Negamax *)

Section NegamaxFacts.

Variable evaluate : Board -> PieceColor -> Num.
Variable budget : option (nat -> bool).
Variable rootColor : PieceColor.

Lemma fuelFor_le (d d' : Z) (board : Board) :
  d <= d' -> (fuelFor d board <= fuelFor d' board)%nat.
Proof. unfold fuelFor. lia. Qed.

Lemma fuelFor_applyMove (d : Z) (board : Board) (m : Move) :
  fuelFor d (applyMove board m) = fuelFor d board.
Proof. unfold fuelFor. rewrite cells_applyMove. reflexivity. Qed.

(** One round of the move loop of [negamax] returns and keeps the frame,
    provided the recursive calls at smaller depth do. *)
Lemma negamaxRound_total
  (search : Board -> PieceColor -> Z -> Num -> Num -> option CastlingRights ->
            Z -> bool -> list string -> M Num)
  (board : Board) (sideToMove : PieceColor) (depth : Z) (beta : Num)
  (rights : option CastlingRights) (ply : Z) (inCheck : bool)
  (history : list string) (move : Move) (vars : NodeVars) (s : SearchState) :
  (forall c d a b0 r p n h s0, d < depth ->
     total (search (applyMove board move) c d a b0 r p n h) s0
           (fun _ s' => frame budget s0 s')) ->
  total (negamaxRound evaluate budget rootColor search board sideToMove depth beta
           rights ply inCheck history move vars)
    s (fun _ s' => frame budget s s').
Proof.
  intros Hsearch. unfold negamaxRound. apply total_bind.
  eapply total_mono; [apply total_isTimeExpired |].
  intros expired s1 [Hf1 _]. cbv beta.
  destruct expired; [apply total_ret; exact Hf1 |].
  apply total_bind.
  apply (total_mono _ _ (fun _ s' => frame budget s s')).
  { destruct (isThirdRepetition _ _); [apply total_ret; exact Hf1 |].
    destruct (movesSearched vars =? 0).
    - apply total_bind. eapply total_mono; [apply Hsearch; lia |].
      intros v s2 Hf2. apply total_ret. eapply frame_trans; eassumption.
    - apply total_bind. eapply total_mono.
      { apply Hsearch.
        destruct ((movesSearched vars >=? 4) && (depth >=? 3) && negb inCheck &&
                  negb (isSome (captured move)) && negb (isSome (promotion move)));
          lia. }
      intros v s2 Hf2. cbv beta.
      assert (Hf12 : frame budget s s2) by (eapply frame_trans; eassumption).
      destruct (_ && Num_ltb _ _); [| apply total_ret; exact Hf12].
      apply total_bind. eapply total_mono; [apply Hsearch; lia |].
      intros w s3 Hf3. apply total_ret. eapply frame_trans; eassumption. }
  intros score0 s2 Hf2. cbv beta.
  apply total_bind.
  apply (total_mono _ _ (fun _ s' => frame budget s s')).
  { destruct (_ && negb _); [| apply total_ret; exact Hf2].
    eapply total_mono; [apply total_modifyTables |].
    intros u s3 Hf3. cbv beta in Hf3. eapply frame_trans; eassumption. }
  intros u s3 Hf3. cbv beta.
  destruct (Num_leb beta _); apply total_ret; exact Hf3.
Qed.

(** With [fuelFor depth board] units of fuel, [negamax] returns; it never
    assigns the best move at the root. *)
Lemma negamax_total (fuel : nat) :
  forall (board : Board) (sideToMove : PieceColor) (depth : Z) (alpha beta : Num)
         (rights : option CastlingRights) (ply : Z) (allowNull : bool)
         (history : list string) (s : SearchState),
    (fuelFor depth board <= fuel)%nat ->
    total (negamax evaluate budget rootColor fuel board sideToMove depth alpha beta
             rights ply allowNull history)
      s (fun _ s' => frame budget s s').
Proof.
  induction fuel as [|fuel IH];
    intros board sideToMove depth alpha beta rights ply allowNull history s Hfuel;
    [unfold fuelFor in Hfuel; lia |].
  cbn [negamax]. apply total_bind.
  eapply total_mono; [apply total_isTimeExpired |].
  intros expired s1 [Hf1 _]. cbv beta.
  destruct expired; [apply total_ret; exact Hf1 |].
  apply total_bind. apply total_gets.
  destruct (Num_leb _ _); [apply total_ret; exact Hf1 |].
  destruct (ttCutoff _ _ _ _); [apply total_ret; exact Hf1 |].
  destruct (depth <=? 0) eqn:Hd.
  { eapply total_mono.
    - apply quiescence_total.
      pose proof (countPieces_le_cells board). unfold fuelFor in Hfuel. lia.
    - intros v s2 [Hf2 _]. eapply frame_trans; eassumption. }
  apply Z.leb_gt in Hd.
  assert (Hrec : forall b c d a b0 r p n h s0, d < depth -> cells b = cells board ->
            total (negamax evaluate budget rootColor fuel b c d a b0 r p n h) s0
                  (fun _ s' => frame budget s0 s')).
  { intros b c d a b0 r p n h s0 Hlt Hcells. apply IH.
    unfold fuelFor in *. rewrite Hcells. lia. }
  destruct (getValidMovesForColor board sideToMove rights None) as [|m0 rest] eqn:Hmoves;
    [apply total_ret; exact Hf1 |].
  apply total_bind.
  apply (total_mono _ _ (fun _ s' => frame budget s s')).
  { destruct (allowNull && _ && _); [| apply total_ret; exact Hf1].
    apply total_bind. eapply total_mono; [apply Hrec; [lia | reflexivity] |].
    intros v s2 Hf2. apply total_ret. eapply frame_trans; eassumption. }
  intros nullCut s2 Hf2. cbv beta.
  destruct nullCut; [apply total_ret; exact Hf2 |].
  apply total_bind. apply total_gets.
  apply total_bind.
  eapply total_mono.
  { eapply (total_forEach _ (fun _ s' => frame budget s s')
              (fun _ s' => frame budget s s') (fun _ s' => frame budget s s')).
    - intros move vars s3 _ Hf3.
      eapply total_mono.
      + apply negamaxRound_total.
        intros c d a b0 r p n h s0 Hlt.
        apply Hrec; [exact Hlt | apply cells_applyMove].
      + intros step s4 Hf4. destruct step; eapply frame_trans; eassumption.
    - auto.
    - exact Hf2. }
  intros [vars | v] s3 Hf3; cbv beta; [| apply total_ret; exact Hf3].
  apply total_bind.
  eapply total_mono; [apply total_isTimeExpired |].
  intros expired s4 [Hf4 _]. cbv beta.
  assert (Hf04 : frame budget s s4) by (eapply frame_trans; eassumption).
  apply total_bind.
  apply (total_mono _ _ (fun _ s' => frame budget s s')).
  { destruct expired; [apply total_ret; exact Hf04 |].
    eapply total_mono; [apply total_modifyTables |].
    intros u s5 Hf5. cbv beta in Hf5. eapply frame_trans; eassumption. }
  intros u s5 Hf5. apply total_ret. exact Hf5.
Qed.

End NegamaxFacts.

(** C10: a side without a king is never reported in check, and an interior
    node of the search ([depth > 0], no time expiry, open window, no
    transposition cutoff) at which that side has no legal move scores the
    position 0 (stalemate), not as a mate. *)
Theorem kingless_side_not_in_check_scores_stalemate
  (evaluate : Board -> PieceColor -> Num) (budget : option (nat -> bool))
  (rootColor : PieceColor) (board : Board) (sideToMove : PieceColor)
  (Hwf : wfBoard board)
  (Hking : findKing board sideToMove = None) :
  isKingInCheck board sideToMove = false /\
  forall (fuel : nat) (depth : Z) (alpha beta : Num)
         (rights : option CastlingRights) (ply : Z) (allowNull : bool)
         (history : list string) (s s1 : SearchState),
    getValidMovesForColor board sideToMove rights None = [] ->
    0 < depth ->
    isTimeExpired budget s = Some (false, s1) ->
    Num_ltb (Num_max alpha (Fin (- mateValue + ply)))
            (Num_min beta (Fin (mateValue - ply - 1))) = true ->
    ttCutoff (ttGet (hashPosition board sideToMove rights)
                    (transpositionTable (tables s1)))
             depth (Num_max alpha (Fin (- mateValue + ply)))
             (Num_min beta (Fin (mateValue - ply - 1))) = None ->
    negamax evaluate budget rootColor (S fuel) board sideToMove depth alpha beta
            rights ply allowNull history s = Some (Fin 0, s1).
Proof.
  assert (Hcheck : isKingInCheck board sideToMove = false)
    by (unfold isKingInCheck; rewrite Hking; reflexivity).
  split; [exact Hcheck |].
  intros fuel depth alpha beta rights ply allowNull history s s1
         Hmoves Hdepth Htime Hwin Htt.
  cbn [negamax]. unfold bind at 1. rewrite Htime.
  unfold bind at 1. unfold gets at 1.
  unfold Num_leb. rewrite Hwin. cbn [negb].
  rewrite Htt.
  assert (Hd : (depth <=? 0) = false) by (apply Z.leb_gt; lia).
  rewrite Hd, Hmoves, Hcheck. reflexivity.
Qed.

Lemma kingless_side_not_in_check_scores_stalemate_witness :
  wfBoard loneBlackKing /\ findKing loneBlackKing White = None /\
  isKingInCheck loneBlackKing White = false /\
  negamax material None White 1 loneBlackKing White 1 NegInf PosInf None 0 true []
          startState = Some (Fin 0, startState).
Proof.
  split; [exact wfBoard_loneBlackKing |].
  split; [vm_compute; reflexivity |].
  pose proof (kingless_side_not_in_check_scores_stalemate
                material None White loneBlackKing White
                wfBoard_loneBlackKing eq_refl) as [Hcheck Hscore].
  split; [exact Hcheck |].
  apply Hscore;
    [vm_compute; reflexivity | lia | reflexivity | reflexivity
    | vm_compute; reflexivity].
Defined.

(** * Root search and iterative deepening *)

Section RootFacts.

Variable evaluate : Board -> PieceColor -> Num.
Variable budget : option (nat -> bool).
Variable rootColor : PieceColor.

Lemma rootInv_frame (legal : list Move) (s s' : SearchState) :
  frame budget s s' -> rootInv legal s -> rootInv legal s'.
Proof. unfold rootInv. intros [H _]. rewrite H. auto. Qed.

Lemma searchRootRound_total (fuel : nat) (board : Board) (color0 : PieceColor)
  (rights : option CastlingRights) (depth : Z) (beta : Num) (history : list string)
  (legal : list Move) (move : Move) (vars : RootVars) (s : SearchState) :
  (fuelFor (depth - 1) board <= fuel)%nat ->
  In move legal -> rootInv legal s ->
  total (searchRootRound evaluate budget rootColor fuel board color0 rights depth
           beta history move vars)
    s (fun _ s' => rootInv legal s').
Proof.
  intros Hfuel Hin Hinv. unfold searchRootRound. apply total_bind.
  eapply total_mono; [apply total_isTimeExpired |].
  intros expired s1 [Hf1 _]. cbv beta.
  assert (Hinv1 : rootInv legal s1) by (eapply rootInv_frame; eassumption).
  destruct expired; [apply total_ret; exact Hinv1 |].
  assert (Hneg : forall c a b0 r p n h s0,
            total (negamax evaluate budget rootColor fuel (applyMove board move)
                     c (depth - 1) a b0 r p n h) s0
                  (fun _ s' => frame budget s0 s')).
  { intros. apply negamax_total. rewrite fuelFor_applyMove. exact Hfuel. }
  apply total_bind.
  apply (total_mono _ _ (fun _ s' => rootInv legal s')).
  { destruct (isThirdRepetition _ _); [apply total_ret; exact Hinv1 |].
    apply total_bind. eapply total_mono; [apply Hneg |].
    intros v s2 Hf2. cbv beta in Hf2 |- *.
    assert (Hinv2 : rootInv legal s2) by (eapply rootInv_frame; eassumption).
    destruct (_ && (depth >? 3)); [| apply total_ret; exact Hinv2].
    apply total_bind. eapply total_mono; [apply Hneg |].
    intros w s3 Hf3. cbv beta in Hf3. apply total_ret.
    eapply rootInv_frame; eassumption. }
  intros score0 s2 Hinv2. cbv beta.
  apply total_bind.
  apply (total_mono _ _ (fun _ s' => rootInv legal s')).
  { destruct (Num_ltb _ score0); [| apply total_ret; exact Hinv2].
    eexists; eexists. split; [reflexivity | exact Hin]. }
  intros u s3 Hinv3. cbv beta.
  destruct (Num_leb beta _); apply total_ret; exact Hinv3.
Qed.

Lemma searchRoot_total (fuel : nat) (board : Board) (color0 : PieceColor)
  (rights : option CastlingRights) (depth : Z) (history : list string)
  (s : SearchState) :
  (fuelFor (depth - 1) board <= fuel)%nat ->
  rootInv (getValidMovesForColor board color0 rights None) s ->
  total (searchRoot evaluate budget rootColor fuel board color0 rights depth history)
    s (fun _ s' => rootInv (getValidMovesForColor board color0 rights None) s').
Proof.
  intros Hfuel Hinv. unfold searchRoot.
  set (legal := getValidMovesForColor board color0 rights None) in *.
  apply total_bind.
  eapply total_mono; [apply total_isTimeExpired |].
  intros expired s1 [Hf1 _]. cbv beta.
  assert (Hinv1 : rootInv legal s1) by (eapply rootInv_frame; eassumption).
  destruct expired; [apply total_gets; exact Hinv1 |].
  destruct legal as [|m0 rest] eqn:Hlegal; [apply total_ret; exact Hinv1 |].
  rewrite <- Hlegal in *.
  apply total_bind. apply total_gets.
  apply total_bind. apply total_gets.
  apply total_bind. apply total_gets.
  apply total_bind.
  eapply total_mono.
  { eapply (total_forEach _ (fun _ s' => rootInv legal s')
              (fun _ s' => rootInv legal s') (fun _ s' => rootInv legal s')).
    - intros move vars s2 Hin Hinv2.
      eapply total_mono.
      + apply searchRootRound_total; [exact Hfuel | | exact Hinv2].
        unfold orderMoves in Hin. apply sortByScore_In in Hin.
        rewrite Hlegal in Hin. rewrite Hlegal. exact Hin.
      + intros step s3 H. destruct step; exact H.
    - auto.
    - exact Hinv1. }
  intros res s2 H. cbv beta. apply total_gets. destruct res; exact H.
Qed.

Lemma deepen_total (fuel : nat) (board : Board) (color0 : PieceColor)
  (rights : option CastlingRights) (baseHistory : list string) (remaining : nat) :
  forall (currentDepth : Z) (s : SearchState),
    (fuelFor (currentDepth + Z.of_nat remaining - 2) board <= fuel)%nat ->
    rootInv (getValidMovesForColor board color0 rights None) s ->
    total (deepen evaluate budget rootColor fuel board color0 rights baseHistory
             remaining currentDepth)
      s (fun _ s' => rootInv (getValidMovesForColor board color0 rights None) s').
Proof.
  set (legal := getValidMovesForColor board color0 rights None).
  induction remaining as [|remaining IH]; intros currentDepth s Hfuel Hinv;
    cbn [deepen]; [apply total_ret; exact Hinv |].
  apply total_bind.
  eapply total_mono; [apply total_isTimeExpired |].
  intros expired s1 [Hf1 _]. cbv beta.
  assert (Hinv1 : rootInv legal s1) by (eapply rootInv_frame; eassumption).
  destruct expired; [apply total_ret; exact Hinv1 |].
  apply total_bind. apply total_gets.
  apply total_bind.
  eapply total_mono.
  { apply searchRoot_total; [| exact Hinv1].
    eapply Nat.le_trans; [| exact Hfuel]. apply fuelFor_le. lia. }
  intros u s2 Hinv2. cbv beta. fold legal in Hinv2.
  apply total_bind.
  eapply total_mono; [apply total_isTimeExpired |].
  intros expired s3 [Hf3 _]. cbv beta.
  assert (Hinv3 : rootInv legal s3) by (eapply rootInv_frame; eassumption).
  destruct (expired && (currentDepth >? 1)).
  { eexists; eexists. split; [reflexivity | exact Hinv1]. }
  apply total_bind. apply total_gets.
  apply total_bind. apply total_gets.
  destruct (isSome _ && _); [apply total_ret; exact Hinv3 |].
  apply IH; [| exact Hinv3].
  eapply Nat.le_trans; [| exact Hfuel]. apply fuelFor_le. lia.
Qed.

End RootFacts.

(** [myMinimaxMove] returns; its result is [null] or a legal move, and is
    [null] only without legal moves. *)
Lemma myMinimaxMove_returns (fuel : nat) (t : Tables) (board : Board)
  (color0 : PieceColor) (depth : Z) (evaluate : Board -> PieceColor -> Num)
  (budget : option (nat -> bool)) (rights : option CastlingRights)
  (positionHistory : option (list string)) :
  (enoughFuel board depth <= fuel)%nat ->
  exists r t',
    myMinimaxMove fuel t board color0 depth evaluate budget rights positionHistory
    = Some (r, t') /\
    okBest (getValidMovesForColor board color0 rights None) r.
Proof.
  intros Hfuel. unfold myMinimaxMove.
  set (legal := getValidMovesForColor board color0 rights None).
  set (depth' := if depth =? 0 then 1000 else depth) in *.
  match goal with
  | |- context [deepen ?e ?b ?rc ?f ?bd ?c ?r ?h ?n ?d ?s] =>
      destruct (deepen_total e b rc f bd c r h n d s) as [u [s' [Hrun Hinv]]]
  end.
  - unfold enoughFuel in Hfuel. fold depth' in Hfuel. unfold fuelFor in *. lia.
  - unfold rootInv, okBest; simpl. fold legal.
    destruct legal as [|m0 rest]; simpl; auto.
  - rewrite Hrun. exists (bestMoveAtRoot s'), (tables s').
    split; [reflexivity | exact Hinv].
Qed.

(** When the budget is already used up at the first look at the clock, the
    deepening loop leaves the state's best move alone. *)
Lemma deepen_expired_at_once (evaluate : Board -> PieceColor -> Num)
  (over : nat -> bool) (rootColor : PieceColor) (fuel : nat) (board : Board)
  (color0 : PieceColor) (rights : option CastlingRights) (baseHistory : list string)
  (remaining : nat) (currentDepth : Z) (s : SearchState) :
  timeExpired s = false -> over (clockReads s) = true ->
  exists s',
    deepen evaluate (Some over) rootColor fuel board color0 rights baseHistory
           remaining currentDepth s = Some (tt, s') /\
    bestMoveAtRoot s' = bestMoveAtRoot s.
Proof.
  intros Hexp Hover. destruct remaining as [|remaining]; cbn [deepen].
  - exists s. split; reflexivity.
  - unfold bind, isTimeExpired. rewrite Hexp, Hover.
    eexists. split; reflexivity.
Qed.

(** Measured by the generator: [myMinimaxMove] returns [null] exactly when
    [getValidMovesForColor] returns no move; otherwise it returns one of the
    generated moves, whatever the clock does, and the first generated move
    when the budget is already used up at the first look at the clock. *)
Lemma myMinimaxMove_null_iff_generator_empty (fuel : nat) (t : Tables)
  (board : Board) (color0 : PieceColor) (depth : Z)
  (evaluate : Board -> PieceColor -> Num) (budget : option (nat -> bool))
  (rights : option CastlingRights) (positionHistory : option (list string)) :
  wfBoard board ->
  (enoughFuel board depth <= fuel)%nat ->
  exists r t',
    myMinimaxMove fuel t board color0 depth evaluate budget rights positionHistory
    = Some (r, t') /\
    (r = None <-> getValidMovesForColor board color0 rights None = []) /\
    (getValidMovesForColor board color0 rights None <> [] ->
     exists m, r = Some m /\ In m (getValidMovesForColor board color0 rights None)) /\
    (forall over, budget = Some over -> over 0%nat = true ->
     r = hd_error (getValidMovesForColor board color0 rights None)).
Proof.
  intros _ Hfuel.
  destruct (myMinimaxMove_returns fuel t board color0 depth evaluate budget rights
              positionHistory Hfuel) as [r [t' [Hrun Hok]]].
  exists r, t'. split; [exact Hrun |].
  set (legal := getValidMovesForColor board color0 rights None) in *.
  unfold okBest in Hok. repeat split.
  - intros ->. exact Hok.
  - intros Hnil. destruct r as [m|]; [| reflexivity].
    rewrite Hnil in Hok. contradiction.
  - intros Hne. destruct r as [m|]; [exists m; auto | contradiction].
  - intros over -> Hover. unfold myMinimaxMove in Hrun. fold legal in Hrun.
    match type of Hrun with
    | context [deepen ?e _ ?rc ?f ?bd ?c ?rr ?h ?n ?d ?s] =>
        destruct (deepen_expired_at_once e over rc f bd c rr h n d s eq_refl Hover)
          as [s' [Hd Hbest]]
    end.
    rewrite Hd in Hrun. injection Hrun as <- _. exact Hbest.
Qed.

Lemma myMinimaxMove_null_iff_generator_empty_witness :
  wfBoard pawnEnding /\ (enoughFuel pawnEnding 1 <= 67)%nat /\
  exists r t',
    myMinimaxMove 67 initialTables pawnEnding White 1 material
                  (Some (fun _ => true)) None None = Some (r, t') /\
    (r = None <-> getValidMovesForColor pawnEnding White None None = []) /\
    (getValidMovesForColor pawnEnding White None None <> [] ->
     exists m, r = Some m /\ In m (getValidMovesForColor pawnEnding White None None)) /\
    (forall over, Some (fun _ : nat => true) = Some over -> over 0%nat = true ->
     r = hd_error (getValidMovesForColor pawnEnding White None None)).
Proof.
  split; [exact wfBoard_pawnEnding |].
  split; [vm_compute; lia |].
  apply myMinimaxMove_null_iff_generator_empty;
    [exact wfBoard_pawnEnding | vm_compute; lia].
Defined.


(** * Searching the same position twice *)

(** C8 (counterexample): the same search run twice in a row, without time
    limit and with a noise-free evaluation, first chooses the pawn move
    (1,0)-(2,0) and then, on the tables the first run left behind, the king
    move (1,7)-(0,6). *)
Lemma second_search_chooses_another_move :
  option_map fst firstSearch =
    Some (Some (mkMove (mkPos 1 0) (mkPos 2 0) (mkPiece Pawn White) None None false false)) /\
  option_map fst secondSearch =
    Some (Some (mkMove (mkPos 1 7) (mkPos 0 6) (mkPiece King White) None None false false)).
Proof. split; vm_compute; reflexivity. Qed.

(** The transposition table alone changes the choice.  Two searches of
    four plies that start from tables differing in nothing but the
    transposition table (empty, or left over from an earlier search of the
    same position) return different moves. *)
Lemma transposition_table_changes_choice :
  option_map fst
    (myMinimaxMove 80 (withTable []) pawnEnding White 4 material None None None) =
    Some (Some (mkMove (mkPos 1 7) (mkPos 0 6) (mkPiece King White) None None false false)) /\
  option_map fst
    (myMinimaxMove 80 (withTable leftOverTable) pawnEnding White 4 material None None None) =
    Some (Some (mkMove (mkPos 1 0) (mkPos 2 0) (mkPiece Pawn White) None None false false)).
Proof. split; vm_compute; reflexivity. Qed.

Lemma clearKillers_same (tt0 : TT) (age0 : Z) (k1 k2 : list (list Move))
  (h : list (list (list (list Z)))) :
  length k1 = length k2 ->
  clearKillers (mkTables tt0 age0 k1 h) = clearKillers (mkTables tt0 age0 k2 h).
Proof.
  intros Hlen. unfold clearKillers; simpl. f_equal.
  revert k2 Hlen. induction k1 as [|x tl IH]; intros [|y tl2] Hlen; simpl in *;
    try discriminate; [reflexivity |].
  f_equal. apply IH. congruence.
Qed.

(** C8 (amended): two searches with identical inputs and no time limit that
    start from the same transposition table, age counter and history table
    return the same move and leave the same tables: killer moves left over
    from earlier searches have no influence, since every search clears them
    first. *)
Theorem choice_independent_of_left_over_killers (fuel : nat) (t1 t2 : Tables)
  (board : Board) (color0 : PieceColor) (depth : Z)
  (evaluate : Board -> PieceColor -> Num) (rights : option CastlingRights)
  (positionHistory : option (list string)) :
  wfBoard board ->
  (enoughFuel board depth <= fuel)%nat ->
  transpositionTable t1 = transpositionTable t2 ->
  currentAge t1 = currentAge t2 ->
  historyTable t1 = historyTable t2 ->
  length (killerMoves t1) = length (killerMoves t2) ->
  exists r t',
    myMinimaxMove fuel t1 board color0 depth evaluate None rights positionHistory
    = Some (r, t') /\
    myMinimaxMove fuel t2 board color0 depth evaluate None rights positionHistory
    = Some (r, t').
Proof.
  intros _ Hfuel Htt Hage Hhist Hlen.
  destruct (myMinimaxMove_returns fuel t1 board color0 depth evaluate None rights
              positionHistory Hfuel) as [r [t' [Hrun _]]].
  exists r, t'. split; [exact Hrun |].
  rewrite <- Hrun. unfold myMinimaxMove.
  rewrite <- Htt, <- Hage, <- Hhist.
  rewrite (clearKillers_same _ _ (killerMoves t2) (killerMoves t1)) by congruence.
  reflexivity.
Qed.

Lemma choice_independent_of_left_over_killers_witness :
  exists r t',
    myMinimaxMove 67 initialTables pawnEnding White 1 material None None None
    = Some (r, t') /\
    myMinimaxMove 67 staleKillers pawnEnding White 1 material None None None
    = Some (r, t').
Proof.
  apply choice_independent_of_left_over_killers;
    [exact wfBoard_pawnEnding | vm_compute; lia | reflexivity | reflexivity
    | reflexivity | reflexivity].
Defined.

(** * More on the pseudo-legal generators *)

Lemma PieceColor_eqb_neq (x y : PieceColor) : PieceColor_eqb x y = false <-> x <> y.
Proof. destruct x, y; simpl; split; congruence. Qed.

Lemma offsetMoves_In (offsets : list (Z * Z)) (board : Board) (from0 to0 : Position)
  (c : PieceColor) :
  In to0 (offsetMoves offsets board from0 c) <->
  exists off, In off offsets /\
    to0 = mkPos (row from0 + fst off) (col from0 + snd off) /\
    isValidPosition to0 = true /\ freeFor board to0 c.
Proof.
  unfold offsetMoves, freeFor. rewrite in_flat_map. split.
  - intros [off [Hoff H]]. exists off. split; [exact Hoff |].
    cbv zeta in H.
    set (pos := mkPos (row from0 + fst off) (col from0 + snd off)) in *.
    destruct (isValidPosition pos) eqn:V; [| contradiction].
    destruct (cell board (row pos) (col pos)) as [t|] eqn:Ht.
    + destruct (negb (PieceColor_eqb (color t) c)) eqn:Hc; [| contradiction].
      destruct H as [<- | []]. repeat split; auto.
      intros t' Ht'. rewrite Ht in Ht'. injection Ht' as <-.
      apply PieceColor_eqb_neq. apply negb_true_iff. exact Hc.
    + destruct H as [<- | []]. repeat split; auto.
      intros t' Ht'. rewrite Ht in Ht'. discriminate.
  - intros [off [Hoff [-> [V Hfree]]]]. exists off. split; [exact Hoff |].
    cbv zeta. rewrite V.
    destruct (cell board _ _) as [t|] eqn:Ht; [| left; reflexivity].
    specialize (Hfree t eq_refl). apply PieceColor_eqb_neq in Hfree.
    rewrite Hfree. left. reflexivity.
Qed.

(** A ray reaches a square when it lies a number of steps along the ray, on
    the board, with only empty squares before it, and is itself free. *)
Lemma ray_In (board : Board) (c : PieceColor) (dr dc : Z) (to0 : Position) :
  forall (rounds : nat) (r0 c0 : Z),
    In to0 (ray rounds board c r0 c0 dr dc) ->
    exists k : Z, 0 <= k < Z.of_nat rounds /\
      to0 = mkPos (r0 + k * dr) (c0 + k * dc) /\
      isValidPosition to0 = true /\ freeFor board to0 c /\
      forall j, 0 <= j < k -> cell board (r0 + j * dr) (c0 + j * dc) = None.
Proof.
  induction rounds as [|rounds IH]; intros r0 c0 H; simpl in H; [contradiction |].
  destruct (isValidPosition (mkPos r0 c0)) eqn:V; [| contradiction].
  destruct (cell board r0 c0) as [t|] eqn:Ht.
  - destruct (negb (PieceColor_eqb (color t) c)) eqn:Hc; [| contradiction].
    destruct H as [<- | []]. exists 0.
    split; [lia |]. split; [f_equal; lia |]. split; [exact V |].
    split; [| intros j Hj; lia].
    intros t' Ht'. simpl in Ht'. rewrite Ht in Ht'. injection Ht' as <-.
    apply PieceColor_eqb_neq. apply negb_true_iff. exact Hc.
  - destruct H as [<- | H].
    + exists 0. split; [lia |]. split; [f_equal; lia |]. split; [exact V |].
      split; [| intros j Hj; lia].
      intros t' Ht'. simpl in Ht'. rewrite Ht in Ht'. discriminate.
    + apply IH in H. destruct H as [k [Hk [-> [V' [Hfree Hpath]]]]].
      exists (k + 1). split; [lia |]. split; [f_equal; lia |].
      split; [exact V' |]. split; [exact Hfree |].
      intros j Hj. destruct (Z.eq_dec j 0) as [-> | Hne].
      * rewrite !Z.mul_0_l, !Z.add_0_r. exact Ht.
      * specialize (Hpath (j - 1) ltac:(lia)).
        replace (r0 + j * dr) with (r0 + dr + (j - 1) * dr) by lia.
        replace (c0 + j * dc) with (c0 + dc + (j - 1) * dc) by lia.
        exact Hpath.
Qed.

Lemma getLinearMoves_In (board : Board) (from0 to0 : Position) (c : PieceColor)
  (directions : list (Z * Z)) :
  In to0 (getLinearMoves board from0 c directions) ->
  exists dir k, In dir directions /\ 1 <= k /\
    to0 = mkPos (row from0 + k * fst dir) (col from0 + k * snd dir) /\
    isValidPosition to0 = true /\ freeFor board to0 c /\
    forall j, 1 <= j < k ->
      cell board (row from0 + j * fst dir) (col from0 + j * snd dir) = None.
Proof.
  unfold getLinearMoves. intros H. apply in_flat_map in H.
  destruct H as [dir [Hdir H]]. apply ray_In in H.
  destruct H as [k [Hk [-> [V [Hfree Hpath]]]]].
  exists dir, (k + 1). split; [exact Hdir |]. split; [lia |].
  split; [f_equal; lia |]. split; [exact V |]. split; [exact Hfree |].
  intros j Hj. specialize (Hpath (j - 1) ltac:(lia)).
  replace (row from0 + j * fst dir) with (row from0 + fst dir + (j - 1) * fst dir) by lia.
  replace (col from0 + j * snd dir) with (col from0 + snd dir + (j - 1) * snd dir) by lia.
  exact Hpath.
Qed.

(** The moves of a pawn, exactly. *)
Lemma getPawnMoves_In (board : Board) (from0 to0 : Position) (c : PieceColor) :
  In to0 (getPawnMoves board from0 c) <->
  isValidPosition to0 = true /\
  ((col to0 = col from0 /\ cell board (row to0) (col to0) = None /\
    (row to0 = row from0 + pawnDirection c \/
     (row to0 = row from0 + 2 * pawnDirection c /\ row from0 = pawnStartRow c /\
      cell board (row from0 + pawnDirection c) (col from0) = None))) \/
   ((col to0 = col from0 - 1 \/ col to0 = col from0 + 1) /\
    row to0 = row from0 + pawnDirection c /\
    exists t, cell board (row to0) (col to0) = Some t /\ color t <> c)).
Proof.
  unfold getPawnMoves. fold (pawnDirection c). fold (pawnStartRow c). cbv zeta.
  rewrite in_app_iff. split.
  - intros [H | H].
    + destruct (isValidPosition (mkPos (row from0 + pawnDirection c) (col from0)))
        eqn:V1; [| contradiction].
      cbn [row col] in H.
      destruct (cell board (row from0 + pawnDirection c) (col from0)) eqn:E1;
        [contradiction |].
      destruct H as [<- | H]; [cbn [row col]; auto 10 |].
      destruct (row from0 =? pawnStartRow c) eqn:Hs; [| contradiction].
      apply Z.eqb_eq in Hs.
      destruct (isValidPosition (mkPos (row from0 + 2 * pawnDirection c) (col from0)))
        eqn:V2; [| contradiction].
      destruct (cell board (row from0 + 2 * pawnDirection c) (col from0)) eqn:E2;
        [contradiction |].
      destruct H as [<- | []]. cbn [row col]. auto 10.
    + apply in_flat_map in H. destruct H as [pos [Hpos H]].
      destruct (isValidPosition pos) eqn:V; [| contradiction].
      destruct (cell board (row pos) (col pos)) as [t|] eqn:Ht; [| contradiction].
      destruct (negb (PieceColor_eqb (color t) c)) eqn:Hc; [| contradiction].
      destruct H as [<- | []]. split; [exact V |]. right.
      apply negb_true_iff in Hc. apply PieceColor_eqb_neq in Hc.
      destruct Hpos as [<- | [<- | []]]; cbn [row col] in *; eauto 10.
  - intros [V [[Hcol [Hempty Hrow]] | [Hcol [Hrow [t [Ht Hc]]]]]].
    + left. destruct to0 as [tr tc]. cbn [row col] in *. subst tc.
      destruct Hrow as [-> | [-> [Hs Hmid]]].
      * rewrite V, Hempty. left. reflexivity.
      * assert (V1 : isValidPosition (mkPos (row from0 + pawnDirection c) (col from0))
                     = true).
        { unfold isValidPosition in *. cbn [row col] in *.
          rewrite !andb_true_iff, !Z.geb_le, !Z.ltb_lt in *.
          rewrite Hs in *. destruct c; cbn [pawnDirection pawnStartRow] in *; lia. }
        rewrite V1, Hmid. right.
        apply Z.eqb_eq in Hs. rewrite Hs, V, Hempty. left. reflexivity.
    + right. apply in_flat_map. exists to0. split.
      * destruct to0 as [tr tc]. cbn [row col] in *. subst tr.
        destruct Hcol as [-> | ->]; [left | right; left]; reflexivity.
      * rewrite V, Ht. apply PieceColor_eqb_neq in Hc. rewrite Hc. left. reflexivity.
Qed.

Lemma In_eight (x : Z) : In x eight <-> 0 <= x < 8.
Proof.
  unfold eight. simpl. split; [intros H; lia |].
  intros H.
  assert (x = 0 \/ x = 1 \/ x = 2 \/ x = 3 \/ x = 4 \/ x = 5 \/ x = 6 \/ x = 7) by lia.
  intuition auto.
Qed.

Lemma squares_In (pos : Position) : In pos squares <-> isValidPosition pos = true.
Proof.
  destruct pos as [r c]. rewrite isValidPosition_bounds. unfold squares.
  rewrite in_flat_map. split.
  - intros [r0 [Hr H]]. apply in_map_iff in H. destruct H as [c0 [E Hc]].
    injection E as <- <-. apply In_eight in Hr, Hc. auto.
  - intros [Hr Hc]. exists r. split; [apply In_eight; exact Hr |].
    apply in_map. apply In_eight. exact Hc.
Qed.

Lemma isPieceOf_true (t : PieceType) (c : PieceColor) (sq : option Piece) :
  isPieceOf t c sq = true <-> sq = Some (mkPiece t c).
Proof.
  unfold isPieceOf. destruct sq as [[t0 c0]|]; simpl.
  - rewrite andb_true_iff, PieceType_eqb_eq, PieceColor_eqb_eq.
    split; [intros [-> ->]; reflexivity | intros H; injection H as -> ->; auto].
  - split; discriminate.
Qed.

Lemma getValidMoves_target (board : Board) (from0 to0 : Position) (pc : Piece) :
  In to0 (getValidMoves board from0 pc) ->
  isValidPosition to0 = true /\
  forall t, cell board (row to0) (col to0) = Some t -> color t <> color pc.
Proof.
  unfold getValidMoves. intros H.
  destruct (type pc).
  - apply getPawnMoves_In in H. destruct H as [V H]. split; [exact V |].
    intros t Ht. destruct H as [[_ [He _]] | [_ [_ [t' [Ht' Hc]]]]]; congruence.
  - apply offsetMoves_In in H. destruct H as [off [_ [_ [V Hfree]]]]. auto.
  - apply getLinearMoves_In in H. destruct H as [dir [k [_ [_ [_ [V [Hfree _]]]]]]]. auto.
  - apply getLinearMoves_In in H. destruct H as [dir [k [_ [_ [_ [V [Hfree _]]]]]]]. auto.
  - apply getLinearMoves_In in H. destruct H as [dir [k [_ [_ [_ [V [Hfree _]]]]]]]. auto.
  - apply offsetMoves_In in H. destruct H as [off [_ [_ [V Hfree]]]]. auto.
Qed.

(** X1 (generators): a pseudo-legal move never leaves the board and never
    lands on a piece of the mover's colour. *)
Theorem getValidMoves_on_board_and_free (board : Board) (from0 to0 : Position)
  (pc : Piece) :
  In to0 (getValidMoves board from0 pc) ->
  isValidPosition to0 = true /\
  forall t, cell board (row to0) (col to0) = Some t -> color t <> color pc.
Proof. apply getValidMoves_target. Qed.

Lemma getValidMoves_on_board_and_free_witness :
  In (mkPos 2 0) (getValidMoves createInitialBoard (mkPos 0 1) (mkPiece Knight White)) /\
  isValidPosition (mkPos 2 0) = true /\
  forall t, cell createInitialBoard 2 0 = Some t -> color t <> White.
Proof.
  assert (H : In (mkPos 2 0)
                 (getValidMoves createInitialBoard (mkPos 0 1) (mkPiece Knight White)))
    by (vm_compute; tauto).
  split; [exact H |].
  exact (getValidMoves_on_board_and_free createInitialBoard (mkPos 0 1) (mkPos 2 0)
           (mkPiece Knight White) H).
Defined.

(** X2 (generators): bishop, rook and queen move along one of their lines and
    never jump: every square between origin and target is empty.  A rook's
    line is a row or a column, a bishop's a diagonal. *)
Theorem sliders_never_jump (board : Board) (from0 to0 : Position) (pc : Piece) :
  type pc = Bishop \/ type pc = Rook \/ type pc = Queen ->
  In to0 (getValidMoves board from0 pc) ->
  exists dr dc k,
    -1 <= dr <= 1 /\ -1 <= dc <= 1 /\ (dr <> 0 \/ dc <> 0) /\
    (type pc = Rook -> dr = 0 \/ dc = 0) /\
    (type pc = Bishop -> dr <> 0 /\ dc <> 0) /\
    1 <= k /\
    to0 = mkPos (row from0 + k * dr) (col from0 + k * dc) /\
    forall j, 1 <= j < k ->
      cell board (row from0 + j * dr) (col from0 + j * dc) = None.
Proof.
  unfold getValidMoves. intros Ht H.
  destruct (type pc) eqn:E; try (destruct Ht as [Ht | [Ht | Ht]]; discriminate);
    apply getLinearMoves_In in H;
    destruct H as [[dr dc] [k [Hdir [Hk [Hto [_ [_ Hpath]]]]]]];
    exists dr, dc, k; simpl in Hdir; cbn [fst snd] in *;
    repeat (destruct Hdir as [Hdir | Hdir];
            [injection Hdir as <- <-;
             repeat split; try lia; try discriminate; auto |]);
    contradiction.
Qed.

Lemma sliders_never_jump_witness :
  exists dr dc k,
    -1 <= dr <= 1 /\ -1 <= dc <= 1 /\ (dr <> 0 \/ dc <> 0) /\
    (Rook = Rook -> dr = 0 \/ dc = 0) /\
    (Rook = Bishop -> dr <> 0 /\ dc <> 0) /\
    1 <= k /\
    mkPos 0 4 = mkPos (0 + k * dr) (7 + k * dc) /\
    forall j, 1 <= j < k -> cell pawnEnding (0 + j * dr) (7 + j * dc) = None.
Proof.
  apply (sliders_never_jump pawnEnding (mkPos 0 7) (mkPos 0 4) (mkPiece Rook White)).
  - right. left. reflexivity.
  - vm_compute. tauto.
Defined.

(** X3 (generators): the moves of a pawn, exactly: one row in its side's
    direction onto an empty square of its column, two rows from its start row
    when both squares are empty, or one row diagonally onto an enemy piece. *)
Theorem pawn_moves_exactly (board : Board) (from0 to0 : Position) (c : PieceColor) :
  In to0 (getPawnMoves board from0 c) <->
  isValidPosition to0 = true /\
  ((col to0 = col from0 /\ cell board (row to0) (col to0) = None /\
    (row to0 = row from0 + pawnDirection c \/
     (row to0 = row from0 + 2 * pawnDirection c /\ row from0 = pawnStartRow c /\
      cell board (row from0 + pawnDirection c) (col from0) = None))) \/
   ((col to0 = col from0 - 1 \/ col to0 = col from0 + 1) /\
    row to0 = row from0 + pawnDirection c /\
    exists t, cell board (row to0) (col to0) = Some t /\ color t <> c)).
Proof. apply getPawnMoves_In. Qed.

Lemma getKnightMoves_In (board : Board) (from0 to0 : Position) (c : PieceColor) :
  In to0 (getKnightMoves board from0 c) <->
  isValidPosition to0 = true /\
  (forall t, cell board (row to0) (col to0) = Some t -> color t <> c) /\
  ((Z.abs (row to0 - row from0) = 1 /\ Z.abs (col to0 - col from0) = 2) \/
   (Z.abs (row to0 - row from0) = 2 /\ Z.abs (col to0 - col from0) = 1)).
Proof.
  unfold getKnightMoves. rewrite offsetMoves_In. split.
  - intros [off [Hoff [-> [V Hfree]]]]. split; [exact V |]. split; [exact Hfree |].
    simpl in Hoff. cbn [row col].
    repeat (destruct Hoff as [<- | Hoff]; [cbn [fst snd]; lia |]). contradiction.
  - intros [V [Hfree Hshape]]. destruct to0 as [tr tc]. cbn [row col] in *.
    exists (tr - row from0, tc - col from0). cbn [fst snd].
    split; [| split; [f_equal; lia | split; [exact V | exact Hfree]]].
    assert (Hr : tr - row from0 = 1 \/ tr - row from0 = -1 \/
                 tr - row from0 = 2 \/ tr - row from0 = -2) by lia.
    assert (Hc : tc - col from0 = 1 \/ tc - col from0 = -1 \/
                 tc - col from0 = 2 \/ tc - col from0 = -2) by lia.
    simpl.
    destruct Hr as [E1 | [E1 | [E1 | E1]]], Hc as [E2 | [E2 | [E2 | E2]]];
      rewrite E1, E2 in Hshape |- *; simpl in Hshape; try lia; auto 20.
Qed.

Lemma getKingMoves_In (board : Board) (from0 to0 : Position) (c : PieceColor) :
  In to0 (getKingMoves board from0 c) <->
  isValidPosition to0 = true /\
  (forall t, cell board (row to0) (col to0) = Some t -> color t <> c) /\
  Z.abs (row to0 - row from0) <= 1 /\ Z.abs (col to0 - col from0) <= 1 /\
  to0 <> from0.
Proof.
  unfold getKingMoves. rewrite offsetMoves_In. split.
  - intros [off [Hoff [-> [V Hfree]]]]. split; [exact V |]. split; [exact Hfree |].
    simpl in Hoff. cbn [row col].
    repeat (destruct Hoff as [<- | Hoff];
            [cbn [fst snd]; repeat split; try lia;
             destruct from0 as [fr fc]; cbn [row col];
             intros E; injection E; lia |]).
    contradiction.
  - intros [V [Hfree [Hr [Hc Hne]]]]. destruct to0 as [tr tc], from0 as [fr fc].
    cbn [row col] in *.
    exists (tr - fr, tc - fc). cbn [fst snd].
    split; [| split; [f_equal; lia | split; [exact V | exact Hfree]]].
    assert (Hr' : tr - fr = 0 \/ tr - fr = 1 \/ tr - fr = -1) by lia.
    assert (Hc' : tc - fc = 0 \/ tc - fc = 1 \/ tc - fc = -1) by lia.
    simpl.
    destruct Hr' as [E1 | [E1 | E1]], Hc' as [E2 | [E2 | E2]];
      rewrite E1, E2; auto 20.
    exfalso. apply Hne. f_equal; lia.
Qed.

(** X4 (generators): the moves of knight and king, exactly.  A knight makes
    an L-shaped jump, a king, castling apart, one step in any of the eight
    directions; either onto a square of the board that is empty or holds an
    enemy piece. *)
Theorem knight_and_king_moves_exactly (board : Board) (from0 to0 : Position)
  (c : PieceColor) :
  (In to0 (getKnightMoves board from0 c) <->
   isValidPosition to0 = true /\
   (forall t, cell board (row to0) (col to0) = Some t -> color t <> c) /\
   ((Z.abs (row to0 - row from0) = 1 /\ Z.abs (col to0 - col from0) = 2) \/
    (Z.abs (row to0 - row from0) = 2 /\ Z.abs (col to0 - col from0) = 1))) /\
  (In to0 (getKingMoves board from0 c) <->
   isValidPosition to0 = true /\
   (forall t, cell board (row to0) (col to0) = Some t -> color t <> c) /\
   Z.abs (row to0 - row from0) <= 1 /\ Z.abs (col to0 - col from0) <= 1 /\
   to0 <> from0).
Proof. split; [apply getKnightMoves_In | apply getKingMoves_In]. Qed.

(** X5 (findKing): [findKing] answers with a square of the board that holds
    the king of the colour, and with [null] only when no square of the board
    does. *)
Theorem findKing_sound_and_complete (board : Board) (c : PieceColor) :
  match findKing board c with
  | Some pos =>
      isValidPosition pos = true /\
      cell board (row pos) (col pos) = Some (mkPiece King c)
  | None =>
      forall pos, isValidPosition pos = true ->
        cell board (row pos) (col pos) <> Some (mkPiece King c)
  end.
Proof.
  unfold findKing.
  destruct (find _ squares) as [pos|] eqn:E.
  - apply find_some in E. destruct E as [Hin Hp].
    split; [apply squares_In; exact Hin | apply isPieceOf_true; exact Hp].
  - intros pos V Hk. apply squares_In in V.
    pose proof (find_none _ _ E pos V) as Hp. cbv beta in Hp.
    rewrite Hk in Hp. destruct c; discriminate.
Qed.

(** * More on the legal move generator *)

Lemma indexedFrom_nth {A : Type} (l : list A) :
  forall (k : Z) (i : nat) (x : A),
    nth_error l i = Some x -> In (k + Z.of_nat i, x) (indexedFrom k l).
Proof.
  induction l as [|y tl IH]; intros k [|i] x H; simpl in H; try discriminate.
  - injection H as ->. left. f_equal. lia.
  - right. replace (k + Z.of_nat (S i)) with (k + 1 + Z.of_nat i) by lia.
    apply IH. exact H.
Qed.

(** The pieces of the side to move are the ones whose moves are collected. *)
Lemma movesOfPiece_generated (board : Board) (c : PieceColor)
  (rights : option CastlingRights) (lastMove : option Move) (from0 : Position)
  (pc : Piece) (m : Move) :
  cell board (row from0) (col from0) = Some pc -> color pc = c ->
  In m (movesOfPiece board c rights from0 pc) ->
  In m (getValidMovesForColor board c rights lastMove).
Proof.
  intros Hcell Hcol Hin. destruct from0 as [r c0]. cbn [row col] in Hcell.
  unfold cell in Hcell.
  destruct ((0 <=? r) && (0 <=? c0)) eqn:Hrc; [| discriminate].
  apply andb_true_iff in Hrc. destruct Hrc as [Hr Hc]. apply Z.leb_le in Hr, Hc.
  destruct (nth_error board (Z.to_nat r)) as [line|] eqn:Hline; [| discriminate].
  destruct (nth_error line (Z.to_nat c0)) as [sq|] eqn:Hsq; [| discriminate].
  subst sq.
  unfold getValidMovesForColor. apply in_flat_map. exists (r, line). split.
  - replace r with (0 + Z.of_nat (Z.to_nat r)) at 1 by lia.
    apply indexedFrom_nth. exact Hline.
  - apply in_flat_map. exists (c0, Some pc). split.
    + replace c0 with (0 + Z.of_nat (Z.to_nat c0)) at 1 by lia.
      apply indexedFrom_nth. exact Hsq.
    + apply PieceColor_eqb_eq in Hcol. rewrite Hcol. exact Hin.
Qed.

Lemma generated_ordinary_iff (board : Board) (c : PieceColor)
  (rights : option CastlingRights) (lastMove : option Move) (m : Move) :
  In m (getValidMovesForColor board c rights lastMove) /\ isCastling m = false <->
  exists from0 to0 pc,
    m = mkMove from0 to0 pc (cell board (row to0) (col to0)) None false false /\
    cell board (row from0) (col from0) = Some pc /\ color pc = c /\
    In to0 (getValidMoves board from0 pc) /\
    wouldMoveResultInCheck board from0 to0 c = false.
Proof.
  split.
  - intros [Hin Hcastle].
    apply generated_move_origin in Hin. destruct Hin as [from0 [pc [Hfrom [Hcol Hin]]]].
    apply movesOfPiece_cases in Hin.
    destruct Hin as [[to0 [-> [Hto Hsafe]]] | [to0 [r0 [-> _]]]]; [| discriminate].
    exists from0, to0, pc. rewrite <- Hcol. auto.
  - intros [from0 [to0 [pc [-> [Hfrom [Hcol [Hto Hsafe]]]]]]].
    split; [| reflexivity].
    apply movesOfPiece_generated with (from0 := from0) (pc := pc); try assumption.
    unfold movesOfPiece. apply in_or_app. left.
    apply in_map with (f := fun to1 => mkMove from0 to1 pc
                                         (cell board (row to1) (col to1)) None false false).
    apply filter_In. split; [exact Hto |].
    rewrite Hcol, Hsafe. reflexivity.
Qed.

(** X6 (legal moves): castling apart, the generator returns exactly the
    pseudo-legal moves of the pieces of the side to move that pass the
    legality filter, each with the piece that moves and the content of the
    target square as the captured piece. *)
Theorem ordinary_legal_moves_exactly (board : Board) (c : PieceColor)
  (rights : option CastlingRights) (lastMove : option Move) (m : Move) :
  In m (getValidMovesForColor board c rights lastMove) /\ isCastling m = false <->
  exists from0 to0 pc,
    m = mkMove from0 to0 pc (cell board (row to0) (col to0)) None false false /\
    cell board (row from0) (col from0) = Some pc /\ color pc = c /\
    In to0 (getValidMoves board from0 pc) /\
    wouldMoveResultInCheck board from0 to0 c = false.
Proof. apply generated_ordinary_iff. Qed.

(** X7 (legal moves): every move of the generator that is not a castling move
    leaves the mover's own king unattacked on the board [applyMove] makes of
    it, promotions included. *)
Theorem ordinary_legal_move_is_safe (board : Board) (c : PieceColor)
  (rights : option CastlingRights) (lastMove : option Move) (m : Move) :
  wfBoard board ->
  In m (getValidMovesForColor board c rights lastMove) ->
  isCastling m = false ->
  isKingInCheck (applyMove board m) c = false.
Proof. apply ordinary_move_keeps_king_safe. Qed.

Lemma wfBoard_createInitialBoard : wfBoard createInitialBoard.
Proof. split; [reflexivity | repeat constructor]. Qed.

Lemma ordinary_legal_move_is_safe_witness :
  wfBoard createInitialBoard /\
  In (mkMove (mkPos 1 4) (mkPos 3 4) (mkPiece Pawn White) None None false false)
     (getValidMovesForColor createInitialBoard White (Some fullRights) None) /\
  isKingInCheck
    (applyMove createInitialBoard
       (mkMove (mkPos 1 4) (mkPos 3 4) (mkPiece Pawn White) None None false false))
    White = false.
Proof.
  assert (H : In (mkMove (mkPos 1 4) (mkPos 3 4) (mkPiece Pawn White) None None false false)
                 (getValidMovesForColor createInitialBoard White (Some fullRights) None))
    by (vm_compute; tauto).
  split; [exact wfBoard_createInitialBoard |]. split; [exact H |].
  exact (ordinary_legal_move_is_safe createInitialBoard White (Some fullRights) None _
           wfBoard_createInitialBoard H eq_refl).
Defined.

(** X8 (hasAnyLegalMove): the mate test of the evaluation says that a side has
    a legal move exactly when the engine's generator has a move for it that
    is not a castling move. *)
Theorem hasAnyLegalMove_iff_generator (board : Board) (c : PieceColor)
  (rights : option CastlingRights) (lastMove : option Move) :
  hasAnyLegalMove board c = true <->
  exists m, In m (getValidMovesForColor board c rights lastMove) /\
            isCastling m = false.
Proof.
  unfold hasAnyLegalMove. rewrite existsb_exists. split.
  - intros [[r line] [Hr H]]. apply existsb_exists in H.
    destruct H as [[c0 sq] [Hc H]].
    destruct sq as [pc|]; [| discriminate].
    apply andb_true_iff in H. destruct H as [Hcol H].
    destruct (filter _ _) as [|to0 rest] eqn:Hf; [discriminate |].
    assert (Hin : In to0 (to0 :: rest)) by (left; reflexivity).
    rewrite <- Hf in Hin. apply filter_In in Hin. destruct Hin as [Hto Hsafe].
    apply negb_true_iff in Hsafe. apply PieceColor_eqb_eq in Hcol.
    exists (mkMove (mkPos r c0) to0 pc (cell board (row to0) (col to0)) None false false).
    apply generated_ordinary_iff. exists (mkPos r c0), to0, pc.
    repeat split; try assumption.
    apply indexedFrom_In in Hr, Hc. destruct Hr as [Hr0 Hr], Hc as [Hc0 Hc].
    rewrite Z.sub_0_r in Hr, Hc. unfold cell; cbn [row col].
    replace (0 <=? r) with true by (symmetry; apply Z.leb_le; lia).
    replace (0 <=? c0) with true by (symmetry; apply Z.leb_le; lia).
    simpl. rewrite Hr, Hc. reflexivity.
  - intros [m Hm]. apply generated_ordinary_iff in Hm.
    destruct Hm as [[r c0] [to0 [pc [_ [Hfrom [Hcol [Hto Hsafe]]]]]]].
    cbn [row col] in Hfrom. unfold cell in Hfrom.
    destruct ((0 <=? r) && (0 <=? c0)) eqn:Hrc; [| discriminate].
    apply andb_true_iff in Hrc. destruct Hrc as [Hr Hc]. apply Z.leb_le in Hr, Hc.
    destruct (nth_error board (Z.to_nat r)) as [line|] eqn:Hline; [| discriminate].
    destruct (nth_error line (Z.to_nat c0)) as [sq|] eqn:Hsq; [| discriminate].
    subst sq. exists (r, line). split.
    + replace r with (0 + Z.of_nat (Z.to_nat r)) at 1 by lia.
      apply indexedFrom_nth. exact Hline.
    + apply existsb_exists. exists (c0, Some pc). split.
      * replace c0 with (0 + Z.of_nat (Z.to_nat c0)) at 1 by lia.
        apply indexedFrom_nth. exact Hsq.
      * apply PieceColor_eqb_eq in Hcol. rewrite Hcol. simpl.
        assert (Hin : In to0 (filter (fun to1 =>
                         negb (wouldMoveResultInCheck board (mkPos r c0) to1 c))
                         (getValidMoves board (mkPos r c0) pc))).
        { apply filter_In. split; [exact Hto |]. rewrite Hsafe. reflexivity. }
        destruct (filter _ _); [contradiction | reflexivity].
Qed.

(** * More on castling *)

(** X9 (castling): every castling move of the generator is a move of the king
    of the side to move from its home square, made out of check with the
    right for that side still held, the rook of that side in its corner, and
    the two squares on the king's way empty and not attacked as far as
    [isPositionUnderAttack] tells. *)
Theorem castling_offered_only_when_checked (board : Board) (c : PieceColor)
  (rights : option CastlingRights) (lastMove : option Move) (m : Move) :
  In m (getValidMovesForColor board c rights lastMove) ->
  isCastling m = true ->
  exists r0,
    rights = Some r0 /\
    from m = mkPos (homeRow c) 3 /\
    cell board (homeRow c) 3 = Some (piece m) /\
    piece m = mkPiece King c /\
    isKingInCheck board c = false /\
    ((to m = mkPos (homeRow c) 5 /\ kingSide (sideRights c r0) = true /\
      cell board (homeRow c) 7 = Some (mkPiece Rook c) /\
      cell board (homeRow c) 4 = None /\ cell board (homeRow c) 5 = None /\
      isPositionUnderAttack board (mkPos (homeRow c) 4) (opposite c) = false /\
      isPositionUnderAttack board (mkPos (homeRow c) 5) (opposite c) = false) \/
     (to m = mkPos (homeRow c) 1 /\ queenSide (sideRights c r0) = true /\
      cell board (homeRow c) 0 = Some (mkPiece Rook c) /\
      cell board (homeRow c) 1 = None /\ cell board (homeRow c) 2 = None /\
      isPositionUnderAttack board (mkPos (homeRow c) 1) (opposite c) = false /\
      isPositionUnderAttack board (mkPos (homeRow c) 2) (opposite c) = false)).
Proof.
  intros Hin Hcastle.
  apply generated_move_origin in Hin. destruct Hin as [from0 [pc [Hfrom [Hcol Hin]]]].
  apply movesOfPiece_cases in Hin.
  destruct Hin as [[to0 [-> _]] | [to0 [r0 [-> [Ht [-> Hin]]]]]]; [discriminate |].
  apply getCastlingMoves_checks in Hin.
  destruct Hin as [Hhome [Hcheck Hside]]. subst from0. cbn [row col] in Hfrom.
  exists r0. cbn [from to piece]. split; [reflexivity |].
  split; [reflexivity |]. split; [exact Hfrom |].
  split; [destruct pc; simpl in *; congruence |].
  split; [exact Hcheck |].
  destruct Hside as [[-> [Hk [Hrook H]]] | [-> [Hq [Hrook H]]]];
    apply isPieceOf_true in Hrook; [left | right]; auto.
Qed.

Lemma castling_offered_only_when_checked_witness :
  exists board rights,
    replay createInitialBoard White (Some fullRights) developingGame
    = Some (board, rights) /\
    In (castleKingSide White) (getValidMovesForColor board White rights None) /\
    exists r0,
      rights = Some r0 /\
      from (castleKingSide White) = mkPos (homeRow White) 3 /\
      cell board (homeRow White) 3 = Some (piece (castleKingSide White)) /\
      piece (castleKingSide White) = mkPiece King White /\
      isKingInCheck board White = false /\
      ((to (castleKingSide White) = mkPos (homeRow White) 5 /\
        kingSide (sideRights White r0) = true /\
        cell board (homeRow White) 7 = Some (mkPiece Rook White) /\
        cell board (homeRow White) 4 = None /\ cell board (homeRow White) 5 = None /\
        isPositionUnderAttack board (mkPos (homeRow White) 4) (opposite White) = false /\
        isPositionUnderAttack board (mkPos (homeRow White) 5) (opposite White) = false) \/
       (to (castleKingSide White) = mkPos (homeRow White) 1 /\
        queenSide (sideRights White r0) = true /\
        cell board (homeRow White) 0 = Some (mkPiece Rook White) /\
        cell board (homeRow White) 1 = None /\ cell board (homeRow White) 2 = None /\
        isPositionUnderAttack board (mkPos (homeRow White) 1) (opposite White) = false /\
        isPositionUnderAttack board (mkPos (homeRow White) 2) (opposite White) = false)).
Proof.
  destruct (replay createInitialBoard White (Some fullRights) developingGame)
    as [[board rights]|] eqn:E; [| vm_compute in E; discriminate].
  exists board, rights. split; [reflexivity |].
  vm_compute in E. injection E as <- <-.
  match goal with
  | |- In ?m ?l /\ _ =>
      assert (H : In m l) by (vm_compute; tauto);
      split; [exact H |];
      exact (castling_offered_only_when_checked _ White _ None m H eq_refl)
  end.
Defined.

(** X10 (castling): on a board with the king on its home square, applying a
    castling move towards column 7 puts the king on column 5 and what stood
    in the corner of column 7 on column 4, and empties the king's square and
    the corner; towards column 0 the king lands on column 1 and the corner
    piece on column 2. *)
Theorem castling_relocates_king_and_rook (board : Board) (c : PieceColor)
  (king : Piece) :
  wfBoard board ->
  cell board (homeRow c) 3 = Some king -> type king = King ->
  (let after := applyMove board (mkMove (mkPos (homeRow c) 3) (mkPos (homeRow c) 5)
                                        king None None true false) in
   cell after (homeRow c) 5 = Some king /\
   cell after (homeRow c) 4 = cell board (homeRow c) 7 /\
   cell after (homeRow c) 3 = None /\ cell after (homeRow c) 7 = None) /\
  (let after := applyMove board (mkMove (mkPos (homeRow c) 3) (mkPos (homeRow c) 1)
                                        king None None true false) in
   cell after (homeRow c) 1 = Some king /\
   cell after (homeRow c) 2 = cell board (homeRow c) 0 /\
   cell after (homeRow c) 3 = None /\ cell after (homeRow c) 0 = None).
Proof. apply applyMove_castling. Qed.

Lemma castling_relocates_king_and_rook_witness :
  wfBoard createInitialBoard /\
  cell createInitialBoard (homeRow Black) 3 = Some (mkPiece King Black) /\
  (let after := applyMove createInitialBoard
                  (mkMove (mkPos (homeRow Black) 3) (mkPos (homeRow Black) 5)
                          (mkPiece King Black) None None true false) in
   cell after (homeRow Black) 5 = Some (mkPiece King Black) /\
   cell after (homeRow Black) 4 = cell createInitialBoard (homeRow Black) 7 /\
   cell after (homeRow Black) 3 = None /\ cell after (homeRow Black) 7 = None) /\
  (let after := applyMove createInitialBoard
                  (mkMove (mkPos (homeRow Black) 3) (mkPos (homeRow Black) 1)
                          (mkPiece King Black) None None true false) in
   cell after (homeRow Black) 1 = Some (mkPiece King Black) /\
   cell after (homeRow Black) 2 = cell createInitialBoard (homeRow Black) 0 /\
   cell after (homeRow Black) 3 = None /\ cell after (homeRow Black) 0 = None).
Proof.
  split; [exact wfBoard_createInitialBoard |].
  split; [reflexivity |].
  exact (castling_relocates_king_and_rook createInitialBoard Black (mkPiece King Black)
           wfBoard_createInitialBoard eq_refl eq_refl).
Defined.

(** * Castling rights *)

Lemma updateCastlingRights_cases (rights : CastlingRights) (move : Move) (board : Board) :
  exists r',
    updateCastlingRights (Some rights) move board = Some r' /\
    (whiteKingSide r' = true -> whiteKingSide rights = true) /\
    (whiteQueenSide r' = true -> whiteQueenSide rights = true) /\
    (blackKingSide r' = true -> blackKingSide rights = true) /\
    (blackQueenSide r' = true -> blackQueenSide rights = true) /\
    match cell board (row (from move)) (col (from move)) with
    | None => r' = rights
    | Some pc =>
        match color pc with
        | White => blackKingSide r' = blackKingSide rights /\
                   blackQueenSide r' = blackQueenSide rights
        | Black => whiteKingSide r' = whiteKingSide rights /\
                   whiteQueenSide r' = whiteQueenSide rights
        end /\
        (type pc = King -> kingSide (sideRights (color pc) r') = false /\
                           queenSide (sideRights (color pc) r') = false) /\
        (type pc <> King -> type pc <> Rook -> r' = rights)
    end.
Proof.
  unfold updateCastlingRights.
  destruct (cell board _ _) as [[t c]|]; [| exists rights; destruct rights; auto 10].
  eexists. split; [reflexivity |].
  destruct rights as [a b c0 d]; destruct t, c; cbn;
    repeat match goal with
           | |- context [if ?x =? ?y then _ else _] => destruct (x =? y)
           end; cbn; repeat split; auto; try discriminate; try congruence;
    intros; try discriminate; try congruence.
Qed.

(** X11 (castling rights): [updateCastlingRights] only ever takes rights away;
    a move leaves the rights of the other side as they are, a move of a king
    takes both rights of its side, and a move of any piece but king and rook
    changes nothing. *)
Theorem updateCastlingRights_only_removes (rights : CastlingRights) (move : Move)
  (board : Board) :
  exists r',
    updateCastlingRights (Some rights) move board = Some r' /\
    (whiteKingSide r' = true -> whiteKingSide rights = true) /\
    (whiteQueenSide r' = true -> whiteQueenSide rights = true) /\
    (blackKingSide r' = true -> blackKingSide rights = true) /\
    (blackQueenSide r' = true -> blackQueenSide rights = true) /\
    match cell board (row (from move)) (col (from move)) with
    | None => r' = rights
    | Some pc =>
        match color pc with
        | White => blackKingSide r' = blackKingSide rights /\
                   blackQueenSide r' = blackQueenSide rights
        | Black => whiteKingSide r' = whiteKingSide rights /\
                   whiteQueenSide r' = whiteQueenSide rights
        end /\
        (type pc = King -> kingSide (sideRights (color pc) r') = false /\
                           queenSide (sideRights (color pc) r') = false) /\
        (type pc <> King -> type pc <> Rook -> r' = rights)
    end.
Proof. apply updateCastlingRights_cases. Qed.

(** Without a right there is no castling. *)
Lemma no_right_no_castling (board : Board) (c : PieceColor) (r0 : CastlingRights)
  (lastMove : option Move) (m : Move) :
  kingSide (sideRights c r0) = false -> queenSide (sideRights c r0) = false ->
  In m (getValidMovesForColor board c (Some r0) lastMove) ->
  isCastling m = false.
Proof.
  intros Hk Hq Hin.
  destruct (isCastling m) eqn:Hc; [| reflexivity].
  apply generated_move_origin in Hin. destruct Hin as [from0 [pc [Hfrom [Hcol Hin]]]].
  apply movesOfPiece_cases in Hin.
  destruct Hin as [[to0 [-> _]] | [to0 [r1 [-> [Ht [E Hin]]]]]]; [discriminate |].
  injection E as <-. apply getCastlingMoves_checks in Hin.
  destruct Hin as [_ [_ [[_ [H _]] | [_ [H _]]]]]; congruence.
Qed.

(** X12 (castling rights): once a side has moved its king, the generator never
    offers it a castling move again, on any later board and however the
    rights are updated by the moves in between. *)
Theorem no_castling_after_king_move (board : Board) (rights : CastlingRights)
  (kingMove : Move) (king : Piece) (later : list (Move * Board))
  (board' : Board) (lastMove : option Move) (m : Move) :
  cell board (row (from kingMove)) (col (from kingMove)) = Some king ->
  type king = King ->
  In m (getValidMovesForColor board' (color king)
          (fold_left (fun r mb => updateCastlingRights r (fst mb) (snd mb)) later
                     (updateCastlingRights (Some rights) kingMove board))
          lastMove) ->
  isCastling m = false.
Proof.
  intros Hking Htype.
  destruct (updateCastlingRights_cases rights kingMove board)
    as [r1 [-> [_ [_ [_ [_ H]]]]]].
  rewrite Hking in H. destruct H as [_ [H _]]. specialize (H Htype).
  destruct H as [Hk Hq].
  revert r1 Hk Hq. induction later as [|[mv bd] rest IH]; intros r1 Hk Hq;
    cbn [fold_left fst snd].
  - apply no_right_no_castling; assumption.
  - destruct (updateCastlingRights_cases r1 mv bd)
      as [r2 [E [H1 [H2 [H3 [H4 _]]]]]].
    rewrite E. apply IH.
    + destruct (color king); simpl in *;
        [destruct (whiteKingSide r2) | destruct (blackKingSide r2)];
        auto; exfalso; intuition congruence.
    + destruct (color king); simpl in *;
        [destruct (whiteQueenSide r2) | destruct (blackQueenSide r2)];
        auto; exfalso; intuition congruence.
Qed.

Lemma no_castling_after_king_move_witness :
  let board := fst developedPosition in
  let kingMove := mkMove (mkPos 0 3) (mkPos 0 4) (mkPiece King White)
                         None None false false in
  let m := mkMove (mkPos 1 0) (mkPos 2 0) (mkPiece Pawn White)
                  None None false false in
  In (castleKingSide White)
     (getValidMovesForColor board White (Some fullRights) None) /\
  cell board (row (from kingMove)) (col (from kingMove)) = Some (mkPiece King White) /\
  In m (getValidMovesForColor board White
          (fold_left (fun r mb => updateCastlingRights r (fst mb) (snd mb)) []
                     (updateCastlingRights (Some fullRights) kingMove board))
          None) /\
  isCastling m = false.
Proof.
  cbv zeta.
  split; [vm_compute; tauto |].
  split; [vm_compute; reflexivity |].
  match goal with
  | |- In ?m ?l /\ _ =>
      assert (H : In m l) by (vm_compute; tauto);
      split; [exact H |]
  end.
  exact (no_castling_after_king_move (fst developedPosition) fullRights
           (mkMove (mkPos 0 3) (mkPos 0 4) (mkPiece King White) None None false false)
           (mkPiece King White) [] (fst developedPosition) None _
           eq_refl eq_refl H).
Defined.

(** * What the generators look at *)

Lemma sameColors_setCell (board : Board) (r c : Z) (old new : Piece) :
  wfBoard board -> 0 <= r < 8 -> 0 <= c < 8 ->
  cell board r c = Some old -> color new = color old ->
  sameColors board (setCell board r c (Some new)).
Proof.
  intros Hwf Hr Hc Hold Hcol r' c'.
  destruct (Z_lt_le_dec r' 0) as [Hn | Hr'];
    [unfold cell; replace (0 <=? r') with false
       by (symmetry; apply Z.leb_gt; lia); reflexivity |].
  destruct (Z_lt_le_dec c' 0) as [Hn | Hc'];
    [unfold cell; replace (0 <=? c') with false
       by (symmetry; apply Z.leb_gt; lia); rewrite andb_false_r; reflexivity |].
  rewrite cell_setCell by assumption.
  destruct ((r =? r') && (c =? c')) eqn:E; [| reflexivity].
  apply andb_true_iff in E. destruct E as [E1 E2].
  apply Z.eqb_eq in E1, E2. subst r' c'. rewrite Hold. simpl. congruence.
Qed.

(** X13 (generators): the pseudo-legal moves of a piece depend on the board
    only through which squares are occupied and by which colour; what kind
    of piece stands on a square plays no part. *)
Theorem getValidMoves_reads_colours_only (b1 b2 : Board) (from0 : Position)
  (pc : Piece) :
  sameColors b1 b2 -> getValidMoves b1 from0 pc = getValidMoves b2 from0 pc.
Proof. apply getValidMoves_sameColors. Qed.

Lemma getValidMoves_reads_colours_only_witness :
  sameColors createInitialBoard
    (setCell createInitialBoard 1 4 (Some (mkPiece Queen White))) /\
  getValidMoves createInitialBoard (mkPos 0 3) (mkPiece Queen White)
  = getValidMoves (setCell createInitialBoard 1 4 (Some (mkPiece Queen White)))
      (mkPos 0 3) (mkPiece Queen White).
Proof.
  assert (H : sameColors createInitialBoard
                (setCell createInitialBoard 1 4 (Some (mkPiece Queen White)))).
  { apply (sameColors_setCell createInitialBoard 1 4 (mkPiece Pawn White));
      [exact wfBoard_createInitialBoard | lia | lia | reflexivity | reflexivity]. }
  split; [exact H |].
  exact (getValidMoves_reads_colours_only _ _ (mkPos 0 3) (mkPiece Queen White) H).
Defined.

(** X14 (check): whether a side's king is in check does not depend on the kind
    of that side's other pieces: replacing one of them, not the king, by
    another piece of the same side, as a promotion does, leaves
    [isKingInCheck] as it was. *)
Theorem own_piece_kind_irrelevant_for_check (board : Board) (r c : Z)
  (old new : Piece) (side : PieceColor) :
  wfBoard board -> 0 <= r < 8 -> 0 <= c < 8 ->
  cell board r c = Some old ->
  color old = side -> color new = side ->
  type old <> King -> type new <> King ->
  isKingInCheck (setCell board r c (Some new)) side = isKingInCheck board side.
Proof. apply isKingInCheck_replace. Qed.

Lemma own_piece_kind_irrelevant_for_check_witness :
  wfBoard pawnEnding /\
  cell pawnEnding 1 0 = Some (mkPiece Pawn White) /\
  isKingInCheck (setCell pawnEnding 1 0 (Some (mkPiece Queen White))) White
  = isKingInCheck pawnEnding White.
Proof.
  split; [exact wfBoard_pawnEnding |].
  split; [reflexivity |].
  apply (own_piece_kind_irrelevant_for_check pawnEnding 1 0
           (mkPiece Pawn White) (mkPiece Queen White) White);
    [exact wfBoard_pawnEnding | lia | lia | reflexivity | reflexivity
    | reflexivity | discriminate | discriminate].
Defined.

(** * The transposition table *)

Lemma ttGet_ttSet_same (hash : string) (entry : TTEntry) (table : TT) :
  ttGet hash (ttSet hash entry table) = Some entry.
Proof.
  induction table as [|[key old] rest IH]; simpl.
  - rewrite String.eqb_refl. reflexivity.
  - destruct (String.eqb key hash) eqn:E; simpl; rewrite E; auto.
Qed.

Lemma ttGet_ttSet_other (hash hash' : string) (entry : TTEntry) (table : TT) :
  hash' <> hash -> ttGet hash' (ttSet hash entry table) = ttGet hash' table.
Proof.
  intros Hne. induction table as [|[key old] rest IH]; simpl.
  - destruct (String.eqb hash hash') eqn:E; [| reflexivity].
    apply String.eqb_eq in E. congruence.
  - destruct (String.eqb key hash) eqn:E; simpl.
    + apply String.eqb_eq in E. subst key.
      destruct (String.eqb hash hash') eqn:E'; [| reflexivity].
      apply String.eqb_eq in E'. congruence.
    + rewrite IH. reflexivity.
Qed.

Lemma ttGet_ttEvict_fresh (hash : string) (e : TTEntry) (cur : Z) (table : TT) :
  forall collected,
  ttGet hash table = Some e -> cur - 2 <= age e ->
  ttGet hash (ttEvict collected cur table) = Some e.
Proof.
  induction table as [|[key entry] rest IH]; intros collected Hget Hage; simpl in *.
  - discriminate.
  - destruct (String.eqb key hash) eqn:E.
    + injection Hget as ->.
      replace (age e <? cur - 2) with false by (symmetry; apply Z.ltb_ge; lia).
      simpl. rewrite E. reflexivity.
    + assert (Hrest : forall n,
                ttGet hash (if n >? MAX_TT_SIZE / 10 then rest
                            else ttEvict n cur rest) = Some e).
      { intros n. destruct (n >? MAX_TT_SIZE / 10); auto. }
      destruct (age entry <? cur - 2); [apply Hrest |].
      simpl. rewrite E. apply Hrest.
Qed.

Lemma ttEvict_incl (cur : Z) (table : TT) :
  forall collected x, In x (ttEvict collected cur table) -> In x table.
Proof.
  induction table as [|[key entry] rest IH]; intros collected x Hin; simpl in *.
  - exact Hin.
  - assert (Hrest : forall n,
              In x (if n >? MAX_TT_SIZE / 10 then rest else ttEvict n cur rest) ->
              In x rest).
    { intros n. destruct (n >? MAX_TT_SIZE / 10); eauto. }
    destruct (age entry <? cur - 2).
    + right. eapply Hrest, Hin.
    + destruct Hin as [<- | Hin]; [left; reflexivity | right; eapply Hrest, Hin].
Qed.

Lemma ttEvict_keysUnique (cur : Z) (table : TT) :
  forall collected, keysUnique table -> keysUnique (ttEvict collected cur table).
Proof.
  unfold keysUnique.
  induction table as [|[key entry] rest IH]; intros collected Hu; simpl in *.
  - exact Hu.
  - inversion Hu as [| ? ? Hnot Hu']; subst.
    assert (Hrest : forall n,
              NoDup (map fst (if n >? MAX_TT_SIZE / 10 then rest
                              else ttEvict n cur rest))).
    { intros n. destruct (n >? MAX_TT_SIZE / 10); auto. }
    assert (Hkey : forall n,
              ~ In key (map fst (if n >? MAX_TT_SIZE / 10 then rest
                                 else ttEvict n cur rest))).
    { intros n Hin. apply Hnot. destruct (n >? MAX_TT_SIZE / 10); [exact Hin |].
      apply in_map_iff in Hin. destruct Hin as [x [<- Hin]].
      apply in_map. eapply ttEvict_incl, Hin. }
    destruct (age entry <? cur - 2); [apply Hrest |].
    simpl. constructor; [apply Hkey | apply Hrest].
Qed.

Lemma ttEvict_length (cur : Z) (table : TT) :
  forall collected, (length (ttEvict collected cur table) <= length table)%nat.
Proof.
  induction table as [|[key entry] rest IH]; intros collected; simpl.
  - lia.
  - assert (Hrest : forall n,
              (length (if n >? MAX_TT_SIZE / 10 then rest
                       else ttEvict n cur rest) <= length rest)%nat).
    { intros n. destruct (n >? MAX_TT_SIZE / 10); [lia | apply IH]. }
    destruct (age entry <? cur - 2); simpl.
    + specialize (Hrest (collected + 1)). lia.
    + specialize (Hrest collected). lia.
Qed.

Lemma ttEvict_nothing_stale (cur : Z) (table : TT) :
  forall collected,
  (forall k e, In (k, e) table -> cur - 2 <= age e) ->
  collected <= MAX_TT_SIZE / 10 ->
  ttEvict collected cur table = table.
Proof.
  induction table as [|[key entry] rest IH]; intros collected Hfresh Hc; simpl.
  - reflexivity.
  - replace (age entry <? cur - 2) with false
      by (symmetry; apply Z.ltb_ge; apply (Hfresh key); left; reflexivity).
    replace (collected >? MAX_TT_SIZE / 10) with false
      by (symmetry; rewrite Z.gtb_ltb; apply Z.ltb_ge; lia).
    rewrite IH; [reflexivity | | exact Hc].
    intros k e Hin. apply (Hfresh k). right. exact Hin.
Qed.

Lemma ttGet_In (hash : string) (e : TTEntry) (table : TT) :
  ttGet hash table = Some e -> In (hash, e) table.
Proof.
  induction table as [|[key entry] rest IH]; simpl; [discriminate |].
  destruct (String.eqb key hash) eqn:E; intros H.
  - apply String.eqb_eq in E. injection H as ->. left. congruence.
  - right. auto.
Qed.

Lemma In_ttGet (hash : string) (e : TTEntry) (table : TT) :
  keysUnique table -> In (hash, e) table -> ttGet hash table = Some e.
Proof.
  unfold keysUnique.
  induction table as [|[key entry] rest IH]; simpl; [tauto |].
  intros Hu Hin. inversion Hu as [| ? ? Hnot Hu']; subst.
  destruct Hin as [Heq | Hin].
  - injection Heq as -> ->. rewrite String.eqb_refl. reflexivity.
  - destruct (String.eqb key hash) eqn:E.
    + apply String.eqb_eq in E. subst key. exfalso. apply Hnot.
      apply (in_map fst) in Hin. exact Hin.
    + auto.
Qed.

Lemma ttSet_keys (hash : string) (entry : TTEntry) (table : TT) :
  forall k, In k (map fst (ttSet hash entry table)) ->
            k = hash \/ In k (map fst table).
Proof.
  induction table as [|[key old] rest IH]; simpl; intros k Hin.
  - destruct Hin as [<- | []]. left. reflexivity.
  - destruct (String.eqb key hash) eqn:E; simpl in Hin.
    + right. exact Hin.
    + destruct Hin as [<- | Hin]; [right; left; reflexivity |].
      apply IH in Hin. tauto.
Qed.

Lemma ttSet_keysUnique (hash : string) (entry : TTEntry) (table : TT) :
  keysUnique table -> keysUnique (ttSet hash entry table).
Proof.
  unfold keysUnique.
  induction table as [|[key old] rest IH]; simpl; intros Hu.
  - constructor; [simpl; tauto | constructor].
  - inversion Hu as [| ? ? Hnot Hu']; subst.
    destruct (String.eqb key hash) eqn:E; simpl.
    + constructor; assumption.
    + constructor; [| auto].
      intros Hin. apply ttSet_keys in Hin. destruct Hin as [-> | Hin]; [| tauto].
      rewrite String.eqb_refl in E. discriminate.
Qed.

Lemma ttSet_length (hash : string) (entry : TTEntry) (table : TT) :
  length (ttSet hash entry table)
  = match ttGet hash table with
    | Some _ => length table
    | None => S (length table)
    end.
Proof.
  induction table as [|[key old] rest IH]; simpl; [reflexivity |].
  destruct (String.eqb key hash); simpl; [reflexivity |].
  rewrite IH. destruct (ttGet hash rest); reflexivity.
Qed.

(** X15 (transposition table): what [storeTT] stores under a key is what a
    lookup of that key finds afterwards: the given depth, score, flag and
    best move, stamped with the current age; the age, the killer moves and
    the history table are left alone. *)
Theorem storeTT_then_lookup (hash : string) (depth : Z) (score0 : Num)
  (flag0 : TTFlag) (bestMove0 : option Move) (t : Tables) :
  let t' := storeTT hash depth score0 flag0 bestMove0 t in
  ttGet hash (transpositionTable t')
  = Some (mkTTEntry depth score0 flag0 bestMove0 (currentAge t)) /\
  currentAge t' = currentAge t /\
  killerMoves t' = killerMoves t /\
  historyTable t' = historyTable t.
Proof.
  cbv zeta. unfold storeTT. cbn [transpositionTable currentAge killerMoves historyTable].
  split; [apply ttGet_ttSet_same | auto].
Qed.

(** X16 (transposition table): storing under one key keeps the entry of every
    other key as long as the table is below [MAX_TT_SIZE]; in a full table
    it keeps at least every entry that is not older than two searches. *)
Theorem storeTT_keeps_other_entries (hash hash' : string) (depth : Z)
  (score0 : Num) (flag0 : TTFlag) (bestMove0 : option Move) (t : Tables)
  (e : TTEntry) :
  hash' <> hash ->
  ttGet hash' (transpositionTable t) = Some e ->
  Z.of_nat (length (transpositionTable t)) < MAX_TT_SIZE \/ currentAge t - 2 <= age e ->
  ttGet hash' (transpositionTable (storeTT hash depth score0 flag0 bestMove0 t))
  = Some e.
Proof.
  intros Hne Hget Hkeep. unfold storeTT. cbn [transpositionTable].
  rewrite ttGet_ttSet_other by exact Hne.
  destruct (Z.of_nat (length (transpositionTable t)) >=? MAX_TT_SIZE) eqn:E;
    [| exact Hget].
  destruct Hkeep as [Hlt | Hage].
  - rewrite Z.geb_leb in E. apply Z.leb_le in E. lia.
  - apply ttGet_ttEvict_fresh; assumption.
Qed.

Lemma storeTT_keeps_other_entries_witness :
  let e := mkTTEntry 3 (Fin 25) exact None 0 in
  let t := mkTables [("a"%string, e)] 1 (repeat [] 100) [] in
  "a"%string <> "b"%string /\
  ttGet "a" (transpositionTable t) = Some e /\
  ttGet "a" (transpositionTable (storeTT "b" 1 (Fin 0) flagAlpha None t)) = Some e.
Proof.
  cbv zeta.
  split; [discriminate |]. split; [reflexivity |].
  apply (storeTT_keeps_other_entries "b" "a" 1 (Fin 0) flagAlpha None);
    [discriminate | reflexivity | right; simpl; lia].
Defined.

(** X17 (transposition table): [storeTT] keeps the keys of the table unique,
    adds at most one entry, and never makes up or alters the entry of
    another key: what a lookup of another key finds afterwards, it found
    before. *)
Theorem storeTT_never_invents (hash : string) (depth : Z) (score0 : Num)
  (flag0 : TTFlag) (bestMove0 : option Move) (t : Tables) :
  keysUnique (transpositionTable t) ->
  let t' := storeTT hash depth score0 flag0 bestMove0 t in
  keysUnique (transpositionTable t') /\
  (length (transpositionTable t') <= S (length (transpositionTable t)))%nat /\
  forall hash' e, hash' <> hash ->
    ttGet hash' (transpositionTable t') = Some e ->
    ttGet hash' (transpositionTable t) = Some e.
Proof.
  intros Hu. cbv zeta. unfold storeTT. cbn [transpositionTable].
  set (table := if Z.of_nat (length (transpositionTable t)) >=? MAX_TT_SIZE
                then ttEvict 0 (currentAge t) (transpositionTable t)
                else transpositionTable t).
  assert (Hu' : keysUnique table)
    by (subst table; destruct (_ >=? _); [apply ttEvict_keysUnique |]; exact Hu).
  assert (Hlen : (length table <= length (transpositionTable t))%nat)
    by (subst table; destruct (_ >=? _); [apply ttEvict_length | lia]).
  assert (Hincl : forall x, In x table -> In x (transpositionTable t))
    by (subst table; destruct (_ >=? _); [apply ttEvict_incl | auto]).
  split; [apply ttSet_keysUnique; exact Hu' |].
  split.
  - rewrite ttSet_length. destruct (ttGet hash table); lia.
  - intros hash' e Hne Hget. rewrite ttGet_ttSet_other in Hget by exact Hne.
    apply In_ttGet; [exact Hu |]. apply Hincl, ttGet_In, Hget.
Qed.

Lemma storeTT_never_invents_witness :
  let e := mkTTEntry 3 (Fin 25) exact None 0 in
  let t := mkTables [("a"%string, e)] 1 (repeat [] 100) [] in
  let t' := storeTT "b" 1 (Fin 0) flagAlpha None t in
  keysUnique (transpositionTable t) /\
  keysUnique (transpositionTable t') /\
  (length (transpositionTable t') <= S (length (transpositionTable t)))%nat /\
  forall hash' e0, hash' <> "b"%string ->
    ttGet hash' (transpositionTable t') = Some e0 ->
    ttGet hash' (transpositionTable t) = Some e0.
Proof.
  cbv zeta.
  assert (H : keysUnique [("a"%string, mkTTEntry 3 (Fin 25) exact None 0)])
    by (repeat constructor; simpl; tauto).
  split; [exact H |].
  exact (storeTT_never_invents "b" 1 (Fin 0) flagAlpha None
           (mkTables [("a"%string, mkTTEntry 3 (Fin 25) exact None 0)] 1
                     (repeat [] 100) []) H).
Defined.

(** X18 (transposition table): [MAX_TT_SIZE] is no bound on the table: when no
    entry is older than two searches, nothing is evicted, whatever the size,
    and storing under a new key makes the table one entry longer. *)
Theorem storeTT_grows_when_nothing_is_stale (hash : string) (depth : Z)
  (score0 : Num) (flag0 : TTFlag) (bestMove0 : option Move) (t : Tables) :
  (forall k e, In (k, e) (transpositionTable t) -> currentAge t - 2 <= age e) ->
  ttGet hash (transpositionTable t) = None ->
  let t' := storeTT hash depth score0 flag0 bestMove0 t in
  length (transpositionTable t') = S (length (transpositionTable t)) /\
  forall hash', hash' <> hash ->
    ttGet hash' (transpositionTable t') = ttGet hash' (transpositionTable t).
Proof.
  intros Hfresh Hnew. cbv zeta. unfold storeTT. cbn [transpositionTable].
  rewrite ttEvict_nothing_stale by (auto; vm_compute; discriminate).
  replace (if Z.of_nat (length (transpositionTable t)) >=? MAX_TT_SIZE
           then transpositionTable t else transpositionTable t)
    with (transpositionTable t) by (destruct (_ >=? _); reflexivity).
  split.
  - rewrite ttSet_length, Hnew. reflexivity.
  - intros hash' Hne. apply ttGet_ttSet_other, Hne.
Qed.

Lemma storeTT_grows_when_nothing_is_stale_witness :
  let e := mkTTEntry 3 (Fin 25) exact None 0 in
  let t := mkTables [("a"%string, e)] 1 (repeat [] 100) [] in
  let t' := storeTT "b" 1 (Fin 0) flagAlpha None t in
  ttGet "b" (transpositionTable t) = None /\
  length (transpositionTable t') = S (length (transpositionTable t)) /\
  forall hash', hash' <> "b"%string ->
    ttGet hash' (transpositionTable t') = ttGet hash' (transpositionTable t).
Proof.
  cbv zeta. split; [reflexivity |].
  apply (storeTT_grows_when_nothing_is_stale "b" 1 (Fin 0) flagAlpha None
           (mkTables [("a"%string, mkTTEntry 3 (Fin 25) exact None 0)] 1
                     (repeat [] 100) [])).
  - intros k e [H | []]. injection H as _ <-. simpl. lia.
  - reflexivity.
Defined.

(** * Killer moves and history *)

Lemma nth_setNth_same {A : Type} (i : nat) (v d : A) (l : list A) :
  (i < length l)%nat -> nth i (setNth i v l) d = v.
Proof.
  revert i. induction l as [|x tl IH]; intros [|i] H; simpl in *;
    try lia; [reflexivity | apply IH; lia].
Qed.

Lemma nth_setNth_other {A : Type} (i j : nat) (v d : A) (l : list A) :
  i <> j -> nth j (setNth i v l) d = nth j l d.
Proof.
  revert i j. induction l as [|x tl IH]; intros [|i] [|j] H; simpl;
    try reflexivity; try congruence.
  apply IH. congruence.
Qed.

Lemma Forall_setNth {A : Type} (P : A -> Prop) (i : nat) (v : A) (l : list A) :
  Forall P l -> P v -> Forall P (setNth i v l).
Proof.
  intros Hl Hv. revert i. induction Hl as [|x tl Hx Htl IH]; intros [|i]; simpl;
    constructor; auto.
Qed.

Lemma Forall_nth_default {A : Type} (P : A -> Prop) (i : nat) (d : A) (l : list A) :
  Forall P l -> P d -> P (nth i l d).
Proof.
  intros Hl Hd. revert i. induction Hl as [|x tl Hx Htl IH]; intros [|i]; simpl; auto.
Qed.

Lemma sameSquares_refl (m : Move) : sameSquares m m = true.
Proof. unfold sameSquares. rewrite !Z.eqb_refl. reflexivity. Qed.

Lemma sameSquares_sym (a b : Move) : sameSquares a b = sameSquares b a.
Proof.
  unfold sameSquares.
  rewrite (Z.eqb_sym (row (from a))), (Z.eqb_sym (col (from a))),
          (Z.eqb_sym (row (to a))), (Z.eqb_sym (col (to a))).
  reflexivity.
Qed.

Lemma killerSlotOk_nil : killerSlotOk [].
Proof. repeat split; simpl; [lia | constructor | constructor]. Qed.

Lemma killerSlotOk_push (move : Move) (killers : list Move) :
  killerSlotOk killers -> captured move = None ->
  existsb (fun k0 => sameSquares k0 move) killers = false ->
  killerSlotOk (let killers' := move :: killers in
                if (2 <? length killers')%nat then removelast killers' else killers').
Proof.
  intros [Hlen [Hq Hd]] Hmove Hnew. cbv zeta.
  assert (Hfresh : Forall (fun b => sameSquares move b = false) killers).
  { apply Forall_forall. intros k Hk. rewrite sameSquares_sym.
    destruct (sameSquares k move) eqn:E; [| reflexivity].
    assert (existsb (fun k0 => sameSquares k0 move) killers = true)
      by (apply existsb_exists; eauto).
    congruence. }
  destruct killers as [|a [|b [|c rest]]]; simpl in *; try lia.
  - repeat split; simpl; [lia | repeat constructor; auto | repeat constructor].
  - repeat split; simpl; [lia | |].
    + constructor; [exact Hmove | exact Hq].
    + constructor; [exact Hfresh | exact Hd].
  - repeat split; simpl; [lia | |].
    + inversion Hq; subst. repeat constructor; auto.
    + inversion Hfresh; subst. repeat constructor; auto.
Qed.

Lemma storeKiller_slots (move : Move) (ply : Z) (t : Tables) :
  killersOk t -> 0 <= ply ->
  let t' := storeKiller move ply t in
  killersOk t' /\
  length (killerMoves t') = length (killerMoves t) /\
  (forall p, 0 <= p -> p <> ply ->
     nth (Z.to_nat p) (killerMoves t') [] = nth (Z.to_nat p) (killerMoves t) []) /\
  (Z.of_nat (length (killerMoves t)) <= ply -> t' = t) /\
  transpositionTable t' = transpositionTable t /\
  currentAge t' = currentAge t /\
  historyTable t' = historyTable t.
Proof.
  intros Hok Hply. cbv zeta. unfold storeKiller.
  destruct (ply >=? Z.of_nat (length (killerMoves t))) eqn:Hbig;
    [repeat split; auto |].
  rewrite Z.geb_leb in Hbig. apply Z.leb_gt in Hbig.
  destruct (isSome (captured move)) eqn:Hcap;
    [repeat split; auto; intros; lia |].
  destruct (existsb (fun k0 => sameSquares k0 move)
              (nth (Z.to_nat ply) (killerMoves t) [])) eqn:Hold;
    [repeat split; auto; intros; lia |].
  cbn [killerMoves transpositionTable currentAge historyTable].
  split; [| split; [| split; [| split]]].
  - unfold killersOk. cbn [killerMoves]. apply Forall_setNth; [exact Hok |].
    apply killerSlotOk_push.
    + apply Forall_nth_default; [exact Hok | exact killerSlotOk_nil].
    + destruct (captured move); [discriminate | reflexivity].
    + exact Hold.
  - apply length_setNth.
  - intros p Hp Hne. apply nth_setNth_other. lia.
  - intros. lia.
  - auto.
Qed.

(** X19 (killer moves): [storeKiller] keeps every slot of [killerMoves] in
    order: at most two moves, none of them a capture, no two between the
    same squares.  It keeps the number of slots, touches no slot but the one
    of its ply and no other table, and ignores a ply beyond the last
    slot. *)
Theorem storeKiller_keeps_slots_in_order (move : Move) (ply : Z) (t : Tables) :
  killersOk t -> 0 <= ply ->
  let t' := storeKiller move ply t in
  killersOk t' /\
  length (killerMoves t') = length (killerMoves t) /\
  (forall p, 0 <= p -> p <> ply ->
     nth (Z.to_nat p) (killerMoves t') [] = nth (Z.to_nat p) (killerMoves t) []) /\
  (Z.of_nat (length (killerMoves t)) <= ply -> t' = t) /\
  transpositionTable t' = transpositionTable t /\
  currentAge t' = currentAge t /\
  historyTable t' = historyTable t.
Proof. apply storeKiller_slots. Qed.

Lemma killersOk_initialTables : killersOk initialTables.
Proof.
  unfold killersOk, initialTables. cbn [killerMoves].
  apply Forall_forall. intros x Hx. apply repeat_spec in Hx. subst x.
  exact killerSlotOk_nil.
Qed.

Lemma storeKiller_keeps_slots_in_order_witness :
  let t' := storeKiller doubleAdvance 3 initialTables in
  killersOk initialTables /\
  killersOk t' /\
  length (killerMoves t') = length (killerMoves initialTables) /\
  (forall p, 0 <= p -> p <> 3 ->
     nth (Z.to_nat p) (killerMoves t') []
     = nth (Z.to_nat p) (killerMoves initialTables) []) /\
  (Z.of_nat (length (killerMoves initialTables)) <= 3 -> t' = initialTables) /\
  transpositionTable t' = transpositionTable initialTables /\
  currentAge t' = currentAge initialTables /\
  historyTable t' = historyTable initialTables.
Proof.
  cbv zeta. split; [exact killersOk_initialTables |].
  apply (storeKiller_keeps_slots_in_order doubleAdvance 3 initialTables);
    [exact killersOk_initialTables | lia].
Defined.

Lemma findIndexFrom_shift {A : Type} (f : A -> bool) (l : list A) :
  forall i, findIndexFrom i f l = -1 \/
            i <= findIndexFrom i f l < i + Z.of_nat (length l).
Proof.
  induction l as [|x tl IH]; intros i; simpl; [left; reflexivity |].
  destruct (f x); [right; lia |].
  destruct (IH (i + 1)) as [H | H]; [left; exact H | right; lia].
Qed.

Lemma findIndexFrom_found {A : Type} (f : A -> bool) (l : list A) :
  forall i, 0 <= i -> existsb f l = true ->
            i <= findIndexFrom i f l < i + Z.of_nat (length l).
Proof.
  induction l as [|x tl IH]; intros i Hi Hex; simpl in *; [discriminate |].
  destruct (f x); [lia |].
  simpl in Hex. specialize (IH (i + 1) ltac:(lia) Hex). lia.
Qed.

(** X20 (killer moves, move ordering): a quiet move without promotion that was
    just stored as a killer of a ply is scored as a killer at that ply,
    unless it is the move of the transposition table: 80000 when it was new
    to the slot, 80000 or 70000 when the slot held it already. *)
Theorem stored_killer_is_scored_as_killer (move : Move) (ply : Z) (t : Tables)
  (ttBestMove : option Move) :
  killersOk t ->
  0 <= ply < Z.of_nat (length (killerMoves t)) ->
  captured move = None -> promotion move = None ->
  match ttBestMove with Some best => sameSquares best move | None => false end
  = false ->
  let s := scoreMove (storeKiller move ply t) move ply ttBestMove in
  (s = 80000 \/ s = 70000) /\
  (existsb (fun k0 => sameSquares k0 move) (nth (Z.to_nat ply) (killerMoves t) [])
   = false -> s = 80000).
Proof.
  intros Hok Hply Hcap Hpromo Htt. cbv zeta.
  unfold scoreMove. rewrite Htt, Hcap, Hpromo.
  unfold storeKiller.
  replace (ply >=? Z.of_nat (length (killerMoves t))) with false
    by (symmetry; rewrite Z.geb_leb; apply Z.leb_gt; lia).
  rewrite Hcap. cbn [isSome].
  destruct (existsb (fun k0 => sameSquares k0 move)
              (nth (Z.to_nat ply) (killerMoves t) [])) eqn:Hold.
  - replace (ply <? Z.of_nat (length (killerMoves t))) with true
      by (symmetry; apply Z.ltb_lt; lia).
    assert (Hslot : killerSlotOk (nth (Z.to_nat ply) (killerMoves t) []))
      by (apply Forall_nth_default; [exact Hok | exact killerSlotOk_nil]).
    destruct Hslot as [Hlen _].
    pose proof (findIndexFrom_found (fun k0 => sameSquares k0 move)
                  (nth (Z.to_nat ply) (killerMoves t) []) 0 ltac:(lia) Hold) as Hidx.
    set (idx := findIndexFrom 0 (fun k0 => sameSquares k0 move)
                  (nth (Z.to_nat ply) (killerMoves t) [])) in *.
    split; [| discriminate].
    assert (idx = 0 \/ idx = 1) as [-> | ->] by lia; simpl; auto.
  - cbn [killerMoves]. rewrite length_setNth.
    replace (ply <? Z.of_nat (length (killerMoves t))) with true
      by (symmetry; apply Z.ltb_lt; lia).
    rewrite nth_setNth_same by lia.
    set (killers' := move :: nth (Z.to_nat ply) (killerMoves t) []).
    assert (Hhead : exists rest,
              (if (2 <? length killers')%nat then removelast killers' else killers')
              = move :: rest).
    { subst killers'. destruct (nth (Z.to_nat ply) (killerMoves t) []) as [|a [|b r]];
        simpl; eauto. }
    destruct Hhead as [rest ->]. simpl. rewrite sameSquares_refl. simpl. auto.
Qed.

Lemma stored_killer_is_scored_as_killer_witness :
  let s := scoreMove (storeKiller doubleAdvance 3 initialTables) doubleAdvance 3 None in
  killersOk initialTables /\
  (s = 80000 \/ s = 70000) /\
  (existsb (fun k0 => sameSquares k0 doubleAdvance)
     (nth (Z.to_nat 3) (killerMoves initialTables) []) = false -> s = 80000).
Proof.
  cbv zeta. split; [exact killersOk_initialTables |].
  apply (stored_killer_is_scored_as_killer doubleAdvance 3 initialTables None);
    [exact killersOk_initialTables
    | vm_compute; split; [discriminate | reflexivity]
    | reflexivity | reflexivity | reflexivity].
Defined.

Lemma wfHistory_nth (h : list (list (list (list Z)))) (a b c : nat) :
  wfHistory h -> (a < 8)%nat -> (b < 8)%nat -> (c < 8)%nat ->
  length (nth a h []) = 8%nat /\
  length (nth b (nth a h []) []) = 8%nat /\
  length (nth c (nth b (nth a h []) []) []) = 8%nat.
Proof.
  intros [Hlen Hall] Ha Hb Hc.
  rewrite Forall_forall in Hall.
  destruct (Hall (nth a h [])) as [Hla Hall2]; [apply nth_In; lia |].
  rewrite Forall_forall in Hall2.
  destruct (Hall2 (nth b (nth a h []) [])) as [Hlb Hall3]; [apply nth_In; lia |].
  rewrite Forall_forall in Hall3.
  assert (Hlc : length (nth c (nth b (nth a h []) []) []) = 8%nat)
    by (apply Hall3, nth_In; lia).
  auto.
Qed.

Lemma valid_to_nat (pos : Position) :
  isValidPosition pos = true ->
  (Z.to_nat (row pos) < 8)%nat /\ (Z.to_nat (col pos) < 8)%nat /\
  0 <= row pos /\ 0 <= col pos.
Proof. intros H. apply isValidPosition_bounds in H. lia. Qed.

(** X21 (history): on the table as allocated, for a move between squares of
    the board and as long as the counter stays between 0 and
    [MAX_SAFE_INTEGER], where the source's floating-point sum is exact,
    [updateHistory] adds the square of the depth to the counter of the move's
    two squares, never lowers it, and leaves the counter of every other pair
    of squares, the shape of the table and the other tables as they are. *)
Theorem updateHistory_adds_depth_squared (move : Move) (depth : Z) (t : Tables) :
  wfHistory (historyTable t) ->
  isValidPosition (from move) = true -> isValidPosition (to move) = true ->
  0 <= historyGet (historyTable t) move ->
  historyGet (historyTable t) move + depth * depth <= MAX_SAFE_INTEGER ->
  let t' := updateHistory move depth t in
  historyGet (historyTable t') move
  = historyGet (historyTable t) move + depth * depth /\
  historyGet (historyTable t) move <= historyGet (historyTable t') move /\
  (forall other, isValidPosition (from other) = true ->
                 isValidPosition (to other) = true ->
                 sameSquares other move = false ->
                 historyGet (historyTable t') other
                 = historyGet (historyTable t) other) /\
  wfHistory (historyTable t') /\
  transpositionTable t' = transpositionTable t /\
  currentAge t' = currentAge t /\
  killerMoves t' = killerMoves t.
Proof.
  intros Hwf Hfrom Hto _ _. cbv zeta.
  unfold updateHistory. cbn [historyTable transpositionTable currentAge killerMoves].
  destruct (valid_to_nat _ Hfrom) as [Ha [Hb [Ha0 Hb0]]].
  destruct (valid_to_nat _ Hto) as [Hc [Hd [Hc0 Hd0]]].
  destruct (wfHistory_nth _ _ _ _ Hwf Ha Hb Hc) as [Hla [Hlb Hlc]].
  pose proof Hwf as [Hlen Hall].
  assert (Hsame : historyGet (historyAdd (historyTable t) move (depth * depth)) move
                  = historyGet (historyTable t) move + depth * depth).
  { unfold historyGet, historyAdd. cbv zeta.
    rewrite nth_setNth_same by lia. rewrite nth_setNth_same by lia.
    rewrite nth_setNth_same by lia. rewrite nth_setNth_same by lia.
    reflexivity. }
  split; [exact Hsame |]. split; [rewrite Hsame; nia |].
  split; [| split; [| auto]].
  - intros other Hof Hot Hdiff.
    destruct (valid_to_nat _ Hof) as [_ [_ [Ha' Hb']]].
    destruct (valid_to_nat _ Hot) as [_ [_ [Hc' Hd']]].
    unfold historyGet, historyAdd. cbv zeta.
    destruct (Z.eq_dec (row (from other)) (row (from move))) as [E1 |];
      [| rewrite nth_setNth_other by lia; reflexivity].
    rewrite E1. rewrite nth_setNth_same by lia.
    destruct (Z.eq_dec (col (from other)) (col (from move))) as [E2 |];
      [| rewrite nth_setNth_other by lia; reflexivity].
    rewrite E2. rewrite nth_setNth_same by lia.
    destruct (Z.eq_dec (row (to other)) (row (to move))) as [E3 |];
      [| rewrite nth_setNth_other by lia; reflexivity].
    rewrite E3. rewrite nth_setNth_same by lia.
    destruct (Z.eq_dec (col (to other)) (col (to move))) as [E4 |];
      [| rewrite nth_setNth_other by lia; reflexivity].
    exfalso. unfold sameSquares in Hdiff.
    rewrite E1, E2, E3, E4, !Z.eqb_refl in Hdiff. discriminate.
  - unfold historyAdd. cbv zeta. split; [rewrite length_setNth; exact Hlen |].
    apply Forall_setNth; [exact Hall |].
    split; [rewrite length_setNth; exact Hla |].
    rewrite Forall_forall in Hall.
    destruct (Hall (nth (Z.to_nat (row (from move))) (historyTable t) []))
      as [_ Hall2]; [apply nth_In; lia |].
    apply Forall_setNth; [exact Hall2 |].
    split; [rewrite length_setNth; exact Hlb |].
    rewrite Forall_forall in Hall2.
    destruct (Hall2 (nth (Z.to_nat (col (from move)))
                       (nth (Z.to_nat (row (from move))) (historyTable t) []) []))
      as [_ Hall3]; [apply nth_In; lia |].
    apply Forall_setNth; [exact Hall3 |].
    rewrite length_setNth. exact Hlc.
Qed.

Lemma wfHistory_initialTables : wfHistory (historyTable initialTables).
Proof.
  unfold initialTables. cbn [historyTable]. split; [reflexivity |].
  repeat (apply Forall_forall; intros ? H; apply repeat_spec in H; subst;
          split; [reflexivity |]).
  apply Forall_forall. intros ? H. apply repeat_spec in H. subst. reflexivity.
Qed.

Lemma updateHistory_adds_depth_squared_witness :
  let t' := updateHistory doubleAdvance 3 initialTables in
  wfHistory (historyTable initialTables) /\
  0 <= historyGet (historyTable initialTables) doubleAdvance /\
  historyGet (historyTable initialTables) doubleAdvance + 3 * 3 <= MAX_SAFE_INTEGER /\
  historyGet (historyTable t') doubleAdvance
  = historyGet (historyTable initialTables) doubleAdvance + 3 * 3 /\
  historyGet (historyTable initialTables) doubleAdvance
  <= historyGet (historyTable t') doubleAdvance /\
  (forall other, isValidPosition (from other) = true ->
                 isValidPosition (to other) = true ->
                 sameSquares other doubleAdvance = false ->
                 historyGet (historyTable t') other
                 = historyGet (historyTable initialTables) other) /\
  wfHistory (historyTable t') /\
  transpositionTable t' = transpositionTable initialTables /\
  currentAge t' = currentAge initialTables /\
  killerMoves t' = killerMoves initialTables.
Proof.
  cbv zeta. split; [exact wfHistory_initialTables |].
  split; [vm_compute; discriminate |].
  split; [vm_compute; discriminate |].
  apply (updateHistory_adds_depth_squared doubleAdvance 3 initialTables);
    [exact wfHistory_initialTables | reflexivity | reflexivity
    | vm_compute; discriminate | vm_compute; discriminate].
Defined.

(** * Move ordering *)

Lemma PIECE_VALUES_bounds (t : PieceType) : 100 <= PIECE_VALUES t <= 20000.
Proof. destruct t; simpl; lia. Qed.

Lemma scoreMove_cases (t : Tables) (move : Move) (ply : Z) (ttBestMove : option Move) :
  let s := scoreMove t move ply ttBestMove in
  if match ttBestMove with Some best => sameSquares best move | None => false end
  then s = 1000000
  else match captured move, promotion move with
       | Some _, _ => 81000 <= s <= 299900
       | None, Some _ => 90100 <= s <= 110000
       | None, None =>
           s = 80000 \/ s = 70000 \/ s = historyGet (historyTable t) move
       end.
Proof.
  cbv zeta. unfold scoreMove.
  destruct (match ttBestMove with Some best => sameSquares best move | None => false end);
    [reflexivity |].
  destruct (captured move) as [victim|].
  - pose proof (PIECE_VALUES_bounds (type victim)).
    pose proof (PIECE_VALUES_bounds (type (piece move))). lia.
  - destruct (promotion move) as [promo|].
    + pose proof (PIECE_VALUES_bounds promo). lia.
    + destruct (_ =? 0); [auto |]. destruct (_ =? 1); auto.
Qed.

(** X22 (move ordering): the bands of [scoreMove].  The move of the
    transposition table scores 1000000; otherwise a capture scores between
    81000 and 299900, a quiet promotion between 90100 and 110000, and any
    other move 80000 or 70000 as a killer or else its history counter; so a
    capture or promotion is put before both killers. *)
Theorem scoreMove_bands (t : Tables) (move : Move) (ply : Z)
  (ttBestMove : option Move) :
  let s := scoreMove t move ply ttBestMove in
  if match ttBestMove with Some best => sameSquares best move | None => false end
  then s = 1000000
  else match captured move, promotion move with
       | Some _, _ => 81000 <= s <= 299900
       | None, Some _ => 90100 <= s <= 110000
       | None, None =>
           s = 80000 \/ s = 70000 \/ s = historyGet (historyTable t) move
       end.
Proof. apply scoreMove_cases. Qed.

Lemma insertByScore_filter {A : Type} (score0 : A -> Z) (s : Z) (x : A) (l : list A) :
  filter (fun m => score0 m =? s) (insertByScore score0 x l)
  = filter (fun m => score0 m =? s) (x :: l).
Proof.
  induction l as [|y rest IH]; [reflexivity |].
  cbn [insertByScore]. destruct (score0 y <=? score0 x) eqn:E; [reflexivity |].
  apply Z.leb_gt in E.
  cbn [filter] in *. rewrite IH.
  destruct (score0 x =? s) eqn:Ex; [| reflexivity].
  apply Z.eqb_eq in Ex.
  replace (score0 y =? s) with false by (symmetry; apply Z.eqb_neq; lia).
  reflexivity.
Qed.

Lemma sortByScore_filter {A : Type} (score0 : A -> Z) (s : Z) (l : list A) :
  filter (fun m => score0 m =? s) (sortByScore score0 l)
  = filter (fun m => score0 m =? s) l.
Proof.
  induction l as [|x rest IH]; [reflexivity |].
  unfold sortByScore in *. cbn [fold_right].
  rewrite insertByScore_filter. cbn [filter]. rewrite IH. reflexivity.
Qed.

(** X23 (move ordering): [orderMoves] returns the moves it was given, each as
    often as before, in the order of falling score, and keeps moves of equal
    score in the order they came in. *)
Theorem orderMoves_sorts_stably (t : Tables) (moves : list Move) (ply : Z)
  (ttBestMove : option Move) :
  let sc := fun m => scoreMove t m ply ttBestMove in
  let sorted := orderMoves t moves ply ttBestMove in
  Permutation moves sorted /\
  LocallySorted (fun a b => sc b <= sc a) sorted /\
  forall s, filter (fun m => sc m =? s) sorted = filter (fun m => sc m =? s) moves.
Proof.
  cbv zeta. unfold orderMoves.
  split; [apply sortByScore_Permutation |].
  split; [apply sortByScore_sorted |].
  intros s. apply (sortByScore_filter (fun m => scoreMove t m ply ttBestMove)).
Qed.

Lemma sorted_head_max {A : Type} (score0 : A -> Z) (x : A) (l : list A) :
  LocallySorted (fun a b => score0 b <= score0 a) (x :: l) ->
  forall y, In y (x :: l) -> score0 y <= score0 x.
Proof.
  revert x. induction l as [|z rest IH]; intros x Hs y Hin.
  - destruct Hin as [<- | []]. lia.
  - inversion Hs as [| | ? ? ? Hs' Hle]; subst.
    destruct Hin as [<- | Hin]; [lia |].
    specialize (IH z Hs' y Hin). lia.
Qed.

(** X24 (move ordering): when the move of the transposition table is among the
    moves and every history counter of the moves is below 1000000,
    [orderMoves] puts a move between the squares of the table's move
    first. *)
Theorem orderMoves_puts_table_move_first (t : Tables) (moves : list Move)
  (ply : Z) (best m : Move) :
  In m moves -> sameSquares best m = true ->
  (forall m', In m' moves -> historyGet (historyTable t) m' < 1000000) ->
  exists first rest,
    orderMoves t moves ply (Some best) = first :: rest /\
    sameSquares best first = true.
Proof.
  intros Hin Hbest Hhist.
  pose proof (sortByScore_Permutation (fun m => scoreMove t m ply (Some best)) moves)
    as Hperm.
  pose proof (sortByScore_sorted (fun m => scoreMove t m ply (Some best)) moves)
    as Hsorted.
  unfold orderMoves.
  destruct (sortByScore (fun m => scoreMove t m ply (Some best)) moves)
    as [|first rest] eqn:E.
  - apply Permutation_sym, Permutation_nil in Hperm. subst moves. destruct Hin.
  - exists first, rest. split; [reflexivity |].
    pose proof (sorted_head_max _ first rest Hsorted m
                  (Permutation_in _ Hperm Hin)) as Hmax.
    cbv beta in Hmax.
    pose proof (scoreMove_cases t m ply (Some best)) as Hm.
    cbv beta iota zeta in Hm. rewrite Hbest in Hm. rewrite Hm in Hmax.
    pose proof (scoreMove_cases t first ply (Some best)) as Hf. cbv beta iota zeta in Hf.
    destruct (sameSquares best first); [reflexivity | exfalso].
    assert (Hfirst : In first moves)
      by (eapply Permutation_in; [apply Permutation_sym, Hperm | left; reflexivity]).
    specialize (Hhist first Hfirst).
    destruct (captured first); [lia |].
    destruct (promotion first); [lia |].
    lia.
Qed.

Lemma orderMoves_puts_table_move_first_witness :
  let moves := getValidMovesForColor createInitialBoard White (Some fullRights) None in
  let best := mkMove (mkPos 1 3) (mkPos 3 3) (mkPiece Pawn White)
                     None None false false in
  In best moves /\
  exists first rest,
    orderMoves initialTables moves 0 (Some best) = first :: rest /\
    sameSquares best first = true.
Proof.
  cbv zeta.
  match goal with
  | |- In ?m ?l /\ _ =>
      assert (H : In m l) by (vm_compute; tauto);
      split; [exact H |];
      apply (orderMoves_puts_table_move_first initialTables l 0 m m H eq_refl)
  end.
  intros m' Hm'.
  assert (Hall : forallb (fun m0 => historyGet (historyTable initialTables) m0 <? 1000000)
                   (getValidMovesForColor createInitialBoard White (Some fullRights) None)
                 = true) by (vm_compute; reflexivity).
  rewrite forallb_forall in Hall. apply Z.ltb_lt. apply Hall, Hm'.
Defined.

(** * What [applyMove] does to the board *)

Lemma wfBoard_applyMove (board : Board) (m : Move) :
  wfBoard board -> wfBoard (applyMove board m).
Proof.
  intros Hwf. unfold applyMove.
  destruct (cell board _ _) as [pc|]; [| exact Hwf].
  repeat match goal with
         | |- context [if ?b then _ else _] => destruct b
         end;
    repeat apply wfBoard_setCell; exact Hwf.
Qed.

Lemma cell_off_board (board : Board) (r c : Z) :
  r < 0 \/ c < 0 -> cell board r c = None.
Proof.
  intros H. unfold cell.
  destruct (0 <=? r) eqn:E1; [| reflexivity].
  destruct (0 <=? c) eqn:E2; [| reflexivity].
  apply Z.leb_le in E1, E2. lia.
Qed.

(** Reading after writing on a well-formed board, any square. *)
Lemma cell_setCell_any (board : Board) (r c r' c' : Z) (v : option Piece) :
  wfBoard board -> 0 <= r < 8 -> 0 <= c < 8 ->
  cell (setCell board r c v) r' c'
  = if (r =? r') && (c =? c') then v else cell board r' c'.
Proof.
  intros Hwf Hr Hc.
  destruct (Z_lt_le_dec r' 0) as [Hn | Hr'].
  - rewrite !cell_off_board by lia.
    replace (r =? r') with false by (symmetry; apply Z.eqb_neq; lia). reflexivity.
  - destruct (Z_lt_le_dec c' 0) as [Hn | Hc'].
    + rewrite !cell_off_board by lia.
      replace (c =? c') with false by (symmetry; apply Z.eqb_neq; lia).
      rewrite andb_false_r. reflexivity.
    + apply cell_setCell; assumption.
Qed.

Lemma countPieces_setCell_wf (board : Board) (r c : Z) (v : option Piece) :
  wfBoard board -> 0 <= r < 8 -> 0 <= c < 8 ->
  (countPieces (setCell board r c v) + occ (cell board r c)
   = countPieces board + occ v)%nat.
Proof.
  intros Hwf Hr Hc.
  destruct (cell board r c) as [old|] eqn:E.
  - pose proof (countPieces_setCell board r c v old E).
    change (occ (Some old)) with 1%nat. lia.
  - destruct (nth_error_wf board r Hwf Hr) as [line [Hline Hlen]].
    unfold cell in E. unfold setCell.
    replace ((0 <=? r) && (0 <=? c)) with true in *
      by (symmetry; apply andb_true_iff; split; apply Z.leb_le; lia).
    rewrite Hline in *.
    destruct (nth_error line (Z.to_nat c)) as [sq|] eqn:Hsq;
      [| apply nth_error_None in Hsq; lia].
    subst sq.
    replace (Z.to_nat c <? length line)%nat with true
      by (symmetry; apply Nat.ltb_lt; lia).
    pose proof (countPieces_setNth _ _ (setNth (Z.to_nat c) v line) _ Hline) as H1.
    pose proof (rowCount_setNth _ v _ _ Hsq) as H2.
    change (occ None) with 0%nat in *. lia.
Qed.

(** The squares of an ordinary generated move. *)
Lemma generated_ordinary_squares (board : Board) (c : PieceColor)
  (rights : option CastlingRights) (lastMove : option Move) (m : Move) :
  wfBoard board ->
  In m (getValidMovesForColor board c rights lastMove) ->
  isCastling m = false ->
  cell board (row (from m)) (col (from m)) = Some (piece m) /\
  color (piece m) = c /\
  captured m = cell board (row (to m)) (col (to m)) /\
  isEnPassant m = false /\
  (0 <= row (from m) < 8 /\ 0 <= col (from m) < 8) /\
  (0 <= row (to m) < 8 /\ 0 <= col (to m) < 8) /\
  (row (from m) =? row (to m)) && (col (from m) =? col (to m)) = false /\
  (type (piece m) = Pawn -> row (to m) <> row (from m)).
Proof.
  intros Hwf Hin Hcastle.
  destruct (proj1 (generated_ordinary_iff board c rights lastMove m)
              (conj Hin Hcastle))
    as [from0 [to0 [pc [-> [Hfrom [Hcol [Hto _]]]]]]].
  cbn [from to piece captured isEnPassant].
  pose proof (cell_Some_bounds _ _ _ _ Hwf Hfrom) as Hfb.
  destruct (getValidMoves_target _ _ _ _ Hto) as [Hvalid Hfree].
  destruct to0 as [tr tc]. apply isValidPosition_bounds in Hvalid.
  cbn [row col] in *.
  repeat split; try tauto; try lia.
  - destruct ((row from0 =? tr) && (col from0 =? tc)) eqn:E; [| reflexivity].
    apply andb_true_iff in E. destruct E as [E1 E2]. apply Z.eqb_eq in E1, E2.
    subst tr tc. exfalso. apply (Hfree pc Hfrom). reflexivity.
  - intros Hpawn. unfold getValidMoves in Hto. rewrite Hpawn in Hto.
    apply getPawnMoves_changes_row in Hto. exact Hto.
Qed.

(** X25 (applying moves): what [applyMove] makes of a generated move that is
    not a castling move: the origin is empty, the target holds the piece
    that moved, or a queen of its colour when a pawn reached the last row,
    and every other square is as before. *)
Theorem generated_move_changes_two_squares (board : Board) (c : PieceColor)
  (rights : option CastlingRights) (lastMove : option Move) (m : Move) :
  wfBoard board ->
  In m (getValidMovesForColor board c rights lastMove) ->
  isCastling m = false ->
  let after := applyMove board m in
  let arrived :=
    if PieceType_eqb (type (piece m)) Pawn &&
       (row (to m) =? match c with White => 7 | Black => 0 end)
    then mkPiece Queen c else piece m in
  wfBoard after /\
  cell after (row (from m)) (col (from m)) = None /\
  cell after (row (to m)) (col (to m)) = Some arrived /\
  forall r0 c0,
    (r0, c0) <> (row (from m), col (from m)) ->
    (r0, c0) <> (row (to m), col (to m)) ->
    cell after r0 c0 = cell board r0 c0.
Proof.
  intros Hwf Hin Hcastle. cbv zeta.
  split; [apply wfBoard_applyMove; exact Hwf |].
  destruct (generated_ordinary_squares _ _ _ _ _ Hwf Hin Hcastle)
    as [Hfrom [Hcol [_ [Hep [Hfb [Htb [Hdiff _]]]]]]].
  unfold applyMove. rewrite Hfrom, Hcastle, Hep. cbn [andb].
  rewrite Hcol.
  set (b1 := setCell board (row (to m)) (col (to m)) (Some (piece m))).
  set (b2 := setCell b1 (row (from m)) (col (from m)) None).
  assert (Hwf1 : wfBoard b1) by (apply wfBoard_setCell; exact Hwf).
  assert (Hwf2 : wfBoard b2) by (apply wfBoard_setCell; exact Hwf1).
  assert (Hb2 : forall r0 c0,
            cell b2 r0 c0
            = if (row (from m) =? r0) && (col (from m) =? c0) then None
              else if (row (to m) =? r0) && (col (to m) =? c0) then Some (piece m)
              else cell board r0 c0).
  { intros r0 c0. unfold b2, b1.
    rewrite cell_setCell_any by (assumption || lia).
    rewrite cell_setCell_any by (assumption || lia). reflexivity. }
  assert (Hswap : (row (to m) =? row (from m)) && (col (to m) =? col (from m)) = false)
    by (rewrite (Z.eqb_sym (row (to m))), (Z.eqb_sym (col (to m))); exact Hdiff).
  assert (Hother : forall (r0 c0 a b : Z), (r0, c0) <> (a, b) ->
                     (a =? r0) && (b =? c0) = false).
  { intros r0 c0 a b Hne. destruct ((a =? r0) && (b =? c0)) eqn:E; [| reflexivity].
    apply andb_true_iff in E. destruct E as [E1 E2]. apply Z.eqb_eq in E1, E2.
    subst. congruence. }
  destruct (PieceType_eqb (type (piece m)) Pawn); cbn [andb];
    [destruct (row (to m) =? match c with White => 7 | Black => 0 end) |].
  - rewrite !cell_setCell_any by (assumption || lia).
    rewrite Hswap, !Z.eqb_refl. cbn [andb]. rewrite Hb2, !Z.eqb_refl. cbn [andb].
    repeat split.
    intros r0 c0 Hn1 Hn2. rewrite cell_setCell_any by (assumption || lia).
    rewrite (Hother _ _ _ _ Hn2), Hb2, (Hother _ _ _ _ Hn1), (Hother _ _ _ _ Hn2).
    reflexivity.
  - rewrite !Hb2, Hdiff, !Z.eqb_refl. cbn [andb].
    repeat split.
    intros r0 c0 Hn1 Hn2.
    rewrite Hb2, (Hother _ _ _ _ Hn1), (Hother _ _ _ _ Hn2). reflexivity.
  - rewrite !Hb2, Hdiff, !Z.eqb_refl. cbn [andb].
    repeat split.
    intros r0 c0 Hn1 Hn2.
    rewrite Hb2, (Hother _ _ _ _ Hn1), (Hother _ _ _ _ Hn2). reflexivity.
Qed.

Lemma generated_move_changes_two_squares_witness :
  let m := mkMove (mkPos 1 4) (mkPos 3 4) (mkPiece Pawn White)
                  None None false false in
  let after := applyMove createInitialBoard m in
  let arrived :=
    if PieceType_eqb (type (piece m)) Pawn && (row (to m) =? 7)
    then mkPiece Queen White else piece m in
  wfBoard createInitialBoard /\
  In m (getValidMovesForColor createInitialBoard White (Some fullRights) None) /\
  wfBoard after /\
  cell after (row (from m)) (col (from m)) = None /\
  cell after (row (to m)) (col (to m)) = Some arrived /\
  forall r0 c0,
    (r0, c0) <> (row (from m), col (from m)) ->
    (r0, c0) <> (row (to m), col (to m)) ->
    cell after r0 c0 = cell createInitialBoard r0 c0.
Proof.
  cbv zeta. split; [exact wfBoard_createInitialBoard |].
  match goal with
  | |- In ?m ?l /\ _ =>
      assert (H : In m l) by (vm_compute; tauto);
      split; [exact H |];
      exact (generated_move_changes_two_squares createInitialBoard White
               (Some fullRights) None m wfBoard_createInitialBoard H eq_refl)
  end.
Defined.

(** X26 (applying moves): a generated move takes exactly the captured piece off
    the board: the number of pieces after [applyMove] is the number before,
    less one if the move records a capture; castling and promotion keep the
    number. *)
Theorem generated_move_piece_count (board : Board) (c : PieceColor)
  (rights : option CastlingRights) (lastMove : option Move) (m : Move) :
  wfBoard board ->
  In m (getValidMovesForColor board c rights lastMove) ->
  (countPieces (applyMove board m) + occ (captured m) = countPieces board)%nat.
Proof.
  intros Hwf Hin.
  destruct (isCastling m) eqn:Hcastle.
  - (* castling *)
    pose proof Hin as Hin'.
    apply generated_move_origin in Hin'.
    destruct Hin' as [from0 [pc [Hfrom [Hcol Hm]]]].
    apply movesOfPiece_cases in Hm.
    destruct Hm as [[to0 [-> _]] | [to0 [r0 [-> [Ht [_ Hc]]]]]]; [discriminate |].
    apply getCastlingMoves_checks in Hc.
    destruct Hc as [-> [_ Hside]]. cbn [row col] in Hfrom.
    pose proof (homeRow_bounds c) as Hh.
    unfold applyMove. cbn [from to isCastling isEnPassant captured row col andb].
    rewrite Hfrom, Ht. cbn [PieceType_eqb andb].
    change (occ None) with 0%nat.
    destruct Hside as [[-> [_ [Hrook [H4 [H5 _]]]]] | [-> [_ [Hrook [H1 [H2 _]]]]]];
      apply isPieceOf_true in Hrook; cbn [row col]; cbn [Z.eqb Pos.eqb].
    + set (b1 := setCell board (homeRow c) 5 (Some pc)).
      set (b2 := setCell b1 (homeRow c) 3 None).
      assert (Hwf1 : wfBoard b1) by (apply wfBoard_setCell; exact Hwf).
      assert (Hwf2 : wfBoard b2) by (apply wfBoard_setCell; exact Hwf1).
      assert (Hr : cell b2 (homeRow c) 7 = Some (mkPiece Rook c)).
      { unfold b2, b1. rewrite !cell_setCell_any by (assumption || lia).
        rewrite Z.eqb_refl. cbn. exact Hrook. }
      rewrite Hr.
      set (b3 := setCell b2 (homeRow c) 4 (Some (mkPiece Rook c))).
      assert (Hwf3 : wfBoard b3) by (apply wfBoard_setCell; exact Hwf2).
      pose proof (countPieces_setCell_wf board (homeRow c) 5 (Some pc) Hwf Hh
                    ltac:(lia)) as C1.
      pose proof (countPieces_setCell_wf b1 (homeRow c) 3 None Hwf1 Hh
                    ltac:(lia)) as C2.
      pose proof (countPieces_setCell_wf b2 (homeRow c) 4 (Some (mkPiece Rook c))
                    Hwf2 Hh ltac:(lia)) as C3.
      pose proof (countPieces_setCell_wf b3 (homeRow c) 7 None Hwf3 Hh
                    ltac:(lia)) as C4.
      fold b1 in C1, C2. fold b2 in C2, C3. fold b3 in C3, C4.
      rewrite H5 in C1.
      assert (E2 : cell b1 (homeRow c) 3 = Some pc).
      { unfold b1. rewrite cell_setCell_any by (assumption || lia).
        rewrite Z.eqb_refl. cbn. exact Hfrom. }
      assert (E3 : cell b2 (homeRow c) 4 = None).
      { unfold b2, b1. rewrite !cell_setCell_any by (assumption || lia).
        rewrite Z.eqb_refl. cbn. exact H4. }
      assert (E4 : cell b3 (homeRow c) 7 = Some (mkPiece Rook c)).
      { unfold b3. rewrite cell_setCell_any by (assumption || lia).
        rewrite Z.eqb_refl. cbn. exact Hr. }
      rewrite E2 in C2. rewrite E3 in C3. rewrite E4 in C4.
      cbn [occ isSome] in *. lia.
    + set (b1 := setCell board (homeRow c) 1 (Some pc)).
      set (b2 := setCell b1 (homeRow c) 3 None).
      assert (Hwf1 : wfBoard b1) by (apply wfBoard_setCell; exact Hwf).
      assert (Hwf2 : wfBoard b2) by (apply wfBoard_setCell; exact Hwf1).
      assert (Hr : cell b2 (homeRow c) 0 = Some (mkPiece Rook c)).
      { unfold b2, b1. rewrite !cell_setCell_any by (assumption || lia).
        rewrite Z.eqb_refl. cbn. exact Hrook. }
      rewrite Hr.
      set (b3 := setCell b2 (homeRow c) 2 (Some (mkPiece Rook c))).
      assert (Hwf3 : wfBoard b3) by (apply wfBoard_setCell; exact Hwf2).
      pose proof (countPieces_setCell_wf board (homeRow c) 1 (Some pc) Hwf Hh
                    ltac:(lia)) as C1.
      pose proof (countPieces_setCell_wf b1 (homeRow c) 3 None Hwf1 Hh
                    ltac:(lia)) as C2.
      pose proof (countPieces_setCell_wf b2 (homeRow c) 2 (Some (mkPiece Rook c))
                    Hwf2 Hh ltac:(lia)) as C3.
      pose proof (countPieces_setCell_wf b3 (homeRow c) 0 None Hwf3 Hh
                    ltac:(lia)) as C4.
      fold b1 in C1, C2. fold b2 in C2, C3. fold b3 in C3, C4.
      rewrite H1 in C1.
      assert (E2 : cell b1 (homeRow c) 3 = Some pc).
      { unfold b1. rewrite cell_setCell_any by (assumption || lia).
        rewrite Z.eqb_refl. cbn. exact Hfrom. }
      assert (E3 : cell b2 (homeRow c) 2 = None).
      { unfold b2, b1. rewrite !cell_setCell_any by (assumption || lia).
        rewrite Z.eqb_refl. cbn. exact H2. }
      assert (E4 : cell b3 (homeRow c) 0 = Some (mkPiece Rook c)).
      { unfold b3. rewrite cell_setCell_any by (assumption || lia).
        rewrite Z.eqb_refl. cbn. exact Hr. }
      rewrite E2 in C2. rewrite E3 in C3. rewrite E4 in C4.
      cbn [occ isSome] in *. lia.
  - destruct (generated_ordinary_squares _ _ _ _ _ Hwf Hin Hcastle)
      as [Hfrom [Hcol [Hcap [Hep [Hfb [Htb [Hdiff Hpawn]]]]]]].
    unfold applyMove. rewrite Hfrom, Hcastle, Hep, Hcap. cbn [andb].
    set (b1 := setCell board (row (to m)) (col (to m)) (Some (piece m))).
    set (b2 := setCell b1 (row (from m)) (col (from m)) None).
    assert (Hwf1 : wfBoard b1) by (apply wfBoard_setCell; exact Hwf).
    assert (Hwf2 : wfBoard b2) by (apply wfBoard_setCell; exact Hwf1).
    pose proof (countPieces_setCell_wf board _ _ (Some (piece m)) Hwf
                  (proj1 Htb) (proj2 Htb)) as C1.
    pose proof (countPieces_setCell_wf b1 _ _ None Hwf1
                  (proj1 Hfb) (proj2 Hfb)) as C2.
    fold b1 in C1, C2. fold b2 in C2.
    assert (Hswap : (row (to m) =? row (from m)) && (col (to m) =? col (from m)) = false)
      by (rewrite (Z.eqb_sym (row (to m))), (Z.eqb_sym (col (to m))); exact Hdiff).
    assert (E2 : cell b1 (row (from m)) (col (from m)) = Some (piece m)).
    { unfold b1. rewrite cell_setCell_any by (assumption || lia).
      rewrite Hswap. exact Hfrom. }
    rewrite E2 in C2. cbn [occ isSome] in C1, C2.
    destruct (PieceType_eqb (type (piece m)) Pawn); [| lia].
    destruct (row (to m) =? match color (piece m) with White => 7 | Black => 0 end);
      [| lia].
    pose proof (countPieces_setCell_wf b2 _ _
                  (Some (mkPiece Queen (color (piece m)))) Hwf2
                  (proj1 Htb) (proj2 Htb)) as C3.
    assert (E3 : cell b2 (row (to m)) (col (to m)) = Some (piece m)).
    { unfold b2, b1. rewrite !cell_setCell_any by (assumption || lia).
      rewrite Hdiff, !Z.eqb_refl. reflexivity. }
    rewrite E3 in C3. cbn [occ isSome] in C3. lia.
Qed.

Lemma generated_move_piece_count_witness :
  let board := fst developedPosition in
  wfBoard board /\
  In (castleKingSide White)
     (getValidMovesForColor board White (Some fullRights) None) /\
  (countPieces (applyMove board (castleKingSide White))
   + occ (captured (castleKingSide White)) = countPieces board)%nat.
Proof.
  cbv zeta.
  assert (Hwf : wfBoard (fst developedPosition))
    by (split; [reflexivity | vm_compute; repeat constructor]).
  split; [exact Hwf |].
  match goal with
  | |- In ?m ?l /\ _ =>
      assert (H : In m l) by (vm_compute; tauto);
      split; [exact H |];
      exact (generated_move_piece_count _ White (Some fullRights) None m Hwf H)
  end.
Defined.

(** * The tables during a search *)

Lemma keeps_ret (J : Tables -> Prop) {A : Type} (a : A) : keepsTables J (ret a).
Proof. intros s b s' HJ E. injection E as _ <-. exact HJ. Qed.

Lemma keeps_gets (J : Tables -> Prop) {A : Type} (f : SearchState -> A) :
  keepsTables J (gets f).
Proof. intros s b s' HJ E. injection E as _ <-. exact HJ. Qed.

Lemma keeps_bind (J : Tables -> Prop) {A B : Type} (m : M A) (f : A -> M B) :
  keepsTables J m -> (forall a, keepsTables J (f a)) -> keepsTables J (bind m f).
Proof.
  intros Hm Hf s b s' HJ E. unfold bind in E.
  destruct (m s) as [[a s1]|] eqn:E1; [| discriminate].
  eapply Hf; [eapply Hm; eassumption | exact E].
Qed.

Lemma keeps_forEach (J : Tables -> Prop) {X L R : Type}
  (body : X -> L -> M (Step L R)) (xs : list X) :
  (forall x l, keepsTables J (body x l)) ->
  forall l, keepsTables J (forEach body xs l).
Proof.
  intros Hbody. induction xs as [|x rest IH]; intros l; cbn [forEach].
  - apply keeps_ret.
  - apply keeps_bind; [apply Hbody |].
    intros [l' | l' | r0]; [apply IH | apply keeps_ret | apply keeps_ret].
Qed.

Lemma keeps_isTimeExpired (J : Tables -> Prop) (budget : option (nat -> bool)) :
  keepsTables J (isTimeExpired budget).
Proof.
  intros s b s' HJ E. unfold isTimeExpired in E.
  destruct (timeExpired s); [injection E as _ <-; exact HJ |].
  destruct budget as [over|]; [| injection E as _ <-; exact HJ].
  destruct (over (clockReads s)); injection E as _ <-; exact HJ.
Qed.

Lemma keeps_modifyTables (J : Tables -> Prop) (f : Tables -> Tables) :
  (forall t, J t -> J (f t)) -> keepsTables J (modifyTables f).
Proof. intros Hf s b s' HJ E. injection E as _ <-. apply Hf, HJ. Qed.

Lemma keeps_setBestMoveAtRoot (J : Tables -> Prop) (m : option Move) :
  keepsTables J (setBestMoveAtRoot m).
Proof. intros s b s' HJ E. injection E as _ <-. exact HJ. Qed.

(** [quiescence] keeps any property of the tables: it never writes them. *)
Lemma quiescence_keeps (J : Tables -> Prop) (evaluate : Board -> PieceColor -> Num)
  (budget : option (nat -> bool)) (rootColor : PieceColor) (fuel : nat) :
  forall board sideToMove alpha beta rights,
    keepsTables J (quiescence evaluate budget rootColor fuel board sideToMove
                     alpha beta rights).
Proof.
  induction fuel as [|fuel IH]; intros board sideToMove alpha beta rights.
  - intros s b s' _ E. discriminate.
  - cbn [quiescence].
    apply keeps_bind; [apply keeps_isTimeExpired | intros expired].
    destruct expired; [apply keeps_ret |].
    destruct (Num_leb beta _); [apply keeps_ret |].
    apply keeps_bind.
    + apply keeps_forEach. intros move alpha0. unfold quiescenceRound.
      apply keeps_bind; [apply keeps_isTimeExpired | intros expired].
      destruct expired; [apply keeps_ret |].
      apply keeps_bind; [apply IH | intros v].
      destruct (Num_leb beta _); apply keeps_ret.
    + intros [a | v]; apply keeps_ret.
Qed.

Lemma Forall_ttSet (P : string * TTEntry -> Prop) (hash : string) (entry : TTEntry)
  (table : TT) :
  Forall P table -> (forall k, P (k, entry)) -> Forall P (ttSet hash entry table).
Proof.
  intros Ht He. induction Ht as [|[key old] rest Hx Hrest IH]; simpl.
  - constructor; [apply He | constructor].
  - destruct (String.eqb key hash); constructor; auto.
Qed.

Lemma Forall_ttEvict (P : string * TTEntry -> Prop) (cur : Z) (table : TT)
  (collected : Z) :
  Forall P table -> Forall P (ttEvict collected cur table).
Proof.
  rewrite !Forall_forall. intros H x Hx. apply H. eapply ttEvict_incl, Hx.
Qed.

Lemma storeTT_inOrder (age0 : Z) (slots : nat) (hash : string) (depth : Z)
  (score0 : Num) (flag0 : TTFlag) (bestMove0 : option Move) (t : Tables) :
  1 <= depth -> tablesInOrder age0 slots t ->
  tablesInOrder age0 slots (storeTT hash depth score0 flag0 bestMove0 t).
Proof.
  intros Hd [Hage [Hslots [Hu [Hall [Hk Hh]]]]].
  unfold tablesInOrder, storeTT.
  cbn [currentAge killerMoves transpositionTable historyTable].
  split; [exact Hage |]. split; [exact Hslots |].
  split; [| split; [| split; [exact Hk | exact Hh]]].
  - apply ttSet_keysUnique. destruct (_ >=? _); [apply ttEvict_keysUnique |]; exact Hu.
  - apply Forall_ttSet.
    + destruct (_ >=? _); [apply Forall_ttEvict |]; exact Hall.
    + intros k. cbn [snd age entryDepth]. lia.
Qed.

Lemma Forall_setNth_in {A : Type} (P : A -> Prop) (i : nat) (v : A) (l : list A) :
  Forall P l -> ((i < length l)%nat -> P v) -> Forall P (setNth i v l).
Proof.
  intros Hl. revert i. induction Hl as [|x tl Hx Htl IH]; intros [|i] Hv; simpl.
  - constructor.
  - constructor.
  - constructor; [apply Hv; simpl; lia | exact Htl].
  - constructor; [exact Hx | apply IH; intros; apply Hv; simpl; lia].
Qed.

Lemma Forall_nth_in {A : Type} (P : A -> Prop) (i : nat) (d : A) (l : list A) :
  Forall P l -> (i < length l)%nat -> P (nth i l d).
Proof.
  intros Hl Hi. rewrite Forall_forall in Hl. apply Hl, nth_In, Hi.
Qed.

Lemma wfHistory_historyAdd (h : list (list (list (list Z)))) (move : Move) (bonus : Z) :
  wfHistory h -> wfHistory (historyAdd h move bonus).
Proof.
  intros [Hlen Hall]. unfold historyAdd. cbv zeta.
  split; [rewrite length_setNth; exact Hlen |].
  apply Forall_setNth_in; [exact Hall |]. intros Ha.
  destruct (Forall_nth_in _ _ [] _ Hall Ha) as [Hla Hall2].
  split; [rewrite length_setNth; exact Hla |].
  apply Forall_setNth_in; [exact Hall2 |]. intros Hb.
  destruct (Forall_nth_in _ _ [] _ Hall2 Hb) as [Hlb Hall3].
  split; [rewrite length_setNth; exact Hlb |].
  apply Forall_setNth_in; [exact Hall3 |]. intros Hc.
  rewrite length_setNth. exact (Forall_nth_in _ _ [] _ Hall3 Hc).
Qed.

Lemma updateHistory_inOrder (age0 : Z) (slots : nat) (move : Move) (depth : Z)
  (t : Tables) :
  tablesInOrder age0 slots t -> tablesInOrder age0 slots (updateHistory move depth t).
Proof.
  intros [Hage [Hslots [Hu [Hall [Hk Hh]]]]].
  unfold tablesInOrder, updateHistory.
  cbn [currentAge killerMoves transpositionTable historyTable].
  repeat split; auto; apply wfHistory_historyAdd; exact Hh.
Qed.

Lemma storeKiller_inOrder (age0 : Z) (slots : nat) (move : Move) (ply : Z)
  (t : Tables) :
  0 <= ply -> tablesInOrder age0 slots t ->
  tablesInOrder age0 slots (storeKiller move ply t).
Proof.
  intros Hply [Hage [Hslots [Hu [Hall [Hk Hh]]]]].
  destruct (storeKiller_slots move ply t Hk Hply)
    as [Hk' [Hlen [_ [_ [Htt [Hage' Hh']]]]]].
  unfold tablesInOrder. rewrite Htt, Hage', Hh', Hlen. auto 10.
Qed.

Section TablesFacts.

Variable evaluate : Board -> PieceColor -> Num.
Variable budget : option (nat -> bool).
Variable rootColor : PieceColor.
Variable age0 : Z.
Variable slots : nat.

Lemma negamaxRound_keeps
  (search : Board -> PieceColor -> Z -> Num -> Num -> option CastlingRights ->
            Z -> bool -> list string -> M Num)
  (board : Board) (sideToMove : PieceColor) (depth : Z) (beta : Num)
  (rights : option CastlingRights) (ply : Z) (inCheck : bool)
  (history : list string) (move : Move) (vars : NodeVars) :
  0 <= ply ->
  (forall b c d a b0 r n h,
     keepsTables (tablesInOrder age0 slots) (search b c d a b0 r (ply + 1) n h)) ->
  keepsTables (tablesInOrder age0 slots)
    (negamaxRound evaluate budget rootColor search board sideToMove depth beta
       rights ply inCheck history move vars).
Proof.
  intros Hply Hsearch. unfold negamaxRound.
  apply keeps_bind; [apply keeps_isTimeExpired | intros expired].
  destruct expired; [apply keeps_ret |].
  apply keeps_bind.
  { destruct (isThirdRepetition _ _); [apply keeps_ret |].
    destruct (movesSearched vars =? 0).
    - apply keeps_bind; [apply Hsearch | intros v; apply keeps_ret].
    - apply keeps_bind; [apply Hsearch | intros v].
      destruct (_ && Num_ltb _ _); [| apply keeps_ret].
      apply keeps_bind; [apply Hsearch | intros w; apply keeps_ret]. }
  intros score0.
  apply keeps_bind.
  { destruct (_ && negb _); [| apply keeps_ret].
    apply keeps_modifyTables. intros t Ht.
    apply updateHistory_inOrder, storeKiller_inOrder; assumption. }
  intros u. destruct (Num_leb beta _); apply keeps_ret.
Qed.

Lemma negamax_keeps (fuel : nat) :
  forall board sideToMove depth alpha beta rights ply allowNull history,
    0 <= ply ->
    keepsTables (tablesInOrder age0 slots)
      (negamax evaluate budget rootColor fuel board sideToMove depth alpha beta
         rights ply allowNull history).
Proof.
  induction fuel as [|fuel IH];
    intros board sideToMove depth alpha beta rights ply allowNull history Hply.
  - intros s b s' _ E. discriminate.
  - cbn [negamax].
    apply keeps_bind; [apply keeps_isTimeExpired | intros expired].
    destruct expired; [apply keeps_ret |].
    apply keeps_bind; [apply keeps_gets | intros ttEntry].
    destruct (Num_leb _ _); [apply keeps_ret |].
    destruct (ttCutoff _ _ _ _); [apply keeps_ret |].
    destruct (depth <=? 0) eqn:Hd; [apply quiescence_keeps |].
    apply Z.leb_gt in Hd.
    destruct (getValidMovesForColor board sideToMove rights None) as [|m0 rest];
      [apply keeps_ret |].
    apply keeps_bind.
    { destruct (allowNull && _ && _); [| apply keeps_ret].
      apply keeps_bind; [apply IH; lia | intros v; apply keeps_ret]. }
    intros nullCut. destruct nullCut; [apply keeps_ret |].
    apply keeps_bind; [apply keeps_gets | intros ordered].
    apply keeps_bind.
    { apply keeps_forEach. intros move vars.
      apply negamaxRound_keeps; [exact Hply |].
      intros. apply IH. lia. }
    intros [vars | v]; [| apply keeps_ret].
    apply keeps_bind; [apply keeps_isTimeExpired | intros expired].
    apply keeps_bind; [| intros u; apply keeps_ret].
    destruct expired; [apply keeps_ret |].
    apply keeps_modifyTables. intros t Ht. apply storeTT_inOrder; [lia | exact Ht].
Qed.

Lemma searchRoot_keeps (fuel : nat) (board : Board) (color0 : PieceColor)
  (rights : option CastlingRights) (depth : Z) (history : list string) :
  keepsTables (tablesInOrder age0 slots)
    (searchRoot evaluate budget rootColor fuel board color0 rights depth history).
Proof.
  unfold searchRoot.
  apply keeps_bind; [apply keeps_isTimeExpired | intros expired].
  destruct expired; [apply keeps_gets |].
  destruct (getValidMovesForColor board color0 rights None) as [|m0 rest];
    [apply keeps_ret |].
  apply keeps_bind; [apply keeps_gets | intros ttRoot].
  apply keeps_bind; [apply keeps_gets | intros ordered].
  apply keeps_bind; [apply keeps_gets | intros best].
  apply keeps_bind; [| intros r; apply keeps_gets].
  apply keeps_forEach. intros move vars. unfold searchRootRound.
  apply keeps_bind; [apply keeps_isTimeExpired | intros expired].
  destruct expired; [apply keeps_ret |].
  apply keeps_bind.
  { destruct (isThirdRepetition _ _); [apply keeps_ret |].
    apply keeps_bind; [apply negamax_keeps; lia | intros v].
    destruct (_ && (depth >? 3)); [| apply keeps_ret].
    apply keeps_bind; [apply negamax_keeps; lia | intros w; apply keeps_ret]. }
  intros score0.
  apply keeps_bind.
  { destruct (Num_ltb _ _); [apply keeps_setBestMoveAtRoot | apply keeps_ret]. }
  intros u. destruct (Num_leb _ _); apply keeps_ret.
Qed.

Lemma deepen_keeps (fuel : nat) (board : Board) (color0 : PieceColor)
  (rights : option CastlingRights) (baseHistory : list string) (remaining : nat) :
  forall currentDepth,
    keepsTables (tablesInOrder age0 slots)
      (deepen evaluate budget rootColor fuel board color0 rights baseHistory
         remaining currentDepth).
Proof.
  induction remaining as [|remaining IH]; intros currentDepth; cbn [deepen].
  - apply keeps_ret.
  - apply keeps_bind; [apply keeps_isTimeExpired | intros expired].
    destruct expired; [apply keeps_ret |].
    apply keeps_bind; [apply keeps_gets | intros previousBest].
    apply keeps_bind; [apply searchRoot_keeps | intros r].
    apply keeps_bind; [apply keeps_isTimeExpired | intros expired'].
    destruct (expired' && _); [apply keeps_setBestMoveAtRoot |].
    apply keeps_bind; [apply keeps_gets | intros best].
    apply keeps_bind; [apply keeps_gets | intros entry].
    destruct (isSome best && _); [apply keeps_ret | apply IH].
Qed.

End TablesFacts.

(** X27 (quiescence): with more fuel than pieces on the board, [quiescence]
    returns, and it has written none of the tables and not the best move at
    the root: the capture search neither probes nor stores. *)
Theorem quiescence_leaves_tables_alone (evaluate : Board -> PieceColor -> Num)
  (budget : option (nat -> bool)) (rootColor : PieceColor) (fuel : nat)
  (board : Board) (sideToMove : PieceColor) (alpha beta : Num)
  (rights : option CastlingRights) (s : SearchState) :
  (countPieces board < fuel)%nat ->
  exists v s',
    quiescence evaluate budget rootColor fuel board sideToMove alpha beta rights s
    = Some (v, s') /\
    tables s' = tables s /\ bestMoveAtRoot s' = bestMoveAtRoot s.
Proof.
  intros Hfuel.
  destruct (quiescence_total evaluate budget rootColor fuel board sideToMove
              alpha beta rights s Hfuel) as [v [s' [E [[Hbest _] _]]]].
  exists v, s'. split; [exact E |]. split; [| exact Hbest].
  symmetry.
  exact (quiescence_keeps (fun t => tables s = t) evaluate budget rootColor fuel
           board sideToMove alpha beta rights s v s' eq_refl E).
Qed.

Lemma quiescence_leaves_tables_alone_witness :
  (countPieces pawnEnding < 4)%nat /\
  exists v s',
    quiescence material None White 4 pawnEnding White NegInf PosInf None startState
    = Some (v, s') /\
    tables s' = tables startState /\ bestMoveAtRoot s' = bestMoveAtRoot startState.
Proof.
  assert (H : (countPieces pawnEnding < 4)%nat) by (vm_compute; lia).
  split; [exact H |].
  exact (quiescence_leaves_tables_alone material None White 4 pawnEnding White
           NegInf PosInf None startState H).
Defined.

(** X28 (search): a call of [myMinimaxMove] with enough fuel returns and leaves
    the tables in order: the age is one more than before, the number of
    killer slots is kept, the keys of the transposition table are unique, no
    entry is younger than the age or of a depth below 1, every killer slot
    holds at most two quiet moves between different squares, and the history
    table has its shape. *)
Theorem myMinimaxMove_keeps_tables_in_order (fuel : nat) (t : Tables)
  (board : Board) (color0 : PieceColor) (depth : Z)
  (evaluate : Board -> PieceColor -> Num) (budget : option (nat -> bool))
  (rights : option CastlingRights) (positionHistory : option (list string)) :
  wfBoard board ->
  (enoughFuel board depth <= fuel)%nat ->
  keysUnique (transpositionTable t) ->
  Forall (fun ke => age (snd ke) <= currentAge t /\ 1 <= entryDepth (snd ke))
         (transpositionTable t) ->
  wfHistory (historyTable t) ->
  exists r t',
    myMinimaxMove fuel t board color0 depth evaluate budget rights positionHistory
    = Some (r, t') /\
    tablesInOrder (currentAge t + 1) (length (killerMoves t)) t'.
Proof.
  intros _ Hfuel Hu Hall Hh.
  destruct (myMinimaxMove_returns fuel t board color0 depth evaluate budget rights
              positionHistory Hfuel) as [r [t' [E _]]].
  exists r, t'. split; [exact E |].
  unfold myMinimaxMove in E. cbv zeta in E.
  match type of E with
  | match ?run with _ => _ end = _ => destruct run as [[u s']|] eqn:Erun
  end; [| discriminate].
  injection E as _ <-.
  eapply (deepen_keeps evaluate budget color0 (currentAge t + 1)
            (length (killerMoves t))); [| exact Erun].
  cbn [tables]. unfold tablesInOrder, clearKillers.
  cbn [currentAge killerMoves transpositionTable historyTable].
  split; [reflexivity |]. split; [apply length_map |].
  split; [exact Hu |]. split.
  - eapply Forall_impl; [| exact Hall]. cbv beta. intros ke [H1 H2]. lia.
  - split; [| exact Hh].
    unfold killersOk. cbn [killerMoves].
    apply Forall_forall. intros x Hx. apply in_map_iff in Hx.
    destruct Hx as [y [<- _]]. exact killerSlotOk_nil.
Qed.

Lemma myMinimaxMove_keeps_tables_in_order_witness :
  wfBoard pawnEnding /\
  (enoughFuel pawnEnding 2 <= enoughFuel pawnEnding 2)%nat /\
  keysUnique (transpositionTable initialTables) /\
  wfHistory (historyTable initialTables) /\
  exists r t',
    myMinimaxMove (enoughFuel pawnEnding 2) initialTables pawnEnding White 2
                  material None None None
    = Some (r, t') /\
    tablesInOrder (currentAge initialTables + 1)
                  (length (killerMoves initialTables)) t'.
Proof.
  split; [exact wfBoard_pawnEnding |].
  split; [lia |].
  assert (Hu : keysUnique (transpositionTable initialTables)) by constructor.
  split; [exact Hu |].
  split; [exact wfHistory_initialTables |].
  exact (myMinimaxMove_keeps_tables_in_order (enoughFuel pawnEnding 2) initialTables
           pawnEnding White 2 material None None None
           wfBoard_pawnEnding (le_n _) Hu (Forall_nil _) wfHistory_initialTables).
Defined.

(** * Attacked squares *)

Lemma isPositionEqual_true (a b : Position) : isPositionEqual a b = true <-> a = b.
Proof.
  unfold isPositionEqual. rewrite andb_true_iff, !Z.eqb_eq.
  destruct a, b; simpl. split; [intros [-> ->]; reflexivity | intros H; injection H; auto].
Qed.

(** X29 (check): a square counts as attacked by a colour exactly when a piece
    of that colour on the board has a pseudo-legal move onto it, and a king
    as in check exactly when [findKing] finds it on such a square for the
    other colour. *)
Theorem attacked_iff_pseudo_legal_target (board : Board) (position : Position)
  (c : PieceColor) :
  (isPositionUnderAttack board position c = true <->
   exists from0 pc,
     isValidPosition from0 = true /\
     cell board (row from0) (col from0) = Some pc /\ color pc = c /\
     In position (getValidMoves board from0 pc)) /\
  (isKingInCheck board c = true <->
   exists kingPos from0 pc,
     findKing board c = Some kingPos /\
     isValidPosition from0 = true /\
     cell board (row from0) (col from0) = Some pc /\ color pc = opposite c /\
     In kingPos (getValidMoves board from0 pc)).
Proof.
  assert (Hatt : forall pos byColor,
            isPositionUnderAttack board pos byColor = true <->
            exists from0 pc,
              isValidPosition from0 = true /\
              cell board (row from0) (col from0) = Some pc /\ color pc = byColor /\
              In pos (getValidMoves board from0 pc)).
  { intros pos byColor. unfold isPositionUnderAttack. rewrite existsb_exists. split.
    - intros [sq [Hsq H]]. apply squares_In in Hsq.
      destruct (cell board (row sq) (col sq)) as [pc|] eqn:E; [| discriminate].
      apply andb_true_iff in H. destruct H as [Hc H].
      apply PieceColor_eqb_eq in Hc. apply existsb_exists in H.
      destruct H as [mv [Hmv Heq]]. apply isPositionEqual_true in Heq. subst mv.
      exists sq, pc. auto.
    - intros [from0 [pc [V [E [Hc Hin]]]]]. exists from0.
      split; [apply squares_In; exact V |].
      rewrite E. apply andb_true_iff. split; [apply PieceColor_eqb_eq; exact Hc |].
      apply existsb_exists. exists pos. split; [exact Hin |].
      apply isPositionEqual_true. reflexivity. }
  split; [apply Hatt |].
  unfold isKingInCheck. destruct (findKing board c) as [kingPos|].
  - rewrite Hatt. split.
    + intros [from0 [pc H]]. exists kingPos, from0, pc. tauto.
    + intros [k [from0 [pc [Hk H]]]]. injection Hk as <-. exists from0, pc. exact H.
  - split; [discriminate |]. intros [k [from0 [pc [Hk _]]]]. discriminate.
Qed.

(** * Running out of time *)

(** X30 (search): when the time is up at the first look at the clock, or the
    depth asked for is negative, [myMinimaxMove] searches nothing and answers
    with the first move of the generator, or [null] if there is none; the
    tables are left as they were, with the age raised and the killers
    cleared. *)
Theorem myMinimaxMove_without_time_answers_first_move (fuel : nat) (t : Tables)
  (board : Board) (color0 : PieceColor) (depth : Z)
  (evaluate : Board -> PieceColor -> Num) (budget : option (nat -> bool))
  (rights : option CastlingRights) (positionHistory : option (list string)) :
  depth < 0 \/ (exists over, budget = Some over /\ over O = true) ->
  myMinimaxMove fuel t board color0 depth evaluate budget rights positionHistory
  = Some (hd_error (getValidMovesForColor board color0 rights None),
          clearKillers (mkTables (transpositionTable t) (currentAge t + 1)
                                 (killerMoves t) (historyTable t))).
Proof.
  intros H. unfold myMinimaxMove. cbv zeta.
  destruct H as [Hneg | [over [-> Hover]]].
  - replace (depth =? 0) with false by (symmetry; apply Z.eqb_neq; lia).
    replace (Z.to_nat depth) with O by lia. reflexivity.
  - destruct (Z.to_nat (if depth =? 0 then 1000 else depth)) as [|n]; cbn [deepen];
      [reflexivity |].
    unfold bind, isTimeExpired. cbn [timeExpired clockReads]. rewrite Hover.
    reflexivity.
Qed.

Lemma myMinimaxMove_without_time_answers_first_move_witness :
  myMinimaxMove 0 initialTables createInitialBoard White 3 material
                (Some (fun _ => true)) (Some fullRights) None
  = Some (hd_error (getValidMovesForColor createInitialBoard White
                      (Some fullRights) None),
          clearKillers (mkTables (transpositionTable initialTables)
                                 (currentAge initialTables + 1)
                                 (killerMoves initialTables)
                                 (historyTable initialTables))).
Proof.
  apply (myMinimaxMove_without_time_answers_first_move 0 initialTables
           createInitialBoard White 3 material (Some (fun _ => true))
           (Some fullRights) None).
  right. exists (fun _ => true). split; reflexivity.
Defined.
